(** * PitchPlease: polyphonic pitch detection and chord matching

    A shallow embedding of [pitchplease.js] and the properties of its
    detection pipeline: music math, the chord matcher, the peak extractor,
    the harmonic sieve, the stability gate and the chord-change event.

    Number model.  JavaScript numbers are IEEE doubles.  Pitch classes,
    intervals, indices and counts are integers and are modelled by [Z] and
    [nat], which is exact for integers below [2^53] in magnitude.  The
    chord matcher's scores are doubles: they are modelled by the rationals
    that are their exact values, every operation rounded to 53 significant
    bits as the double operation is (module [Double]).  Magnitudes, MIDI
    values, sieve scores and the noise floor are modelled by exact
    rationals [Q]: there the rounding of double arithmetic and of the
    [Float32Array] stores is not modelled.  The transcendental library
    functions [Math.log], [Math.log2] and [Math.sqrt] are a parameter of the
    development (class [JSMath]). *)

From Stdlib Require Import ZArith QArith Qround Qabs Qminmax Qpower Lia Lqa Bool.
From Stdlib Require Import String Ascii Decimal DecimalString DecimalZ.
From Stdlib Require Import PrimFloat FloatOps SpecFloat.
From stdpp Require Import base list sorting.

Set Default Proof Using "Type".
Set Warnings "-abstract-large-number".

(** * Part I: the program *)

(** ** JavaScript primitives *)

Module JS.

(** [a % b] on integers: the remainder has the sign of the dividend. *)
Definition rem (a b : Z) : Z := Z.rem a b.

(** [Math.round]: nearest integer, halves towards plus infinity. *)
Definition round (x : Q) : Z := Qfloor (x + (1 # 2)).

(** [x < y] and [x > y] on numbers. *)
Definition ltb (x y : Q) : bool := negb (Qle_bool y x).
Definition gtb (x y : Q) : bool := ltb y x.

(** [Math.max] and [Math.min] on two numbers. *)
Definition max (x y : Q) : Q := if ltb x y then y else x.
Definition min (x y : Q) : Q := if ltb y x then y else x.

(** [[...new Set(l)]]: the distinct elements in order of first insertion. *)
Fixpoint setFrom (seen l : list Z) : list Z :=
  match l with
  | [] => []
  | x :: r =>
      if existsb (Z.eqb x) seen then setFrom seen r
      else x :: setFrom (x :: seen) r
  end.

Definition newSet (l : list Z) : list Z := setFrom [] l.

(** [l.sort((a, b) => a - b)]: a stable ascending numeric sort. *)
Fixpoint insertNum (x : Z) (l : list Z) : list Z :=
  match l with
  | [] => [x]
  | y :: r => if (x <? y)%Z then x :: y :: r else y :: insertNum x r
  end.

Definition sortNum (l : list Z) : list Z := foldr insertNum [] l.

(** [l.filter((_, j) => j !== i)]. *)
Fixpoint dropIndex {A} (i : nat) (l : list A) : list A :=
  match l, i with
  | [], _ => []
  | _ :: r, O => r
  | x :: r, S k => x :: dropIndex k r
  end.

(** [l.includes(t)]. *)
Definition includes (l : list Z) (t : Z) : bool := existsb (Z.eqb t) l.

End JS.

(** [[...new Set(l)].sort((a, b) => a - b)], the canonical form of a list
    of numbers at lines 82 and 265. *)
Definition canon (l : list Z) : list Z := JS.sortNum (JS.newSet l).

(** ** Music math *)

Definition C0_HZ : Q := 81757989156 # 10000000000.

Definition NOTE_NAMES : list string :=
  ["C"; "C#"; "D"; "D#"; "E"; "F"; "F#"; "G"; "G#"; "A"; "A#"; "B"]%string.

(** [NOTE_NAMES[i]] for an integer [i]; [None] is [undefined]. *)
Definition noteAt (i : Z) : option string :=
  if (i <? 0)%Z then None else NOTE_NAMES !! Z.to_nat i.

Definition midiToPitchClass (midi : Q) : Z := JS.rem (JS.round midi) 12.

(** ** Double arithmetic

    The value of a double operation is the exact result rounded to the
    nearest number with 53 significant bits, ties to the even significand.
    Doubles are modelled by the rationals they denote.  The exponent is not
    bounded: underflow and overflow, which need magnitudes below [2^-1022]
    or from [2^1024], are not modelled. *)

Module Double.

(** The exponent [E] with [2^E <= x < 2^(E+1)], for positive [x]. *)
Definition binade (x : Q) : Z :=
  let e0 := (Z.log2 (Qnum x) - Z.log2 (Zpos (Qden x)))%Z in
  if Qle_bool (2 ^ e0) x then e0 else (e0 - 1)%Z.

(** The nearest integer, ties to even. *)
Definition rne (q : Q) : Z :=
  let f := Qfloor q in
  match Qcompare (q - inject_Z f) (1 # 2) with
  | Lt => f
  | Gt => (f + 1)%Z
  | Eq => if Z.even f then f else (f + 1)%Z
  end.

Definition roundPos (x : Q) : Q :=
  let e := (binade x - 52)%Z in
  Qred (inject_Z (rne (x / 2 ^ e)) * 2 ^ e).

Definition round (x : Q) : Q :=
  match Qcompare x 0 with
  | Eq => 0
  | Gt => roundPos x
  | Lt => - roundPos (- x)
  end.

Definition sub (x y : Q) : Q := round (x - y).
Definition mul (x y : Q) : Q := round (x * y).
Definition div (x y : Q) : Q := round (x / y).

(** The literal [0.1]. *)
Definition tenth : Q := round (1 # 10).

End Double.

(** ** Chord matching *)

Definition CHORDS : list (string * string * list Z) :=
  [ ("Major", "", [4; 7]);
    ("Minor", "m", [3; 7]);
    ("Dim", "dim", [3; 6]);
    ("Aug", "aug", [4; 8]);
    ("Sus4", "sus4", [5; 7]);
    ("Sus2", "sus2", [2; 7]);
    ("5", "5", [7]);
    ("Maj7", "maj7", [4; 7; 11]);
    ("7", "7", [4; 7; 10]);
    ("m7", "m7", [3; 7; 10]);
    ("m(maj7)", "m(maj7)", [3; 7; 11]);
    ("dim7", "dim7", [3; 6; 9]);
    ("ø7", "ø7", [3; 6; 10]);
    ("aug7", "aug7", [4; 8; 10]);
    ("6", "6", [4; 7; 9]);
    ("m6", "m6", [3; 7; 9]);
    ("add9", "add9", [2; 4; 7]);
    ("madd9", "madd9", [2; 3; 7]);
    ("9", "9", [4; 7; 10; 2]);
    ("m9", "m9", [3; 7; 10; 2]);
    ("maj9", "maj9", [4; 7; 11; 2]);
    ("11", "11", [4; 7; 10; 2; 5]);
    ("13", "13", [4; 7; 10; 2; 9]) ]%string%Z.

(** The object built at line 100; [root] is [None] when [NOTE_NAMES[root]]
    is [undefined], which string concatenation prints as "undefined". *)
Record Chord := mkChord {
  root : option string;
  rootPc : Z;
  name : string;
  abbrev : string;
  full : string
}.

Definition strOf (s : option string) : string :=
  match s with Some x => x | None => "undefined"%string end.

Definition chordAt (root : Z) (name abbrev : string) : Chord :=
  mkChord (noteAt root) root name abbrev (strOf (noteAt root) ++ abbrev)%string.

(** The intervals of the other notes above [root = pcs[i]].  The
    difference [p - root] is exact for integers below [2^53] in magnitude,
    as pitch classes are. *)
Definition intervalsOf (pcs : list Z) (i : nat) : list Z :=
  let root := nth i pcs 0%Z in
  JS.sortNum
    (List.filter (fun x => (0 <? x)%Z)
       (map (fun p => JS.rem (JS.rem (p - root) 12 + 12) 12) (JS.dropIndex i pcs))).

Definition matchCount (template intervals : list Z) : nat :=
  length (List.filter (JS.includes intervals) template).

(** Line 96: [matches / template.length - (intervals.length - matches) * 0.1],
    each operation a double operation.  For an empty template the code's
    quotient [0 / 0] is [NaN], which no comparison selects; here it is [0]
    and the score is not positive, which no comparison selects either. *)
Definition chordScore (template intervals : list Z) : Q :=
  let matches := matchCount template intervals in
  Double.sub
    (Double.div (inject_Z (Z.of_nat matches)) (inject_Z (Z.of_nat (length template))))
    (Double.mul (inject_Z (Z.of_nat (length intervals) - Z.of_nat matches))
       Double.tenth).

(** The running pair [best], [bestScore]. *)
Definition Best : Type := option Chord * Q.

(** One pass of the body of the inner loop. *)
Definition tryTemplate (root : Z) (intervals : list Z)
    (b : Best) (entry : string * string * list Z) : Best :=
  let '(name, abbrev, template) := entry in
  let score := chordScore template intervals in
  if JS.gtb score (snd b) then (Some (chordAt root name abbrev), score) else b.

(** One pass of the body of the outer loop. *)
Definition tryRoot (pcs : list Z) (b : Best) (i : nat) : Best :=
  fold_left (tryTemplate (nth i pcs 0%Z) (intervalsOf pcs i)) CHORDS b.

(** [matchChord]; the argument [None] is [null] or [undefined]. *)
Definition matchChord (pitchClasses : option (list Z)) : option Chord :=
  match pitchClasses with
  | None => None
  | Some pitchClasses =>
      if (length pitchClasses <? 2)%nat then None
      else
        let pcs := canon pitchClasses in
        if (length pcs <? 2)%nat then None
        else fst (fold_left (tryRoot pcs) (seq 0 (length pcs)) (None, 1 # 2))
  end.

(** ** The detector *)

Local Open Scope Q_scope.

(** [Math.log], [Math.log2] and [Math.sqrt]. *)
Class JSMath := {
  Math_log : Q -> Q;
  Math_log2 : Q -> Q;
  Math_sqrt : Q -> Q
}.

Record Options := {
  opt_fftSize : option nat;
  opt_binCount : option nat;
  opt_stabilityFrames : option nat
}.

Record Config := {
  fftSize : nat;
  binCount : nat;
  stabilityFrames : nat;
  maxPeaks : nat;
  maxFundamentals : nat;
  numHarmonics : nat
}.

(** [o || d] for an optional count: absent and [0] both give [d]. *)
Definition orDefault (o : option nat) (d : nat) : nat :=
  match o with
  | Some (S n) => S n
  | _ => d
  end.

Definition mkConfig (opts : Options) : Config :=
  {| fftSize := orDefault (opt_fftSize opts) 16384%nat;
     binCount := orDefault (opt_binCount opts) 500%nat;
     stabilityFrames := orDefault (opt_stabilityFrames opts) 4%nat;
     maxPeaks := 64%nat;
     maxFundamentals := 8%nat;
     numHarmonics := 6%nat |}.

(** What the callbacks receive, in call order. *)
Record UpdateData := {
  u_spectrum : list Q;
  u_peakBins : list Q;
  u_peakEnergies : list Q;
  u_peakCount : nat;
  u_fundMidis : list Q;
  u_fundCount : nat;
  u_pitchClasses : list Z;
  u_stable : bool;
  u_chord : option Chord;
  u_maxEnergy : Q;
  u_threshold : Q
}.

Inductive Event :=
  | OnChord (c : Chord)
  | OnUpdate (d : UpdateData).

(** The locals captured by [loop]. *)
Record Detector := {
  hzPerBin : Q;
  spectrum : list Q;
  noiseFloor : Q;
  peakBins : list Q;
  peakEnergies : list Q;
  fundMidis : list Q;
  peakCount : nat;
  fundCount : nat;
  history : list string;
  stable : bool;
  lastChord : option Chord;
  running : bool;
  paused : bool
}.

(** The state [createPolyphon] and [start] set up: zeroed typed arrays, an
    empty history, no chord. *)
Definition initDetector (cfg : Config) (hz : Q) : Detector :=
  {| hzPerBin := hz;
     spectrum := replicate (binCount cfg) 0%Q;
     noiseFloor := 0;
     peakBins := replicate (maxPeaks cfg) 0%Q;
     peakEnergies := replicate (maxPeaks cfg) 0%Q;
     fundMidis := replicate (maxFundamentals cfg) 0%Q;
     peakCount := 0%nat;
     fundCount := 0%nat;
     history := [];
     stable := false;
     lastChord := None;
     running := true;
     paused := false |}.

(** *** Reading the frame and the noise floor *)

(** [raw[i]] as a number; the analyser's buffer is a [Uint8Array] of
    [fftSize / 2] samples, and a read past its end, which gives [undefined]
    in JavaScript, is outside the model: the properties about the samples of
    a frame take a frame of at least [binCount] samples. *)
Definition rawAt (raw : list N) (i : nat) : Q := inject_Z (Z.of_N (nth i raw 0%N)).

(** Lines 195-199: copy the frame into [spectrum] and find its maximum. *)
Definition readStep (raw : list N) (acc : list Q * Q) (i : nat) : list Q * Q :=
  let '(spec, maxE) := acc in
  (<[i := rawAt raw i]> spec, if JS.gtb (rawAt raw i) maxE then rawAt raw i else maxE).

Definition readFrame (cfg : Config) (spec : list Q) (raw : list N) : list Q * Q :=
  fold_left (readStep raw) (seq 0 (binCount cfg)) (spec, 0).

(** The indices [0, 10, 20, ...] below [n]. *)
Definition stride10 (n : nat) : list nat :=
  map (fun k => (10 * k)%nat) (seq 0 ((n + 9) / 10)%nat).

(** Lines 202-205: [sum] and [cnt] over the sampled quiet bins. *)
Definition floorStep (spec : list Q) (maxE : Q) (acc : Q * nat) (i : nat) : Q * nat :=
  let '(sum, cnt) := acc in
  if JS.ltb (nth i spec 0) (maxE * (3 # 10)) then (sum + nth i spec 0, S cnt) else acc.

Definition floorSample (cfg : Config) (spec : list Q) (maxE : Q) : Q * nat :=
  fold_left (floorStep spec maxE) (stride10 (binCount cfg)) (0, 0%nat).

(** [cnt ? sum / cnt : 0]. *)
Definition floorEstimate (sc : Q * nat) : Q :=
  match snd sc with
  | O => 0
  | S _ => fst sc / inject_Z (Z.of_nat (snd sc))
  end.

(** Line 206. *)
Definition updateNoiseFloor (nf : Q) (sc : Q * nat) : Q :=
  nf * (95 # 100) + floorEstimate sc * (5 # 100).

(** Line 207. *)
Definition thresholdOf (nf : Q) : Q := JS.min 255 (nf * 3).

(** *** Peak extraction *)

Record Peaks := {
  pk_bins : list Q;
  pk_energies : list Q;
  pk_count : nat
}.

Definition isPeak (spec : list Q) (threshold : Q) (i : nat) : bool :=
  let cur := nth i spec 0 in
  let prev := nth (i - 1)%nat spec 0 in
  let next := nth (i + 1)%nat spec 0 in
  JS.gtb cur threshold && JS.gtb cur prev && JS.gtb cur next.

(** Lines 214-215: the parabolic offset. *)
Definition peakOffset (spec : list Q) (i : nat) : Q :=
  let cur := nth i spec 0 in
  let prev := nth (i - 1)%nat spec 0 in
  let next := nth (i + 1)%nat spec 0 in
  let d := 2 * (prev - 2 * cur + next) in
  if JS.gtb (Qabs d) (1 # 10000)
  then JS.max (- (1 # 2)) (JS.min (1 # 2) ((prev - next) / d))
  else 0.

(** Lines 212-219: the body of the scan at bin [i].  A typed array ignores a
    store past its end, as the list update does. *)
Definition peakStep (spec : list Q) (threshold : Q) (i : nat) (p : Peaks) : Peaks :=
  if isPeak spec threshold i then
    {| pk_bins := <[pk_count p := inject_Z (Z.of_nat i) + peakOffset spec i]> (pk_bins p);
       pk_energies := <[pk_count p := nth i spec 0]> (pk_energies p);
       pk_count := S (pk_count p) |}
  else p.

(** Line 211: the scan from bin [i] with [n] bins left below [binCount - 1];
    it stops early when the buffers are full. *)
Fixpoint peakScan (spec : list Q) (threshold : Q) (maxPeaks : nat)
    (n i : nat) (p : Peaks) : Peaks :=
  match n with
  | O => p
  | S n' =>
      if (pk_count p <? maxPeaks)%nat
      then peakScan spec threshold maxPeaks n' (S i) (peakStep spec threshold i p)
      else p
  end.

(** Lines 210-220; [bins] and [energies] are the reused buffers. *)
Definition findPeaks (cfg : Config) (spec : list Q) (threshold : Q)
    (bins energies : list Q) : Peaks :=
  peakScan spec threshold (maxPeaks cfg) (binCount cfg - 1 - 1)%nat 1%nat
    {| pk_bins := bins; pk_energies := energies; pk_count := 0%nat |}.

(** *** The harmonic sieve *)

Record Funds := {
  fd_midis : list Q;
  fd_count : nat
}.

Section Sieve.
Context {M : JSMath}.

Definition LOG2 : Q := Math_log 2.

Definition hzToMidi (hz : Q) : Q :=
  if JS.gtb hz 0 then 12 * Math_log (hz / C0_HZ) / LOG2 else - (1).

Definition binToMidi (bin hz : Q) : Q := hzToMidi (bin * hz).

(** [Math.abs(x - exp) < 0.5]. *)
Definition near (x exp : Q) : bool := JS.ltb (Qabs (x - exp)) (1 # 2).

(** [m + 12 * Math.log2(n)]. *)
Definition harmonicOf (m : Q) (n : nat) : Q :=
  m + 12 * Math_log2 (inject_Z (Z.of_nat n)).

(** The harmonic orders [2 .. numHarmonics]. *)
Definition orders (cfg : Config) : list nat := seq 2 (numHarmonics cfg - 1).

(** Lines 237-239: the first peak other than [i] near [exp], if any. *)
Definition firstOther (peakMidis : list Q) (i : nat) (exp : Q) : option nat :=
  List.find (fun j => negb (j =? i)%nat && near (nth j peakMidis 0) exp)
    (seq 0 (length peakMidis)).

(** Lines 236-239: the harmonic of order [n] adds to [s] and [h]. *)
Definition supportStep (peakMidis peakEnergies : list Q) (i : nat)
    (acc : Q * nat) (n : nat) : Q * nat :=
  match firstOther peakMidis i (harmonicOf (nth i peakMidis 0) n) with
  | Some j => (fst acc + nth j peakEnergies 0 / inject_Z (Z.of_nat n), S (snd acc))
  | None => acc
  end.

(** Lines 232-241: the score of peak [i] before normalisation. *)
Definition rawScore (cfg : Config) (peakMidis peakEnergies : list Q) (i : nat) : Q :=
  let m := nth i peakMidis 0 in
  if JS.ltb m 24 || JS.gtb m 96 then 0
  else
    let sh := fold_left (supportStep peakMidis peakEnergies i) (orders cfg)
                (nth i peakEnergies 0, 1%nat) in
    fst sh * Math_sqrt (inject_Z (Z.of_nat (snd sh))).

Definition rawScores (cfg : Config) (peakMidis peakEnergies : list Q) : list Q :=
  map (rawScore cfg peakMidis peakEnergies) (seq 0 (length peakMidis)).

(** Lines 244-246. *)
Definition maxScore (scores : list Q) : Q :=
  fold_left (fun maxS x => if JS.gtb x maxS then x else maxS) scores 0.

Definition normalise (scores : list Q) : list Q :=
  let maxS := maxScore scores in
  if JS.gtb maxS 0 then map (fun x => x / maxS) scores else scores.

(** Lines 249-250: the running pair [bi], [bs]; [None] is [-1].  The
    scores are exact here; in the code they are [Float32Array] entries
    compared with the double [0.3], so a score that is exactly 3/10 here
    can compare above [0.3] there. *)
Definition pickStep (scores : list Q) (used : list bool)
    (acc : option nat * Q) (i : nat) : option nat * Q :=
  if negb (nth i used false) && JS.gtb (nth i scores 0) (snd acc)
  then (Some i, nth i scores 0) else acc.

Definition pickBest (scores : list Q) (used : list bool) : option nat :=
  fst (fold_left (pickStep scores used) (seq 0 (length scores)) (None, 3 # 10)).

(** Lines 255-258: mark the peaks near a harmonic of [fm]. *)
Definition markNear (peakMidis : list Q) (exp : Q) (used : list bool) : list bool :=
  fold_left (fun u j => if near (nth j peakMidis 0) exp then <[j := true]> u else u)
    (seq 0 (length peakMidis)) used.

Definition markHarmonics (cfg : Config) (peakMidis : list Q) (fm : Q)
    (used : list bool) : list bool :=
  fold_left (fun u n => markNear peakMidis (harmonicOf fm n) u) (orders cfg) used.

(** Lines 248-259: the selection loop with [n] passes left. *)
Fixpoint selectLoop (cfg : Config) (peakMidis scores : list Q) (n : nat)
    (used : list bool) (f : Funds) : Funds :=
  match n with
  | O => f
  | S n' =>
      if (fd_count f <? maxFundamentals cfg)%nat then
        match pickBest scores used with
        | None => f
        | Some bi =>
            let fm := nth bi peakMidis 0 in
            selectLoop cfg peakMidis scores n'
              (markHarmonics cfg peakMidis fm (<[bi := true]> used))
              {| fd_midis := <[fd_count f := fm]> (fd_midis f);
                 fd_count := S (fd_count f) |}
        end
      else f
  end.

(** Lines 226-259 on the MIDI values and energies of the peaks. *)
Definition sieve (cfg : Config) (peakMidis peakEnergies fundBuf : list Q) : Funds :=
  selectLoop cfg peakMidis (normalise (rawScores cfg peakMidis peakEnergies))
    (maxFundamentals cfg) (replicate (length peakMidis) false)
    {| fd_midis := fundBuf; fd_count := 0%nat |}.

(** Lines 223-260. *)
Definition findFundamentals (cfg : Config) (hz : Q) (p : Peaks) (fundBuf : list Q) : Funds :=
  if (0 <? pk_count p)%nat then
    sieve cfg (map (fun b => binToMidi b hz) (take (pk_count p) (pk_bins p)))
      (pk_energies p) fundBuf
  else {| fd_midis := fundBuf; fd_count := 0%nat |}.

End Sieve.

(** *** Pitch classes, stability and the chord event *)

(** Lines 263-265. *)
Definition pitchClassesOf (f : Funds) : list Z :=
  canon (map midiToPitchClass (take (fd_count f) (fd_midis f))).

(** The decimal text of an integer, and [l.join(',')]. *)
Definition showZ (z : Z) : string := NilEmpty.string_of_int (Z.to_int z).

Fixpoint joinNums (l : list Z) : string :=
  match l with
  | [] => ""%string
  | [x] => showZ x
  | x :: r => (showZ x ++ "," ++ joinNums r)%string
  end.

(** Lines 268-269: [unshift], then [pop] when the window is too long. *)
Definition pushHistory (frames : nat) (history : list string) (key : string) : list string :=
  let h := key :: history in
  if (frames <? length h)%nat then removelast h else h.

(** Line 270. *)
Definition isStable (frames : nat) (history : list string) : bool :=
  (frames <=? length history)%nat
  && match history with
     | [] => true
     | h0 :: _ => forallb (fun h => String.eqb h h0) history
     end.

(** [chord.full !== lastChord?.full]. *)
Definition fullDiffers (chord : Chord) (lastChord : option Chord) : bool :=
  match lastChord with
  | Some c => negb (String.eqb (full chord) (full c))
  | None => true
  end.

(** Lines 273-279: the new [lastChord] and the [onChord] calls. *)
Definition chordStage (stable : bool) (uniquePcs : list Z) (lastChord : option Chord)
    : option Chord * list Event :=
  if stable && (2 <=? length uniquePcs)%nat then
    match matchChord (Some uniquePcs) with
    | Some chord =>
        if fullDiffers chord lastChord then (Some chord, [OnChord chord])
        else (lastChord, [])
    | None => (lastChord, [])
    end
  else (lastChord, []).

(** *** One frame *)

Section Loop.
Context {M : JSMath}.

(** [loop] on the frame [raw] the analyser delivers; the callbacks'
    calls are returned in order. *)
Definition loop (cfg : Config) (d : Detector) (raw : list N) : Detector * list Event :=
  if negb (running d) || paused d then (d, [])
  else
    let '(spec, maxE) := readFrame cfg (spectrum d) raw in
    let nf := updateNoiseFloor (noiseFloor d) (floorSample cfg spec maxE) in
    let threshold := thresholdOf nf in
    let pk := findPeaks cfg spec threshold (peakBins d) (peakEnergies d) in
    let fd := findFundamentals cfg (hzPerBin d) pk (fundMidis d) in
    let uniquePcs := pitchClassesOf fd in
    let hist := pushHistory (stabilityFrames cfg) (history d) (joinNums uniquePcs) in
    let st := isStable (stabilityFrames cfg) hist in
    let '(last, chordEvents) := chordStage st uniquePcs (lastChord d) in
    ({| hzPerBin := hzPerBin d;
        spectrum := spec;
        noiseFloor := nf;
        peakBins := pk_bins pk;
        peakEnergies := pk_energies pk;
        fundMidis := fd_midis fd;
        peakCount := pk_count pk;
        fundCount := fd_count fd;
        history := hist;
        stable := st;
        lastChord := last;
        running := running d;
        paused := paused d |},
     chordEvents ++
     [OnUpdate {| u_spectrum := spec;
                  u_peakBins := pk_bins pk;
                  u_peakEnergies := pk_energies pk;
                  u_peakCount := pk_count pk;
                  u_fundMidis := fd_midis fd;
                  u_fundCount := fd_count fd;
                  u_pitchClasses := uniquePcs;
                  u_stable := st;
                  u_chord := last;
                  u_maxEnergy := maxE;
                  u_threshold := threshold |}]).

(** The detector over a sequence of frames, with the trace of calls. *)
Fixpoint run (cfg : Config) (d : Detector) (frames : list (list N)) : Detector * list Event :=
  match frames with
  | [] => (d, [])
  | raw :: rest =>
      let '(d1, e1) := loop cfg d raw in
      let '(d2, e2) := run cfg d1 rest in
      (d2, e1 ++ e2)
  end.

End Loop.

(** ** The remaining exports and the controls *)

(** [midiToNote]; an absent [withOctave] is [false].  The result is what
    the function returns, [None] standing for [undefined].  The octave
    [Math.floor(m / 12) - 1] is a double computation; the integer quotient
    below is its value, and [showZ] its text, for [m] below [2^53]. *)
Definition midiToNote (midi : Q) (withOctave : bool) : option string :=
  let m := JS.round midi in
  if (m <? 0)%Z then Some ""%string
  else
    let note := noteAt (JS.rem m 12) in
    if withOctave then Some (strOf note ++ showZ (m / 12 - 1)%Z)%string
    else note.

(** Line 43, exact for integers below [2^53] in magnitude. *)
Definition hueOf (pc : Z) : Z := JS.rem (360 - pc * 30 + 60) 360.

(** A default parameter: the default is used when the argument is absent. *)
Definition orNum (o : option Z) (d : Z) : Z :=
  match o with
  | Some x => x
  | None => d
  end.

(** [pitchClassToColor] on integer arguments. *)
Definition pitchClassToColor (pc : Z) (s l a : option Z) : string :=
  ("hsla(" ++ showZ (hueOf pc) ++ "," ++ showZ (orNum s 80) ++ "%,"
   ++ showZ (orNum l 50) ++ "%," ++ showZ (orNum a 1) ++ ")")%string.

Definition withRunning (d : Detector) (b : bool) : Detector :=
  {| hzPerBin := hzPerBin d; spectrum := spectrum d; noiseFloor := noiseFloor d;
     peakBins := peakBins d; peakEnergies := peakEnergies d;
     fundMidis := fundMidis d; peakCount := peakCount d; fundCount := fundCount d;
     history := history d; stable := stable d; lastChord := lastChord d;
     running := b; paused := paused d |}.

Definition withPaused (d : Detector) (b : bool) : Detector :=
  {| hzPerBin := hzPerBin d; spectrum := spectrum d; noiseFloor := noiseFloor d;
     peakBins := peakBins d; peakEnergies := peakEnergies d;
     fundMidis := fundMidis d; peakCount := peakCount d; fundCount := fundCount d;
     history := history d; stable := stable d; lastChord := lastChord d;
     running := running d; paused := b |}.

(** [stop], as far as the detector's own state goes. *)
Definition stop (d : Detector) : Detector := withRunning d false.

(** What happens to a detector: the scheduled call of [loop] on the frame
    the analyser holds, a call of [togglePause], a call of [stop]. *)
Inductive Action :=
  | Frame (raw : list N)
  | TogglePause (raw : list N)
  | Stop.

Section Controls.
Context {M : JSMath}.

(** [togglePause]; [raw] is the frame [loop] reads if it is called.  The
    third component is the value returned. *)
Definition togglePause (cfg : Config) (d : Detector) (raw : list N)
    : Detector * list Event * bool :=
  let d1 := withPaused d (negb (paused d)) in
  if negb (paused d1) && running d1
  then let '(d2, ev) := loop cfg d1 raw in (d2, ev, paused d2)
  else (d1, [], paused d1).

Definition act (cfg : Config) (d : Detector) (a : Action) : Detector * list Event :=
  match a with
  | Frame raw => loop cfg d raw
  | TogglePause raw => (togglePause cfg d raw).1
  | Stop => (stop d, [])
  end.

Fixpoint runActions (cfg : Config) (d : Detector) (actions : list Action)
    : Detector * list Event :=
  match actions with
  | [] => (d, [])
  | a :: rest =>
      let '(d1, e1) := act cfg d a in
      let '(d2, e2) := runActions cfg d1 rest in
      (d2, e1 ++ e2)
  end.

End Controls.

(** ** A fixed-point rendering of the Math functions

    Concrete runs of the detector need values for [Math.log], [Math.log2]
    and [Math.sqrt]; this instance computes them to 32 fractional bits, in
    lowest terms. *)

Module FixedMath.

Definition bits : positive := 32.
Definition scale : positive := Pos.pow 2 bits.

(** [x] cut to a multiple of [2^-32]. *)
Definition cut (x : Q) : Q := Qfloor (x * inject_Z (Zpos scale)) # scale.

(** The binary digits of [log2 y] for [1 <= y < 2], by repeated squaring. *)
Fixpoint fracLog2 (n : nat) (y w acc : Q) : Q :=
  match n with
  | O => acc
  | S n' =>
      let y2 := cut (y * y) in
      if Qle_bool 2 y2 then fracLog2 n' (Qred (y2 / 2)) (Qred (w / 2)) (Qred (acc + w / 2))
      else fracLog2 n' y2 (Qred (w / 2)) acc
  end.

Definition pow2 (e : Z) : Q :=
  match e with
  | Z0 => 1
  | Zpos p => inject_Z (Zpos (Pos.pow 2 p))
  | Zneg p => 1 # Pos.pow 2 p
  end.

Definition log2 (x : Q) : Q :=
  if Qle_bool x 0 then 0
  else
    let e0 := (Z.log2 (Qnum x) - Z.log2 (Zpos (Qden x)))%Z in
    let e := if Qle_bool (pow2 e0) x then e0 else (e0 - 1)%Z in
    Qred (inject_Z e + fracLog2 (Pos.to_nat bits) (Qred (x / pow2 e)) 1 0).

Definition LN2 : Q := 6931471805599453 # 10000000000000000.

Definition log (x : Q) : Q := Qred (log2 x * LN2).

Definition sqrt (x : Q) : Q :=
  Qred (inject_Z (Z.sqrt (Qfloor (x * inject_Z (Zpos (scale * scale))))) / inject_Z (Zpos scale)).

#[export] Instance math : JSMath :=
  {| Math_log := log; Math_log2 := log2; Math_sqrt := sqrt |}.

End FixedMath.

(** * Part II: specification vocabulary *)

(** ** Chord candidates *)

(** The pair for root index [i] and catalog entry [e], with its score. *)
Definition candidate (pcs : list Z) (i : nat) (e : string * string * list Z) : Chord * Q :=
  (chordAt (nth i pcs 0%Z) e.1.1 e.1.2, chordScore e.2 (intervalsOf pcs i)).

(** All pairs, roots ascending and the catalog in order under each root. *)
Definition candidates (pcs : list Z) : list (Chord * Q) :=
  flat_map (fun i => map (candidate pcs i) CHORDS) (seq 0 (length pcs)).

(** Keep the running best unless the candidate scores strictly higher. *)
Definition better {A} (b : option A * Q) (c : A * Q) : option A * Q :=
  if JS.gtb c.2 b.2 then (Some c.1, c.2) else b.

(** What the running pair [b] knows after the candidates [cs], starting
    from no candidate and the baseline [s0]. *)
Definition bestInv {A} (s0 : Q) (cs : list (A * Q)) (b : option A * Q) : Prop :=
  (forall c, c ∈ cs -> (c.2 <= b.2)%Q) /\
  match b.1 with
  | None => b.2 = s0
  | Some a =>
      exists k, cs !! k = Some (a, b.2) /\ (s0 < b.2)%Q /\
        forall j c, (j < k)%nat -> cs !! j = Some c -> (c.2 < b.2)%Q
  end.

(** ** The scoring rule *)

(** The pitch classes other than [root]. *)
Definition others (pcs : list Z) (root : Z) : list Z :=
  List.filter (fun pc => negb (pc =? root)%Z) pcs.

(** The interval set above [root]: [((pc - root) mod 12 + 12) mod 12] for
    every other pitch class, zero intervals dropped. *)
Definition intervalSet (pcs : list Z) (root : Z) : list Z :=
  List.filter (fun x => negb (x =? 0)%Z)
    (map (fun pc => (((pc - root) mod 12 + 12) mod 12)%Z) (others pcs root)).

(** The number of intervals of [template] that are in [I]. *)
Definition common (template I : list Z) : nat :=
  length (filter (fun t => t ∈ I) template).

(** [matches / |template| - (|I| - matches) * 0.1] as doubles compute it:
    the quotient, the product and the difference each rounded. *)
Definition templateScore (template I : list Z) : Q :=
  let matches := common template I in
  Double.round
    (Double.round (inject_Z (Z.of_nat matches) / inject_Z (Z.of_nat (length template)))
     - Double.round (inject_Z (Z.of_nat (length I) - Z.of_nat matches)
                     * Double.round (1 # 10))).

(** The same formula in exact arithmetic. *)
Definition exactScore (template I : list Z) : Q :=
  let matches := common template I in
  inject_Z (Z.of_nat matches) / inject_Z (Z.of_nat (length template))
  - inject_Z (Z.of_nat (length I) - Z.of_nat matches) * (1 # 10).

(** Every (root, template) pair with its score: roots in the order of
    [pcs], the catalog in order under each root. *)
Definition scoredPairs (pcs : list Z) : list (Chord * Q) :=
  flat_map (fun root =>
      map (fun e : string * string * list Z =>
             (chordAt root e.1.1 e.1.2, templateScore e.2 (intervalSet pcs root)))
        CHORDS)
    pcs.

(** The first pair of [cs] whose score is above [s0], strictly above
    every earlier score and not below any later one. *)
Definition firstBest {A} (s0 : Q) (cs : list (A * Q)) (a : A) : Prop :=
  exists k s, cs !! k = Some (a, s) /\ s0 < s /\
    (forall j c, (j < k)%nat -> cs !! j = Some c -> c.2 < s) /\
    (forall c, c ∈ cs -> c.2 <= s).

(** ** The scores on binary64 numbers *)

(** The rational a finite binary64 number denotes. *)
Definition floatQ (f : float) : option Q :=
  match Prim2SF f with
  | S754_zero _ => Some 0
  | S754_finite s m e => Some ((if s then - (1) else 1) * inject_Z (Zpos m) * 2 ^ e)
  | _ => None
  end.

Fixpoint floatOfNat (n : nat) : float :=
  match n with
  | O => 0%float
  | S k => (floatOfNat k + 1)%float
  end.

(** Line 96 on the machine's binary64 numbers, [0x1.999999999999ap-4]
    being the literal [0.1]; for [matches <= n]. *)
Definition scoreBinary64 (matches len n : nat) : float :=
  (floatOfNat matches / floatOfNat len
   - floatOfNat (n - matches) * 0x1.999999999999ap-4)%float.

(** ** A table of scores, for evaluation *)

(** The score as a function of the three counts it depends on. *)
Definition scoreOf (matches len n : nat) : Q :=
  Double.sub
    (Double.div (inject_Z (Z.of_nat matches)) (inject_Z (Z.of_nat len)))
    (Double.mul (inject_Z (Z.of_nat n - Z.of_nat matches)) Double.tenth).

Definition scoreTable : list (list (list Q)) :=
  Eval vm_compute in
    map (fun len => map (fun m => map (fun n => scoreOf m len n) (seq 0 13)) (seq 0 6))
      (seq 0 6).

Definition tableScore (matches len n : nat) : Q :=
  nth n (nth matches (nth len scoreTable []) []) 0.

Definition candidatesT (pcs : list Z) : list (Chord * Q) :=
  flat_map (fun i =>
      map (fun e : string * string * list Z =>
             (chordAt (nth i pcs 0%Z) e.1.1 e.1.2,
              tableScore (matchCount e.2 (intervalsOf pcs i)) (length e.2)
                (length (intervalsOf pcs i))))
        CHORDS)
    (seq 0 (length pcs)).

(** [matchChord] with the scores looked up. *)
Definition matchChordT (l : list Z) : option Chord :=
  if (length (canon l) <? 2)%nat then None
  else (fold_left better (candidatesT (canon l)) (None, 1 # 2)).1.

(** ** The stability window over a sequence of frames *)




Fixpoint hasComma (s : string) : bool :=
  match s with
  | EmptyString => false
  | String c r => Ascii.eqb c "," || hasComma r
  end.

Definition C_major : Chord := mkChord (Some "C"%string) 0 "Major" "" "C".

(** ** Traces *)

(** The chords passed to [onChord] and the data passed to [onUpdate]. *)
Definition chordOf (e : Event) : option Chord :=
  match e with OnChord c => Some c | OnUpdate _ => None end.

Definition updateOf (e : Event) : option UpdateData :=
  match e with OnUpdate d => Some d | OnChord _ => None end.

Definition emitted (es : list Event) : list Chord := omap chordOf es.

Definition updates (es : list Event) : list UpdateData := omap updateOf es.

(** The canonical pitch-class sets of the frames of a trace. *)
Definition pitchSets (es : list Event) : list (list Z) :=
  map u_pitchClasses (updates es).

(** [onChord] is edge-triggered along [cs] when no chord repeats the full
    name of the one before it, [prev] being the full name before [cs]. *)
Fixpoint edgeTriggered (prev : option string) (cs : list Chord) : Prop :=
  match cs with
  | [] => True
  | c :: r => prev <> Some (full c) /\ edgeTriggered (Some (full c)) r
  end.

(** The chord emitted last, [prev] when none was. *)
Definition lastEmitted (prev : option Chord) (cs : list Chord) : option Chord :=
  match last cs with
  | Some c => Some c
  | None => prev
  end.

(** A frame of [n] bins, silent except for the given samples. *)
Definition spikes (n : nat) (samples : list (nat * N)) : list N :=
  foldr (fun p acc => <[p.1 := p.2]> acc) (replicate n 0%N) samples.

(** ** Concrete sessions *)

(** The default options, and the options with a one-frame window. *)
Definition defaultOptions : Options :=
  {| opt_fftSize := None; opt_binCount := None; opt_stabilityFrames := None |}.

Definition quickOptions : Options :=
  {| opt_fftSize := None; opt_binCount := None; opt_stabilityFrames := Some 1%nat |}.

(** [hzPerBin] at a sample rate of 48 kHz with the default [fftSize]. *)
Definition hz48k : Q := 48000 / 16384.

(** The length of the analyser's buffer, [fftSize / 2]. *)
Definition rawLength : nat := 8192.

(** Three equal partials near C4, E4 and G4. *)
Definition triadFrame : list N :=
  spikes rawLength [(89%nat, 200%N); (113%nat, 200%N); (134%nat, 200%N)].

(** A weak partial at bin 50 with harmonics at bins 100, 150 and 200, the
    second harmonic being the strongest. *)
Definition harmonicFrame : list N :=
  spikes rawLength [(50%nat, 10%N); (100%nat, 200%N); (150%nat, 10%N); (200%nat, 10%N)].

(** ** Peaks, as the specification words them *)

(** Bin [i] is a strict local maximum above the threshold. *)
Definition IsPeak (spec : list Q) (threshold : Q) (i : nat) : Prop :=
  (threshold < nth i spec 0)%Q /\
  (nth (i - 1) spec 0 < nth i spec 0)%Q /\
  (nth (i + 1) spec 0 < nth i spec 0)%Q.

#[global] Instance Qlt_decision (x y : Q) : Decision (x < y)%Q.
Proof.
  destruct (Qlt_le_dec x y) as [H|H]; [left; exact H | right; apply Qle_not_lt, H].
Defined.

#[global] Instance IsPeak_decision spec threshold i : Decision (IsPeak spec threshold i).
Proof. unfold IsPeak. apply _. Defined.




(** ** Quiet frames *)


(** The frame covers the bins the detector reads and is all zero there. *)
Definition silentFrame (cfg : Config) (raw : list N) : Prop :=
  (binCount cfg <= length raw)%nat /\
  forall i, (i < binCount cfg)%nat -> nth i raw 0%N = 0%N.

(** A silent frame of the analyser's length. *)
Definition silence : list N := replicate rawLength 0%N.


(** ** The sieve's candidates *)

(** The unused peaks with their scores, in index order. *)
Definition unusedScores (scores : list Q) (used : list bool) : list (nat * Q) :=
  map (fun i => (i, nth i scores 0))
    (List.filter (fun i => negb (nth i used false)) (seq 0 (length scores))).

Section Overtones.
Context {M : JSMath}.

(** No fundamental lies within half a semitone of a harmonic, of order 2
    to [numHarmonics], of a fundamental selected before it. *)
Fixpoint noOvertones (cfg : Config) (funds : list Q) : Prop :=
  match funds with
  | [] => True
  | f :: r =>
      (forall g n, In g r -> In n (orders cfg) -> near g (harmonicOf f n) = false)
      /\ noOvertones cfg r
  end.

(** The peaks of a fundamental of MIDI value [m] with its exact second,
    third and fourth harmonics. *)
Definition harmonicSeries (m : Q) : list Q :=
  [m; harmonicOf m 2; harmonicOf m 3; harmonicOf m 4].

End Overtones.

(** ** Text of numbers *)

(** Every character is a decimal digit or a minus sign. *)
Fixpoint numeric (s : string) : bool :=
  match s with
  | EmptyString => true
  | String c r =>
      (Ascii.eqb c "-" || (48 <=? nat_of_ascii c)%nat && (nat_of_ascii c <=? 57)%nat)
      && numeric r
  end.

(** ** Buffers *)

(** The reused buffers have their capacities and the counts fit them. *)
Definition wfDetector (cfg : Config) (d : Detector) : Prop :=
  length (spectrum d) = binCount cfg /\
  length (peakBins d) = maxPeaks cfg /\
  length (peakEnergies d) = maxPeaks cfg /\
  length (fundMidis d) = maxFundamentals cfg /\
  (peakCount d <= maxPeaks cfg)%nat /\
  (fundCount d <= maxFundamentals cfg)%nat /\
  (fundCount d <= peakCount d)%nat.

(** ** Chords by root and template *)

(** The pitch classes of the chord on root [r] with the intervals
    [template]. *)
Definition chordNotes (r : Z) (template : list Z) : list Z :=
  r :: map (fun t => ((r + t) mod 12)%Z) template.

(** The catalog entries whose pitch classes are also those of another
    entry on another root. *)
Definition sharedSets : list string :=
  ["Aug"; "Sus4"; "Sus2"; "m7"; "dim7"; "ø7"; "6"; "m6"]%string.

Definition optStringEqb (a b : option string) : bool :=
  match a, b with
  | Some x, Some y => String.eqb x y
  | None, None => true
  | _, _ => false
  end.

Definition Chord_eqb (a b : Chord) : bool :=
  optStringEqb (root a) (root b) && (rootPc a =? rootPc b)%Z
  && String.eqb (name a) (name b) && String.eqb (abbrev a) (abbrev b)
  && String.eqb (full a) (full b).

(** [matchChord] names the pitch classes [notes] as the chord [c]. *)
Definition namedAs (notes : list Z) (c : Chord) : bool :=
  match matchChordT notes with
  | Some c' => Chord_eqb c' c
  | None => false
  end.

(** The notes of entry [e] on root [r] are named as that chord. *)
Definition recognised (e : string * string * list Z) (r : Z) : bool :=
  namedAs (chordNotes r e.2) (chordAt r e.1.1 e.1.2).

(** ** Frames as the analyser delivers them *)

(** A frame of byte samples that covers the bins read. *)
Definition byteFrame (cfg : Config) (raw : list N) : Prop :=
  (binCount cfg <= length raw)%nat /\ Forall (fun x => (x <= 255)%N) raw.

Definition frameOf (a : Action) : option (list N) :=
  match a with
  | Frame raw | TogglePause raw => Some raw
  | Stop => None
  end.

Definition framesSatisfy (F : list N -> Prop) (actions : list Action) : Prop :=
  Forall (fun a => match frameOf a with Some raw => F raw | None => True end) actions.

(** The noise floor stays within 30% of the largest byte. *)
Definition floorBounded (d : Detector) : Prop :=
  0 <= noiseFloor d <= 153 # 2.

(** The window is never longer than [stabilityFrames], and the stable flag
    stands only over a full window of equal keys. *)
Definition windowInv (cfg : Config) (d : Detector) : Prop :=
  (length (history d) <= stabilityFrames cfg)%nat /\
  (stable d = true ->
     length (history d) = stabilityFrames cfg /\
     forall k, In k (history d) -> Some k = head (history d)).

(** A detector that has reported the chord [c]. *)
Definition heldDetector (cfg : Config) (c : Chord) : Detector :=
  {| hzPerBin := hz48k;
     spectrum := replicate (binCount cfg) 0;
     noiseFloor := 0;
     peakBins := replicate (maxPeaks cfg) 0;
     peakEnergies := replicate (maxPeaks cfg) 0;
     fundMidis := replicate (maxFundamentals cfg) 0;
     peakCount := 0%nat;
     fundCount := 0%nat;
     history := [];
     stable := false;
     lastChord := Some c;
     running := true;
     paused := false |}.

(** ** The chord carried by the updates *)

(** Along a trace every update carries the chord passed to [onChord] last
    before it, [prev] when there was none. *)
Fixpoint chordsTrack (prev : option Chord) (es : list Event) : Prop :=
  match es with
  | [] => True
  | OnChord c :: r => chordsTrack (Some c) r
  | OnUpdate u :: r => u_chord u = prev /\ chordsTrack prev r
  end.

(** The chord passed to [onChord] last in a trace, [prev] when none was. *)
Definition chordAfter (prev : option Chord) (es : list Event) : option Chord :=
  fold_left (fun p e => match e with OnChord c => Some c | OnUpdate _ => p end) es prev.

(** * Part III: properties *)

Local Close Scope Q_scope.

(** ** Comparisons *)

Lemma ltb_lt (x y : Q) : JS.ltb x y = true <-> (x < y)%Q.
Proof.
  unfold JS.ltb. rewrite negb_true_iff, <- not_true_iff_false, Qle_bool_iff.
  split; [apply Qnot_le_lt | apply Qlt_not_le].
Qed.

Lemma ltb_ge (x y : Q) : JS.ltb x y = false <-> (y <= x)%Q.
Proof. unfold JS.ltb. rewrite negb_false_iff. apply Qle_bool_iff. Qed.

Lemma gtb_lt (x y : Q) : JS.gtb x y = true <-> (y < x)%Q.
Proof. apply ltb_lt. Qed.

Lemma gtb_le (x y : Q) : JS.gtb x y = false <-> (x <= y)%Q.
Proof. apply ltb_ge. Qed.

(** ** Double arithmetic *)

Lemma pow2_pos (e : Z) : (0 < 2 ^ e)%Q.
Proof. apply Qpower_0_lt. reflexivity. Qed.

Lemma pow2_succ (e : Z) : (2 ^ (e + 1) == 2 * 2 ^ e)%Q.
Proof. rewrite Qpower_plus by discriminate. change (2 ^ 1)%Q with 2%Q. ring. Qed.

Lemma pow2_inject (a : Z) : (0 <= a)%Z -> (inject_Z (2 ^ a) == 2 ^ a)%Q.
Proof. intros Ha. apply (Zpower_Qpower 2 a Ha). Qed.

Lemma log2_Q (n : Z) :
  (0 < n)%Z -> (2 ^ Z.log2 n <= inject_Z n < 2 * 2 ^ Z.log2 n)%Q.
Proof.
  intros Hn. destruct (Z.log2_spec n Hn) as [Hlo Hhi].
  pose proof (Z.log2_nonneg n) as H0.
  rewrite <- pow2_succ, <- !pow2_inject by lia.
  rewrite <- Zle_Qle, <- Zlt_Qlt. replace (Z.log2 n + 1)%Z with (Z.succ (Z.log2 n)) by lia.
  split; assumption.
Qed.

Lemma binade_spec (x : Q) :
  (0 < x)%Q -> (2 ^ Double.binade x <= x < 2 ^ (Double.binade x + 1))%Q.
Proof.
  intros Hx. destruct x as [n d]. unfold Double.binade. cbn [Qnum Qden].
  assert (0 < n)%Z as Hn by (unfold Qlt in Hx; simpl in Hx; lia).
  set (a := Z.log2 n). set (b := Z.log2 (Z.pos d)).
  destruct (log2_Q n Hn) as [Ha1 Ha2]. fold a in Ha1, Ha2.
  destruct (log2_Q (Z.pos d) ltac:(lia)) as [Hb1 Hb2]. fold b in Hb1, Hb2.
  pose proof (pow2_pos a) as HA. pose proof (pow2_pos b) as HB.
  assert (n # d == inject_Z n / inject_Z (Z.pos d))%Q as Hnd by apply Qmake_Qdiv.
  assert (0 < inject_Z (Z.pos d))%Q as Hd.
  { change 0%Q with (inject_Z 0). rewrite <- Zlt_Qlt. lia. }
  assert (2 ^ (a - b) == 2 ^ a / 2 ^ b)%Q as Hab by (apply Qpower_minus; discriminate).
  assert (n # d < 2 ^ (a - b + 1))%Q as Hup.
  { rewrite pow2_succ, Hab, Hnd.
    apply Qlt_shift_div_r; [exact Hd|].
    assert (2 * (2 ^ a / 2 ^ b) * inject_Z (Z.pos d)
            == 2 * 2 ^ a * (inject_Z (Z.pos d) / 2 ^ b))%Q as -> by (field; lra).
    assert (1 <= inject_Z (Z.pos d) / 2 ^ b)%Q.
    { apply Qle_shift_div_l; [exact HB|lra]. }
    nra. }
  assert (2 ^ (a - b - 1) <= n # d)%Q as Hlo.
  { assert (2 ^ (a - b) == 2 * 2 ^ (a - b - 1))%Q as Hs.
    { rewrite <- pow2_succ. replace (a - b - 1 + 1)%Z with (a - b)%Z by lia. reflexivity. }
    pose proof (pow2_pos (a - b - 1)).
    rewrite Hnd. apply Qle_shift_div_l; [exact Hd|].
    assert (2 ^ a == 2 ^ (a - b - 1) * (2 * 2 ^ b))%Q as Ha3.
    { rewrite Qmult_assoc, (Qmult_comm _ 2), <- Hs, Hab. field. lra. }
    assert (2 ^ (a - b - 1) * inject_Z (Z.pos d) <= 2 ^ (a - b - 1) * (2 * 2 ^ b))%Q.
    { apply Qmult_le_l; [assumption|lra]. }
    lra. }
  destruct (Qle_bool _ _) eqn:E.
  - apply Qle_bool_iff in E. split; assumption.
  - assert (~ (2 ^ (a - b) <= n # d)%Q) as Hn'.
    { intros H. apply Qle_bool_iff in H. congruence. }
    apply Qnot_le_lt in Hn'. replace (a - b - 1 + 1)%Z with (a - b)%Z by lia.
    split; assumption.
Qed.

Lemma binade_mono (x y : Q) :
  (0 < x)%Q -> (x <= y)%Q -> (Double.binade x <= Double.binade y)%Z.
Proof.
  intros Hx Hxy. destruct (binade_spec x Hx) as [H1 _].
  destruct (binade_spec y ltac:(lra)) as [_ H2].
  assert (2 ^ Double.binade x < 2 ^ (Double.binade y + 1))%Q as H by lra.
  apply Qpower_lt_compat_l_inv in H; [lia|reflexivity].
Qed.

Ltac compare_prop E :=
  match type of E with
  | _ = Eq => apply Qeq_alt in E
  | _ = Lt => apply Qlt_alt in E
  | _ = Gt => apply Qgt_alt in E
  end.

Lemma rne_cases (q : Q) :
  Double.rne q = Qfloor q \/ Double.rne q = (Qfloor q + 1)%Z.
Proof.
  unfold Double.rne. destruct (Qcompare _ _); [destruct (Z.even _)|..]; auto.
Qed.

Lemma rne_bounds (q : Q) (z : Z) :
  ((inject_Z z <= q)%Q -> (z <= Double.rne q)%Z) /\
  ((q <= inject_Z z)%Q -> (Double.rne q <= z)%Z).
Proof.
  pose proof (Qfloor_le q) as Hlo. pose proof (Qlt_floor q) as Hhi.
  rewrite inject_Z_plus in Hhi. change (inject_Z 1) with 1%Q in Hhi.
  split; intros H.
  - assert (z <= Qfloor q)%Z.
    { apply Qfloor_resp_le in H. rewrite Qfloor_Z in H. exact H. }
    destruct (rne_cases q) as [-> | ->]; lia.
  - assert (Qfloor q <= z)%Z as Hf.
    { rewrite Zle_Qle. lra. }
    destruct (Z.eq_dec (Qfloor q) z) as [Heq|Hne].
    + unfold Double.rne. rewrite Heq.
      rewrite Heq in Hlo.
      destruct (Qcompare (q - inject_Z z) (1 # 2)) eqn:E;
        [apply Qeq_alt in E; lra|lia|apply Qgt_alt in E; lra].
    + destruct (rne_cases q) as [-> | ->]; lia.
Qed.

Lemma rne_mono (q q' : Q) : (q <= q')%Q -> (Double.rne q <= Double.rne q')%Z.
Proof.
  intros Hq.
  pose proof (Qfloor_le q) as Hlo. pose proof (Qlt_floor q) as Hhi.
  pose proof (Qfloor_le q') as Hlo'. pose proof (Qlt_floor q') as Hhi'.
  rewrite inject_Z_plus in Hhi, Hhi'. change (inject_Z 1) with 1%Q in Hhi, Hhi'.
  pose proof (Qfloor_resp_le q q' Hq) as Hf.
  destruct (Z.eq_dec (Qfloor q) (Qfloor q')) as [Heq|Hne].
  - unfold Double.rne. rewrite <- Heq.
    destruct (Qcompare (q - inject_Z (Qfloor q)) (1 # 2)) eqn:E;
      destruct (Qcompare (q' - inject_Z (Qfloor q)) (1 # 2)) eqn:E';
      try (destruct (Z.even (Qfloor q))); try lia; exfalso;
      compare_prop E; compare_prop E'; lra.
  - assert (Qfloor q + 1 <= Qfloor q')%Z by lia.
    destruct (rne_cases q) as [-> | ->], (rne_cases q') as [-> | ->]; lia.
Qed.

Lemma roundPos_bounds (x : Q) :
  (0 < x)%Q ->
  (2 ^ Double.binade x <= Double.roundPos x <= 2 ^ (Double.binade x + 1))%Q.
Proof.
  intros Hx. destruct (binade_spec x Hx) as [Hlo Hhi].
  unfold Double.roundPos. rewrite Qred_correct.
  set (E := Double.binade x) in *. set (e := (E - 52)%Z).
  pose proof (pow2_pos e) as He.
  assert (2 ^ E == 2 ^ 52 * 2 ^ e)%Q as HE.
  { rewrite <- Qpower_plus by discriminate. replace (52 + e)%Z with E by (unfold e; lia).
    reflexivity. }
  assert (2 ^ (E + 1) == 2 ^ 53 * 2 ^ e)%Q as HE1.
  { rewrite <- Qpower_plus by discriminate. replace (53 + e)%Z with (E + 1)%Z by (unfold e; lia).
    reflexivity. }
  destruct (rne_bounds (x / 2 ^ e) (2 ^ 52)) as [Hb1 _].
  destruct (rne_bounds (x / 2 ^ e) (2 ^ 53)) as [_ Hb2].
  assert (2 ^ 52 <= Double.rne (x / 2 ^ e))%Z as H1.
  { apply Hb1. rewrite pow2_inject by lia. apply Qle_shift_div_l; [exact He|]. lra. }
  assert (Double.rne (x / 2 ^ e) <= 2 ^ 53)%Z as H2.
  { apply Hb2. rewrite pow2_inject by lia. apply Qle_shift_div_r; [exact He|]. lra. }
  rewrite Zle_Qle in H1, H2. rewrite pow2_inject in H1, H2 by lia.
  rewrite HE, HE1. split; apply Qmult_le_compat_r; lra.
Qed.

Lemma roundPos_pos (x : Q) : (0 < x)%Q -> (0 < Double.roundPos x)%Q.
Proof.
  intros Hx. destruct (roundPos_bounds x Hx) as [H _].
  pose proof (pow2_pos (Double.binade x)). lra.
Qed.

Lemma roundPos_mono (x y : Q) :
  (0 < x)%Q -> (x <= y)%Q -> (Double.roundPos x <= Double.roundPos y)%Q.
Proof.
  intros Hx Hxy. assert (0 < y)%Q as Hy by lra.
  pose proof (binade_mono x y Hx Hxy) as HE.
  destruct (Z.eq_dec (Double.binade x) (Double.binade y)) as [Heq|Hne].
  - unfold Double.roundPos. rewrite !Qred_correct, Heq.
    set (e := (Double.binade y - 52)%Z). pose proof (pow2_pos e) as He.
    apply Qmult_le_compat_r; [|lra].
    rewrite <- Zle_Qle. apply rne_mono.
    apply Qle_shift_div_l; [exact He|].
    assert (x / 2 ^ e * 2 ^ e == x)%Q as -> by (field; lra). exact Hxy.
  - destruct (roundPos_bounds x Hx) as [_ H1].
    destruct (roundPos_bounds y Hy) as [H2 _].
    assert (2 ^ (Double.binade x + 1) <= 2 ^ Double.binade y)%Q.
    { apply Qpower_le_compat_l; [lia|discriminate]. }
    lra.
Qed.

Lemma round_mono (x y : Q) : (x <= y)%Q -> (Double.round x <= Double.round y)%Q.
Proof.
  intros Hxy. unfold Double.round.
  destruct (Qcompare x 0) eqn:Ex; destruct (Qcompare y 0) eqn:Ey;
    compare_prop Ex; compare_prop Ey; try lra.
  - pose proof (roundPos_pos y Ey). lra.
  - pose proof (roundPos_pos (- x) ltac:(lra)). lra.
  - pose proof (roundPos_mono (- y) (- x) ltac:(lra) ltac:(lra)). lra.
  - pose proof (roundPos_pos (- x) ltac:(lra)). pose proof (roundPos_pos y Ey). lra.
  - pose proof (roundPos_mono x y Ex Hxy). lra.
Qed.

Lemma round_half : Double.round (1 # 2) = (1 # 2)%Q.
Proof. vm_compute. reflexivity. Qed.

Lemma round_one : Double.round 1 = 1%Q.
Proof. vm_compute. reflexivity. Qed.

Lemma round_zero : Double.round 0 = 0%Q.
Proof. reflexivity. Qed.

Lemma tenth_above : (1 # 10 < Double.tenth)%Q.
Proof. vm_compute. reflexivity. Qed.

(** ** Sets and sorting *)

Lemma setFrom_elem seen l x :
  x ∈ JS.setFrom seen l <-> x ∈ l /\ x ∉ seen.
Proof.
  revert seen. induction l as [|y r IH]; intros seen; simpl.
  - rewrite !elem_of_nil. tauto.
  - destruct (existsb (Z.eqb y) seen) eqn:E.
    + rewrite IH, elem_of_cons. apply existsb_exists in E as (z & Hz & Hyz).
      apply Z.eqb_eq in Hyz. subst z. apply list_elem_of_In in Hz.
      split; [tauto|]. intros [[->|?] ?]; tauto.
    + rewrite !elem_of_cons, IH, elem_of_cons.
      assert (y ∉ seen).
      { intros Hy. apply list_elem_of_In in Hy.
        assert (existsb (Z.eqb y) seen = true); [|congruence].
        apply existsb_exists. exists y. split; [done|apply Z.eqb_refl]. }
      destruct (decide (x = y)) as [->|]; tauto.
Qed.

Lemma setFrom_NoDup seen l : NoDup (JS.setFrom seen l).
Proof.
  revert seen. induction l as [|y r IH]; intros seen; simpl.
  - constructor.
  - destruct (existsb (Z.eqb y) seen); [apply IH|].
    constructor; [|apply IH]. rewrite setFrom_elem, elem_of_cons. tauto.
Qed.

Lemma setFrom_length seen l : length (JS.setFrom seen l) <= length l.
Proof.
  revert seen. induction l as [|y r IH]; intros seen; simpl; [lia|].
  destruct (existsb (Z.eqb y) seen); simpl.
  - specialize (IH seen). lia.
  - specialize (IH (y :: seen)). lia.
Qed.

Lemma newSet_elem l x : x ∈ JS.newSet l <-> x ∈ l.
Proof. unfold JS.newSet. rewrite setFrom_elem, elem_of_nil. tauto. Qed.

Lemma insertNum_perm x l : JS.insertNum x l ≡ₚ x :: l.
Proof.
  induction l as [|y r IH]; simpl; [done|].
  destruct (x <? y)%Z; [done|]. rewrite IH. apply Permutation_swap.
Qed.

Lemma sortNum_perm l : JS.sortNum l ≡ₚ l.
Proof.
  induction l as [|y r IH]; simpl; [done|].
  rewrite insertNum_perm. by rewrite IH.
Qed.

Lemma insertNum_sorted x l :
  StronglySorted Z.le l -> StronglySorted Z.le (JS.insertNum x l).
Proof.
  induction 1 as [|y r Hr IH Hy]; simpl.
  - repeat constructor.
  - destruct (Z.ltb_spec x y).
    + constructor; [by constructor|]. constructor; [lia|].
      eapply Forall_impl; [exact Hy|]. intros; simpl in *; lia.
    + constructor; [done|]. rewrite insertNum_perm. by constructor.
Qed.

Lemma sortNum_sorted l : StronglySorted Z.le (JS.sortNum l).
Proof.
  induction l; simpl; [constructor | by apply insertNum_sorted].
Qed.

Lemma canon_elem l x : x ∈ canon l <-> x ∈ l.
Proof. unfold canon. by rewrite sortNum_perm, newSet_elem. Qed.

Lemma canon_NoDup l : NoDup (canon l).
Proof. unfold canon. rewrite sortNum_perm. apply setFrom_NoDup. Qed.

Lemma StronglySorted_le_lt (l : list Z) :
  StronglySorted Z.le l -> NoDup l -> StronglySorted Z.lt l.
Proof.
  induction 1 as [|y r Hr IH Hy]; intros Hnd; [constructor|].
  apply NoDup_cons in Hnd as [Hy' Hnd]. constructor; [by apply IH|].
  apply Forall_forall. intros z Hz.
  rewrite Forall_forall in Hy. specialize (Hy z Hz).
  assert (z <> y) by (intros ->; done). lia.
Qed.

Lemma canon_sorted l : StronglySorted Z.lt (canon l).
Proof.
  apply StronglySorted_le_lt; [apply sortNum_sorted | apply canon_NoDup].
Qed.

Lemma canon_length l : length (canon l) <= length l.
Proof.
  unfold canon. rewrite sortNum_perm. apply setFrom_length.
Qed.

(** Two lists with the same elements have the same canonical form. *)
Lemma canon_ext l1 l2 : (forall x, x ∈ l1 <-> x ∈ l2) -> canon l1 = canon l2.
Proof.
  intros H. apply (StronglySorted_unique_strong Z.lt); try apply canon_sorted.
  - intros x y _ _ ? ?. lia.
  - apply NoDup_Permutation; try apply canon_NoDup.
    intros x. by rewrite !canon_elem.
Qed.

Lemma canon_idemp l : canon (canon l) = canon l.
Proof. apply canon_ext. intros x. apply canon_elem. Qed.

(** ** The first strictly best candidate *)

Section FirstBest.
Context {A : Type}.
Implicit Types (cs : list (A * Q)) (b : option A * Q).

Lemma bestInv_fold s0 cs : bestInv s0 cs (fold_left better cs (None, s0)).
Proof.
  induction cs as [|c cs IH] using rev_ind.
  - split; simpl; [|done]. intros c Hc. by apply elem_of_nil in Hc.
  - rewrite fold_left_app. simpl.
    destruct (fold_left better cs (None, s0)) as [r s].
    destruct IH as [Hall Hr]. simpl in *. unfold better. simpl.
    destruct (JS.gtb c.2 s) eqn:E.
    + apply gtb_lt in E. split; simpl.
      * intros c' [Hc'|Hc']%elem_of_app.
        -- apply Qlt_le_weak. eapply Qle_lt_trans; [by apply Hall|done].
        -- apply list_elem_of_singleton in Hc'. subst. apply Qle_refl.
      * exists (length cs). split; [|split].
        -- rewrite lookup_app_r, Nat.sub_diag by lia. by destruct c.
        -- destruct r as [a|].
           ++ destruct Hr as (_ & _ & Hlt & _). by eapply Qlt_trans.
           ++ by subst s.
        -- intros j c' Hj Hc'. rewrite lookup_app_l in Hc' by done.
           eapply Qle_lt_trans; [|exact E]. apply Hall.
           by eapply list_elem_of_lookup_2.
    + apply gtb_le in E. split; simpl.
      * intros c' [Hc'|Hc']%elem_of_app; [by apply Hall|].
        apply list_elem_of_singleton in Hc'. by subst.
      * destruct r as [a|]; [|done].
        destruct Hr as (k & Hk & Hlt & Hbefore). exists k.
        split; [|split; [done|]].
        -- by apply lookup_app_l_Some.
        -- intros j c' Hj Hc'. apply (Hbefore j c' Hj).
           apply lookup_lt_Some in Hk. by rewrite lookup_app_l in Hc' by lia.
Qed.

(** No candidate is kept exactly when none beats the baseline. *)
Lemma fold_better_None s0 cs :
  (fold_left better cs (None, s0)).1 = None <->
  forall c, c ∈ cs -> (c.2 <= s0)%Q.
Proof.
  pose proof (bestInv_fold s0 cs) as [Hall Hr].
  destruct (fold_left better cs (None, s0)) as [r s]. simpl in *. split.
  - intros ->. by subst s.
  - intros Hle. destruct r as [a|]; [|done].
    destruct Hr as (k & Hk & Hlt & _).
    apply list_elem_of_lookup_2, Hle in Hk. simpl in Hk.
    lra.
Qed.

(** The candidate kept is the first one of greatest score above the
    baseline. *)
Lemma fold_better_Some s0 cs a :
  (fold_left better cs (None, s0)).1 = Some a <->
  exists k s, cs !! k = Some (a, s) /\ (s0 < s)%Q /\
    (forall j c, j < k -> cs !! j = Some c -> (c.2 < s)%Q) /\
    (forall c, c ∈ cs -> (c.2 <= s)%Q).
Proof.
  pose proof (bestInv_fold s0 cs) as [Hall Hr].
  destruct (fold_left better cs (None, s0)) as [r s]. simpl in *. split.
  - intros ->. destruct Hr as (k & Hk & Hlt & Hbefore).
    exists k, s. eauto.
  - intros (k & s' & Hk & Hlt & Hbefore & Hall').
    destruct r as [a0|].
    + destruct Hr as (k0 & Hk0 & _ & Hbefore0).
      destruct (Nat.lt_trichotomy k0 k) as [Hlt'|[->|Hlt']].
      * specialize (Hbefore _ _ Hlt' Hk0). simpl in Hbefore.
        apply list_elem_of_lookup_2, Hall in Hk. simpl in Hk.
        lra.
      * congruence.
      * specialize (Hbefore0 _ _ Hlt' Hk). simpl in Hbefore0.
        apply list_elem_of_lookup_2, Hall' in Hk0. simpl in Hk0.
        lra.
    + subst s. apply list_elem_of_lookup_2, Hall in Hk. simpl in Hk.
      lra.
Qed.

End FirstBest.

(** ** The chord matcher *)

Lemma fold_left_ext_fun {A B} (f g : A -> B -> A) l a :
  (forall a b, f a b = g a b) -> fold_left f l a = fold_left g l a.
Proof.
  intros Hfg. revert a. induction l as [|b l IH]; intros a; simpl; [reflexivity|].
  rewrite Hfg. apply IH.
Qed.

Lemma fold_left_flat_map {A B C} (f : A -> B -> A) (g : C -> list B) l a :
  fold_left f (flat_map g l) a = fold_left (fun a c => fold_left f (g c) a) l a.
Proof.
  revert a. induction l as [|c l IH]; intros a; simpl; [reflexivity|].
  rewrite fold_left_app. apply IH.
Qed.

Lemma fold_tryTemplate pcs i (catalog : list (string * string * list Z)) b :
  fold_left (tryTemplate (nth i pcs 0%Z) (intervalsOf pcs i)) catalog b =
  fold_left better (map (candidate pcs i) catalog) b.
Proof.
  revert b. induction catalog as [|[[n a] t] es IH]; intros b; simpl; [reflexivity|].
  apply IH.
Qed.

Lemma fold_tryRoot pcs (roots : list nat) b :
  fold_left (tryRoot pcs) roots b =
  fold_left better (flat_map (fun i => map (candidate pcs i) CHORDS) roots) b.
Proof.
  rewrite fold_left_flat_map. apply fold_left_ext_fun.
  intros a i. apply fold_tryTemplate.
Qed.

(** [matchChord] only looks at the canonical form of its argument. *)
Lemma matchChord_canon l :
  matchChord (Some l) =
  if (length (canon l) <? 2)%nat then None
  else (fold_left better (candidates (canon l)) (None, (1 # 2)%Q)).1.
Proof.
  unfold matchChord, candidates. rewrite fold_tryRoot.
  destruct (Nat.ltb_spec (length l) 2) as [Hl|Hl]; [|reflexivity].
  pose proof (canon_length l).
  destruct (Nat.ltb_spec (length (canon l)) 2); [reflexivity|lia].
Qed.

(** *** The scores and the interval set *)

Lemma rem_mod_12 (a : Z) :
  JS.rem (JS.rem a 12 + 12) 12 = (((a mod 12) + 12) mod 12)%Z /\
  (((a mod 12) + 12) mod 12 = a mod 12)%Z.
Proof.
  unfold JS.rem. pose proof (Z.rem_bound_abs a 12 ltac:(lia)) as Hb.
  assert ((Z.rem a 12) mod 12 = a mod 12)%Z as Hq.
  { rewrite (Z.quot_rem' a 12) at 2.
    rewrite Z.add_comm, Z.mul_comm. apply eq_sym, Z_mod_plus_full. }
  assert ((a mod 12 + 12) mod 12 = a mod 12)%Z as Hm.
  { replace (a mod 12 + 12)%Z with (a mod 12 + 1 * 12)%Z by lia.
    rewrite Z_mod_plus_full. apply Z.mod_mod. lia. }
  split; [|exact Hm]. rewrite Hm, <- Hq, Z.rem_mod_nonneg by lia.
  replace (Z.rem a 12 + 12)%Z with (Z.rem a 12 + 1 * 12)%Z by lia.
  apply Z_mod_plus_full.
Qed.

Lemma filter_all {A} (f : A -> bool) (l : list A) :
  (forall x, In x l -> f x = true) -> List.filter f l = l.
Proof.
  induction l as [|x l IH]; intros H; simpl; [reflexivity|].
  rewrite (H x (or_introl eq_refl)). f_equal. apply IH. intros y Hy. apply H. by right.
Qed.

Lemma dropIndex_others (l : list Z) (i : nat) :
  NoDup l -> i < length l -> JS.dropIndex i l = others l (nth i l 0%Z).
Proof.
  intros Hnd. revert i. induction Hnd as [|x l Hx Hnd IH]; intros i Hi; [simpl in Hi; lia|].
  unfold others in *. destruct i as [|i]; simpl.
  - rewrite Z.eqb_refl. simpl. symmetry. apply filter_all.
    intros y Hy. apply negb_true_iff, Z.eqb_neq. intros ->.
    apply Hx, list_elem_of_In, Hy.
  - simpl in Hi. assert (x <> nth i l 0%Z) as Hne.
    { intros ->. apply Hx, list_elem_of_In, nth_In. lia. }
    apply Z.eqb_neq in Hne. rewrite Hne. simpl. f_equal. apply IH. lia.
Qed.

(** The intervals the code collects are the interval set, sorted. *)
Lemma intervalsOf_intervalSet (pcs : list Z) (i : nat) :
  NoDup pcs -> i < length pcs ->
  intervalsOf pcs i = JS.sortNum (intervalSet pcs (nth i pcs 0%Z)).
Proof.
  intros Hnd Hi. unfold intervalsOf, intervalSet. f_equal.
  rewrite (dropIndex_others pcs i Hnd Hi).
  rewrite (map_ext (fun p => JS.rem (JS.rem (p - nth i pcs 0%Z) 12 + 12) 12)
             (fun pc => ((pc - nth i pcs 0%Z) mod 12 + 12) mod 12)%Z)
    by (intros a; apply rem_mod_12).
  apply filter_ext_in. intros x Hx. apply in_map_iff in Hx as (pc & <- & _).
  destruct (rem_mod_12 (pc - nth i pcs 0%Z)) as [_ ->].
  pose proof (Z.mod_pos_bound (pc - nth i pcs 0%Z) 12 ltac:(lia)).
  destruct (Z.ltb_spec 0 ((pc - nth i pcs 0%Z) mod 12)),
           (Z.eqb_spec ((pc - nth i pcs 0%Z) mod 12) 0); simpl; lia || reflexivity.
Qed.

Lemma includes_elem (I : list Z) (t : Z) : JS.includes I t = true <-> t ∈ I.
Proof.
  unfold JS.includes. rewrite existsb_exists, list_elem_of_In. split.
  - intros (x & Hx & Heq). apply Z.eqb_eq in Heq. by subst.
  - intros Ht. exists t. split; [exact Ht|apply Z.eqb_refl].
Qed.

Lemma matchCount_common (template I I' : list Z) :
  I ≡ₚ I' -> matchCount template I = common template I'.
Proof.
  intros HI. unfold matchCount, common.
  induction template as [|t ts IH]; [reflexivity|]. simpl.
  rewrite filter_cons. destruct (decide (t ∈ I')) as [Ht|Ht].
  - assert (JS.includes I t = true) as -> by (apply includes_elem; by rewrite HI).
    simpl. by rewrite IH.
  - destruct (JS.includes I t) eqn:E; [|exact IH].
    apply includes_elem in E. rewrite HI in E. contradiction.
Qed.

Lemma chordScore_templateScore (template I : list Z) :
  chordScore template (JS.sortNum I) = templateScore template I.
Proof.
  unfold chordScore, templateScore, Double.sub, Double.div, Double.mul, Double.tenth.
  rewrite (matchCount_common template (JS.sortNum I) I (sortNum_perm I)).
  by rewrite (Permutation_length (sortNum_perm I)).
Qed.

Lemma flat_map_nth {A B} (f : nat -> list B) (g : A -> list B) (l : list A) (d : A) :
  (forall i, i < length l -> f i = g (nth i l d)) ->
  flat_map f (seq 0 (length l)) = flat_map g l.
Proof.
  assert (forall a, (forall i, i < length l -> f (a + i) = g (nth i l d)) ->
            flat_map f (seq a (length l)) = flat_map g l) as Hgen.
  { induction l as [|x l IH]; intros a H; [reflexivity|]. simpl.
    rewrite <- (IH (S a)).
    - f_equal. rewrite <- (Nat.add_0_r a) at 1. apply (H 0). simpl. lia.
    - intros i Hi. replace (S a + i) with (a + S i) by lia. apply (H (S i)). simpl. lia. }
  intros H. apply (Hgen 0). exact H.
Qed.

Lemma map_ext_catalog {B} (f g : string * string * list Z -> B)
    (catalog : list (string * string * list Z)) :
  (forall e, f e = g e) -> map f catalog = map g catalog.
Proof. intros H. induction catalog as [|e es IH]; simpl; [reflexivity|]. by rewrite H, IH. Qed.

(** The candidates of the nested loops are the scored pairs. *)
Lemma candidates_scoredPairs (pcs : list Z) :
  NoDup pcs -> candidates pcs = scoredPairs pcs.
Proof.
  intros Hnd. unfold candidates, scoredPairs.
  apply (flat_map_nth _ _ pcs 0%Z). intros i Hi.
  apply map_ext_catalog. intros e. unfold candidate. f_equal.
  rewrite (intervalsOf_intervalSet pcs i Hnd Hi). apply chordScore_templateScore.
Qed.

Lemma intervalSet_spec (pcs : list Z) (root : Z) :
  NoDup pcs -> Forall (fun pc => (0 <= pc <= 11)%Z) pcs -> (0 <= root <= 11)%Z ->
  NoDup (intervalSet pcs root) /\
  forall x, x ∈ intervalSet pcs root <->
    exists pc, pc ∈ pcs /\ pc <> root /\ x = ((pc - root) mod 12)%Z.
Proof.
  intros Hnd Hrange Hroot. rewrite Forall_forall in Hrange.
  assert (forall pc, pc ∈ others pcs root <-> pc ∈ pcs /\ pc <> root) as Hoth.
  { intros pc. unfold others. rewrite !list_elem_of_In, filter_In, negb_true_iff, Z.eqb_neq.
    tauto. }
  assert (NoDup (others pcs root)) as Hnd'.
  { unfold others. apply NoDup_ListNoDup, List.NoDup_filter, NoDup_ListNoDup, Hnd. }
  assert (forall pc, pc ∈ others pcs root ->
            (((pc - root) mod 12 + 12) mod 12 = (pc - root) mod 12 /\
             (pc - root) mod 12 <> 0 /\
             ((pc - root) mod 12 = pc - root \/ (pc - root) mod 12 = pc - root + 12))%Z)
    as Hmod.
  { intros pc Hpc. apply Hoth in Hpc as [Hin Hne]. specialize (Hrange pc Hin).
    split; [apply rem_mod_12|].
    destruct (Z.lt_ge_cases pc root).
    - assert ((pc - root) mod 12 = pc - root + 12)%Z as ->.
      { symmetry. apply (Z.mod_unique (pc - root) 12 (-1)); lia. }
      lia.
    - rewrite Z.mod_small by lia. lia. }
  unfold intervalSet. split.
  - apply NoDup_ListNoDup, List.NoDup_filter, NoDup_ListNoDup.
    apply (NoDup_fmap_2_strong _ (others pcs root)); [|exact Hnd'].
    intros p q Hp Hq Heq.
    destruct (Hmod p Hp) as (Hp1 & _ & Hp3). destruct (Hmod q Hq) as (Hq1 & _ & Hq3).
    rewrite Hp1, Hq1 in Heq.
    apply Hoth in Hp as [Hp _]. apply Hoth in Hq as [Hq _].
    pose proof (Hrange p Hp). pose proof (Hrange q Hq). lia.
  - intros x. rewrite list_elem_of_In, filter_In, in_map_iff. split.
    + intros ((pc & <- & Hpc) & _). apply list_elem_of_In in Hpc.
      destruct (Hmod pc Hpc) as (-> & _). apply Hoth in Hpc as [? ?].
      exists pc. by repeat split.
    + intros (pc & Hin & Hne & ->).
      assert (pc ∈ others pcs root) as Hpc by (by apply Hoth).
      destruct (Hmod pc Hpc) as (H1 & H2 & _). split.
      * exists pc. split; [exact H1|by apply list_elem_of_In].
      * apply negb_true_iff, Z.eqb_neq, H2.
Qed.

(** C1. For a set of at least two pitch classes (integers 0 to 11), the
    interval set above a root holds the intervals [(pc - root) mod 12] of
    the other classes, each once; every (root, template) pair is scored
    [matches / |template| - (|interval set| - matches) * 0.1] with
    [matches] the number of template intervals in the interval set, the
    arithmetic being that of doubles; [matchChord] returns no match exactly
    when no pair scores above the baseline 0.5, and otherwise returns the
    first pair, roots ascending and the catalog in order under each root,
    whose score is above 0.5, strictly above every earlier score and not
    below any later one. *)
Theorem matchChord_first_best (l : list Z) :
  Forall (fun pc => (0 <= pc <= 11)%Z) l -> 2 <= length (canon l) ->
  let pcs := canon l in
  let cs := scoredPairs pcs in
  StronglySorted Z.lt pcs /\
  (forall root, root ∈ pcs ->
     NoDup (intervalSet pcs root) /\
     forall x, x ∈ intervalSet pcs root <->
       exists pc, pc ∈ pcs /\ pc <> root /\ x = ((pc - root) mod 12)%Z) /\
  (matchChord (Some l) = None <-> forall c, c ∈ cs -> (c.2 <= 1 # 2)%Q) /\
  (forall c, matchChord (Some l) = Some c <-> firstBest (1 # 2) cs c).
Proof.
  intros Hrange Hlen pcs cs. rewrite matchChord_canon.
  destruct (Nat.ltb_spec (length (canon l)) 2) as [|_]; [lia|].
  fold pcs. rewrite (candidates_scoredPairs pcs (canon_NoDup l)). fold cs.
  assert (Forall (fun pc => (0 <= pc <= 11)%Z) pcs) as Hpcs.
  { apply Forall_forall. intros pc Hpc. apply (proj1 (canon_elem l pc)) in Hpc.
    rewrite Forall_forall in Hrange. exact (Hrange pc Hpc). }
  split; [apply canon_sorted|]. split; [|split].
  - intros root Hroot. apply intervalSet_spec; [apply canon_NoDup|exact Hpcs|].
    rewrite Forall_forall in Hpcs. exact (Hpcs root Hroot).
  - apply fold_better_None.
  - intros c. apply fold_better_Some.
Qed.

Lemma matchChord_first_best_witness :
  matchChord (Some [0; 4; 7]%Z) = None <->
  forall c, c ∈ scoredPairs (canon [0; 4; 7]%Z) -> (c.2 <= 1 # 2)%Q.
Proof.
  apply (matchChord_first_best [0; 4; 7]%Z).
  - repeat constructor; lia.
  - vm_compute. lia.
Defined.

(** Rounding decides between scores that exact arithmetic ties: on
    [0, 1, 3, 4, 5, 7] the pairs (C, Major) and (D#, 13) both score 7/10
    exactly; as doubles the second is the greater, and [matchChord]
    returns it. *)
Lemma matchChord_rounding :
  let pcs := [0; 1; 3; 4; 5; 7]%Z in
  (exactScore [4; 7]%Z (intervalSet pcs 0) == 7 # 10)%Q /\
  (exactScore [4; 7; 10; 2; 9]%Z (intervalSet pcs 3) == 7 # 10)%Q /\
  (templateScore [4; 7]%Z (intervalSet pcs 0)
   < templateScore [4; 7; 10; 2; 9]%Z (intervalSet pcs 3))%Q /\
  matchChord (Some pcs) = Some (mkChord (Some "D#"%string) 3 "13" "13" "D#13").
Proof.
  repeat apply conj; vm_compute; reflexivity.
Qed.

Lemma canon_In l x : In x (canon l) <-> In x l.
Proof. rewrite <- !list_elem_of_In. apply canon_elem. Qed.

Lemma matchChord_same_elements l1 l2 :
  (forall x, In x l1 <-> In x l2) -> matchChord (Some l1) = matchChord (Some l2).
Proof.
  intros H. rewrite !matchChord_canon.
  rewrite (canon_ext l1 l2); [reflexivity|].
  intros x. rewrite !list_elem_of_In. apply H.
Qed.

(** C5. [matchChord] does not depend on the order of its input nor on
    repeated entries: the result on a list is the result on its sorted,
    deduplicated form, and any two lists with the same elements give the
    same result; [0,4,7], [4,7,0] and [0,0,4,4,7,7] all give root "C",
    abbreviation "" and full name "C". *)
Theorem matchChord_order_dup_invariant (l : list Z) :
  matchChord (Some l) = matchChord (Some (canon l)) /\
  (forall l', (forall x, In x l' <-> In x l) ->
     matchChord (Some l') = matchChord (Some l)) /\
  matchChord (Some [0; 4; 7]%Z) = Some C_major /\
  matchChord (Some [4; 7; 0]%Z) = Some C_major /\
  matchChord (Some [0; 0; 4; 4; 7; 7]%Z) = Some C_major /\
  root C_major = Some "C"%string /\ abbrev C_major = ""%string /\
  full C_major = "C"%string.
Proof.
  split; [|split].
  - apply matchChord_same_elements. intros x. symmetry. apply canon_In.
  - intros l'. apply matchChord_same_elements.
  - repeat apply conj; vm_compute; reflexivity.
Qed.

Lemma matchChord_order_dup_invariant_witness :
  matchChord (Some [7; 0; 4; 0]%Z) = matchChord (Some [0; 4; 7]%Z).
Proof.
  apply (proj1 (proj2 (matchChord_order_dup_invariant [0; 4; 7]%Z))).
  intros x. simpl. intuition lia.
Defined.

(** C6. An absent input, and any input with fewer than two distinct pitch
    classes (the empty list, a single class, repetitions of one class),
    gives no match; the result is the absence value [None]. *)
Theorem matchChord_too_few :
  matchChord None = None /\
  forall l, (forall x y, In x l -> In y l -> x = y) -> matchChord (Some l) = None.
Proof.
  split; [reflexivity|]. intros l Hone. rewrite matchChord_canon.
  destruct (Nat.ltb_spec (length (canon l)) 2) as [|Hlen]; [reflexivity|].
  pose proof (canon_NoDup l) as Hnd.
  destruct (canon l) as [|a [|b r]] eqn:E; simpl in Hlen; try lia.
  assert (a = b) as ->.
  { apply Hone; apply canon_In; rewrite E; simpl; auto. }
  apply NoDup_cons in Hnd as [Hnd _]. exfalso. apply Hnd. left.
Qed.

Lemma matchChord_too_few_witness :
  matchChord (Some [5; 5; 5]%Z) = None /\ matchChord (Some []) = None.
Proof.
  split; apply matchChord_too_few; simpl; intuition lia.
Defined.

(** C9. Two distinct pitch classes can match: [0, 7] has exactly two
    classes, the bare-fifth template [7] is fully covered from root C with
    score 1 above the baseline, and the result is root "C", abbreviation
    "5", full name "C5". *)
Theorem matchChord_bare_fifth :
  length (canon [0; 7]%Z) = 2 /\
  In ("5", "5", [7]%Z)%string CHORDS /\
  (chordScore [7]%Z (intervalsOf (canon [0; 7]%Z) 0) == 1)%Q /\
  matchChord (Some [0; 7]%Z) = Some (mkChord (Some "C"%string) 0 "5" "5" "C5").
Proof.
  repeat apply conj; try (vm_compute; reflexivity).
  vm_compute. tauto.
Qed.

(** ** Music math *)

Lemma round_bounds (x : Q) :
  (inject_Z (JS.round x) - (1 # 2) <= x)%Q /\ (x < inject_Z (JS.round x) + (1 # 2))%Q.
Proof.
  unfold JS.round.
  pose proof (Qfloor_le (x + (1 # 2))) as Hlo.
  pose proof (Qlt_floor (x + (1 # 2))) as Hhi.
  rewrite inject_Z_plus in Hhi. change (inject_Z 1) with 1%Q in Hhi.
  split; lra.
Qed.

Lemma round_nonneg (x : Q) : (- (1 # 2) <= x)%Q -> (0 <= JS.round x)%Z.
Proof.
  intros Hx. unfold JS.round. change 0%Z with (Qfloor 0).
  apply Qfloor_resp_le. lra.
Qed.

(** C7 (as amended). For every midi value that does not round below zero,
    [midiToPitchClass] is [round(midi) mod 12], an integer in [0, 11], where
    [round(midi)] is the integer within one half of [midi], halves rounded
    up. *)
Theorem midiToPitchClass_nonneg (midi : Q) :
  (- (1 # 2) <= midi)%Q ->
  midiToPitchClass midi = (JS.round midi mod 12)%Z /\
  (0 <= midiToPitchClass midi <= 11)%Z /\
  (inject_Z (JS.round midi) - (1 # 2) <= midi)%Q /\
  (midi < inject_Z (JS.round midi) + (1 # 2))%Q.
Proof.
  intros Hmidi. pose proof (round_nonneg midi Hmidi) as Hr.
  unfold midiToPitchClass, JS.rem.
  rewrite Z.rem_mod_nonneg by lia.
  pose proof (Z.mod_pos_bound (JS.round midi) 12 ltac:(lia)).
  pose proof (round_bounds midi). intuition lia.
Qed.

Lemma midiToPitchClass_nonneg_witness :
  midiToPitchClass (139 # 2) = 10%Z /\ midiToPitchClass 60 = 0%Z.
Proof.
  split.
  - rewrite (proj1 (midiToPitchClass_nonneg (139 # 2) ltac:(unfold Qle; simpl; lia))).
    reflexivity.
  - rewrite (proj1 (midiToPitchClass_nonneg 60 ltac:(unfold Qle; simpl; lia))).
    reflexivity.
Defined.

(** C7 fails as stated: the sentinel midi value -1 of [hzToMidi] has pitch
    class -1, outside [0, 11], and not [round(-1) mod 12 = 11]. *)
Lemma midiToPitchClass_minus_one :
  midiToPitchClass (- (1)) = (-1)%Z /\
  midiToPitchClass (- (1)) <> (JS.round (- (1)) mod 12)%Z /\
  ~ (0 <= midiToPitchClass (- (1)) <= 11)%Z.
Proof.
  repeat split; vm_compute; try congruence. intros [H _]. by apply H.
Qed.

(** ** Keys of pitch-class sets *)

Lemma showZ_inj a b : showZ a = showZ b -> a = b.
Proof.
  unfold showZ. intros H. apply DecimalZ.to_int_inj.
  apply (f_equal NilEmpty.int_of_string) in H.
  rewrite !NilEmpty.isi in H. congruence.
Qed.

Lemma showZ_nonempty a : showZ a <> EmptyString.
Proof.
  intros H. assert (a = 0%Z) as ->; [|discriminate H].
  apply showZ_inj. unfold showZ in *.
  apply (f_equal NilEmpty.int_of_string) in H. rewrite NilEmpty.isi in H.
  simpl in H. injection H as H. rewrite <- (DecimalZ.of_to a), H. reflexivity.
Qed.

Lemma uint_noComma d : hasComma (NilEmpty.string_of_uint d) = false.
Proof. induction d; simpl; auto. Qed.

Lemma showZ_noComma a : hasComma (showZ a) = false.
Proof.
  unfold showZ. destruct (Z.to_int a); simpl; apply uint_noComma.
Qed.

Lemma comma_split (s1 s2 a b : string) :
  hasComma s1 = false -> hasComma s2 = false ->
  (s1 ++ "," ++ a)%string = (s2 ++ "," ++ b)%string -> s1 = s2 /\ a = b.
Proof.
  revert s2. induction s1 as [|c s1 IH]; intros [|c2 s2]; simpl; intros H1 H2 H.
  - by injection H.
  - injection H as <- _. by rewrite Ascii.eqb_refl in H2.
  - injection H as -> _. by rewrite Ascii.eqb_refl in H1.
  - injection H as -> H. apply orb_false_elim in H1 as [_ H1].
    apply orb_false_elim in H2 as [_ H2].
    destruct (IH s2 H1 H2 H) as [-> ->]. done.
Qed.

Lemma noComma_neq (s t a : string) :
  hasComma s = false -> s <> (t ++ "," ++ a)%string.
Proof.
  revert s. induction t as [|c t IH]; intros [|c' s]; simpl; intros H; try discriminate.
  - apply orb_false_elim in H as [H _]. intros [= -> _]. by rewrite Ascii.eqb_refl in H.
  - apply orb_false_elim in H as [_ H]. intros [= -> E]. by eapply IH.
Qed.

(** The comma-joined key determines the list of numbers. *)
Lemma joinNums_inj l1 l2 : joinNums l1 = joinNums l2 -> l1 = l2.
Proof.
  revert l2. induction l1 as [|x [|x' r] IH]; intros [|y [|y' r']] H; try done.
  - simpl in H. symmetry in H. by apply showZ_nonempty in H.
  - exfalso. cbn [joinNums] in H. destruct (showZ y); discriminate.
  - simpl in H. by apply showZ_nonempty in H.
  - simpl in H. by apply showZ_inj in H as ->.
  - exfalso. cbn [joinNums] in H. eapply noComma_neq; [|exact H]. apply showZ_noComma.
  - exfalso. cbn [joinNums] in H. destruct (showZ x); discriminate.
  - exfalso. cbn [joinNums] in H. symmetry in H.
    eapply noComma_neq; [|exact H]. apply showZ_noComma.
  - change (joinNums (x :: x' :: r)) with (showZ x ++ "," ++ joinNums (x' :: r))%string in H.
    change (joinNums (y :: y' :: r')) with (showZ y ++ "," ++ joinNums (y' :: r'))%string in H.
    apply comma_split in H as [Hx Hr]; try apply showZ_noComma.
    apply showZ_inj in Hx as ->. by rewrite (IH _ Hr).
Qed.

(** ** The stability gate *)

Lemma pushHistory_take n h k :
  length h <= n -> pushHistory n h k = take n (k :: h).
Proof.
  intros Hlen. unfold pushHistory.
  destruct (Nat.ltb_spec n (length (k :: h))) as [Hlt|Hge]; cbn [length] in *.
  - assert (length h = n) as <- by lia.
    rewrite (removelast_firstn_len (k :: h)). reflexivity.
  - rewrite take_ge; [reflexivity|simpl; lia].
Qed.





Lemma isStable_true n h :
  isStable n h = true <->
  n <= length h /\ forall k, In k h -> Some k = head h.
Proof.
  unfold isStable. rewrite andb_true_iff, Nat.leb_le.
  apply and_iff_compat_l. destruct h as [|h0 h]; simpl.
  - split; [intros _ k []|done].
  - rewrite String.eqb_refl. simpl. rewrite forallb_forall. split.
    + intros H k [->|Hk]; [done|]. apply H, String.eqb_eq in Hk. by subst.
    + intros H k Hk. apply String.eqb_eq.
      specialize (H k (or_intror Hk)). congruence.
Qed.



Lemma updates_chordStage st pcs lastc :
  updates (chordStage st pcs lastc).2 = [].
Proof.
  unfold chordStage. destruct (st && _); [|done].
  destruct (matchChord _); [|done]. by destruct (fullDiffers _ _).
Qed.

Section Gate.
Context {M : JSMath}.

Lemma loop_flags cfg d raw :
  running (loop cfg d raw).1 = running d /\ paused (loop cfg d raw).1 = paused d.
Proof.
  unfold loop. destruct (negb (running d) || paused d); [done|].
  destruct (readFrame _ _ _) as [spec maxE]. by destruct (chordStage _ _ _).
Qed.

(** A frame pushes the key of its pitch-class set and reports the gate's
    verdict on the new window. *)
Lemma loop_history cfg d raw :
  running d = true -> paused d = false ->
  exists pcs,
    pitchSets (loop cfg d raw).2 = [pcs] /\
    history (loop cfg d raw).1 =
      pushHistory (stabilityFrames cfg) (history d) (joinNums pcs) /\
    stable (loop cfg d raw).1 =
      isStable (stabilityFrames cfg) (history (loop cfg d raw).1).
Proof.
  intros Hr Hp. unfold loop. rewrite Hr, Hp. simpl.
  destruct (readFrame _ _ _) as [spec maxE].
  match goal with |- context [chordStage ?a ?b ?c] =>
    pose proof (updates_chordStage a b c) as Hu; destruct (chordStage a b c) end.
  simpl in *. eexists. split; [|split; reflexivity].
  unfold pitchSets, updates in *. rewrite omap_app, Hu. reflexivity.
Qed.


End Gate.





Section StabilityGate.
Context {M : JSMath}.


End StabilityGate.



(** ** The chord-change event *)

Lemma chordStage_cases st pcs lastc :
  ((chordStage st pcs lastc).2 = [] /\ (chordStage st pcs lastc).1 = lastc) \/
  exists c, (chordStage st pcs lastc).2 = [OnChord c] /\
    (chordStage st pcs lastc).1 = Some c /\
    st = true /\ 2 <= length pcs /\ matchChord (Some pcs) = Some c /\
    option_map full lastc <> Some (full c).
Proof.
  unfold chordStage. destruct st; cbn [andb]; [|by left].
  destruct (Nat.leb_spec 2 (length pcs)); [|by left].
  destruct (matchChord (Some pcs)) as [c|]; [|by left].
  destruct (fullDiffers c lastc) eqn:E; [|by left].
  right. exists c. repeat split; try done.
  unfold fullDiffers in E. destruct lastc as [c0|]; simpl; [|done].
  intros [= Hfull]. rewrite Hfull, String.eqb_refl in E. done.
Qed.

Section ChordEvent.
Context {M : JSMath}.

(** A frame calls [onChord] at most once, and only as [chordStage] says. *)
Lemma loop_chord cfg d raw :
  (emitted (loop cfg d raw).2 = [] /\
   lastChord (loop cfg d raw).1 = lastChord d) \/
  exists c pcs,
    emitted (loop cfg d raw).2 = [c] /\
    lastChord (loop cfg d raw).1 = Some c /\
    stable (loop cfg d raw).1 = true /\
    pitchSets (loop cfg d raw).2 = [pcs] /\
    2 <= length pcs /\ matchChord (Some pcs) = Some c /\
    option_map full (lastChord d) <> Some (full c).
Proof.
  unfold loop. destruct (negb (running d) || paused d); [by left|].
  destruct (readFrame _ _ _) as [spec maxE].
  match goal with |- context [chordStage ?a ?b ?c] =>
    pose proof (chordStage_cases a b c) as Hc;
    pose proof (updates_chordStage a b c) as Hu;
    destruct (chordStage a b c) as [l ev] end.
  unfold emitted, pitchSets, updates in *. simpl in *. rewrite !omap_app, Hu. simpl.
  destruct Hc as [[-> ->]|(c & -> & -> & Hst & Hlen & Hm & Hne)]; [by left|].
  right. exists c. eexists. rewrite Hst. repeat split; try done.
Qed.

Lemma run_edge_triggered cfg d frames :
  edgeTriggered (option_map full (lastChord d)) (emitted (run cfg d frames).2) /\
  lastChord (run cfg d frames).1 =
    lastEmitted (lastChord d) (emitted (run cfg d frames).2).
Proof.
  revert d. induction frames as [|raw rest IH]; intros d; simpl; [done|].
  pose proof (loop_chord cfg d raw) as Hl.
  destruct (loop cfg d raw) as [d1 e1]. specialize (IH d1).
  destruct (run cfg d1 rest) as [d2 e2]. simpl in *.
  unfold emitted in *. rewrite omap_app.
  destruct Hl as [[-> Hlast]|(c & pcs & -> & Hlast & _ & _ & _ & _ & Hne)]; simpl.
  - by rewrite <- Hlast.
  - rewrite Hlast in IH. simpl in IH. destruct IH as [IH1 IH2].
    split; [done|]. rewrite IH2. unfold lastEmitted.
    rewrite last_cons. by destruct (last (omap chordOf e2)).
Qed.

(** C8. Along any sequence of frames the chords passed to [onChord] never
    repeat the full name of the chord passed before, the retained
    [lastChord] being the chord passed last; and a frame calls [onChord]
    only when it is stable, its pitch-class set matches that chord, and the
    chord's full name differs from that of the retained last chord. *)
Theorem onChord_edge_triggered (cfg : Config) (d : Detector) :
  (forall frames,
     edgeTriggered (option_map full (lastChord d)) (emitted (run cfg d frames).2) /\
     lastChord (run cfg d frames).1 =
       lastEmitted (lastChord d) (emitted (run cfg d frames).2)) /\
  (forall raw c, In (OnChord c) (loop cfg d raw).2 ->
     emitted (loop cfg d raw).2 = [c] /\
     stable (loop cfg d raw).1 = true /\
     (exists pcs, pitchSets (loop cfg d raw).2 = [pcs] /\
        2 <= length pcs /\ matchChord (Some pcs) = Some c) /\
     option_map full (lastChord d) <> Some (full c) /\
     lastChord (loop cfg d raw).1 = Some c).
Proof.
  split; [apply run_edge_triggered|].
  intros raw c Hin.
  assert (In c (emitted (loop cfg d raw).2)) as Hc.
  { apply list_elem_of_In, list_elem_of_omap. exists (OnChord c).
    split; [by apply list_elem_of_In|done]. }
  destruct (loop_chord cfg d raw)
    as [[He _]|(c' & pcs & He & Hlast & Hst & Hp & Hlen & Hm & Hne)].
  - rewrite He in Hc. destruct Hc.
  - rewrite He in Hc. destruct Hc as [->|[]]. eauto 10.
Qed.

End ChordEvent.

Lemma onChord_edge_triggered_witness :
  let cfg := mkConfig quickOptions in
  let d := initDetector cfg hz48k in
  stable (loop (M := FixedMath.math) cfg d triadFrame).1 = true /\
  lastChord (loop (M := FixedMath.math) cfg d triadFrame).1 = Some C_major.
Proof.
  intros cfg d.
  pose proof (proj2 (onChord_edge_triggered (M := FixedMath.math) cfg d)
                triadFrame C_major) as H.
  assert (In (OnChord C_major) (loop (M := FixedMath.math) cfg d triadFrame).2) as Hin.
  { vm_compute. left. reflexivity. }
  split.
  - exact (proj1 (proj2 (H Hin))).
  - exact (proj2 (proj2 (proj2 (proj2 (H Hin))))).
Defined.


(** ** The peak extractor *)

Lemma isPeak_IsPeak spec threshold i :
  isPeak spec threshold i = true <-> IsPeak spec threshold i.
Proof.
  unfold isPeak, IsPeak. rewrite !andb_true_iff, !gtb_lt. tauto.
Qed.



(** The scan appends the peaks it meets, in order, until the buffers are
    full. *)
Lemma peakScan_spec spec threshold maxP n i p :
  pk_count p <= maxP ->
  length (pk_bins p) = maxP -> length (pk_energies p) = maxP ->
  let new := take (maxP - pk_count p) (filter (IsPeak spec threshold) (seq i n)) in
  let r := peakScan spec threshold maxP n i p in
  pk_count r = pk_count p + length new /\
  take (pk_count r) (pk_bins r) =
    take (pk_count p) (pk_bins p)
    ++ map (fun j => (inject_Z (Z.of_nat j) + peakOffset spec j)%Q) new /\
  take (pk_count r) (pk_energies r) =
    take (pk_count p) (pk_energies p) ++ map (fun j => nth j spec 0%Q) new.
Proof.
  revert i p. induction n as [|n IH]; intros i p Hc Hb He; cbn [peakScan seq].
  - rewrite filter_nil, take_nil. cbn [map length]. rewrite !app_nil_r.
    split; [lia|done].
  - destruct (Nat.ltb_spec (pk_count p) maxP) as [Hlt|Hge].
    + unfold peakStep. destruct (isPeak spec threshold i) eqn:Ep.
      * apply isPeak_IsPeak in Ep. rewrite filter_cons_True by done.
        replace (maxP - pk_count p) with (S (maxP - S (pk_count p))) by lia.
        cbn [take map length].
        match goal with |- context [peakScan _ _ _ n (S i) ?q] =>
          specialize (IH (S i) q) end.
        cbn [pk_count pk_bins pk_energies] in IH. rewrite !length_insert in IH.
        destruct (IH ltac:(lia) Hb He) as (IH1 & IH2 & IH3).
        rewrite IH2, IH3, IH1. split; [lia|].
        erewrite !take_S_r by (apply list_lookup_insert_eq; lia).
        rewrite !take_insert_ge by lia. by rewrite <- !app_assoc.
      * assert (~ IsPeak spec threshold i) as Hn.
        { rewrite <- isPeak_IsPeak. congruence. }
        rewrite filter_cons_False by done. by apply IH.
    + replace (maxP - pk_count p) with 0 by lia. rewrite take_0.
      cbn [map length]. rewrite !app_nil_r. split; [lia|done].
Qed.



(** ** The noise floor *)




Lemma nth_insert_default {A} (l : list A) i d : nth i (<[i := d]> l) d = d.
Proof.
  rewrite nth_lookup. destruct (decide (i < length l)).
  - by rewrite list_lookup_insert_eq.
  - rewrite lookup_ge_None_2; [done|]. rewrite length_insert. lia.
Qed.

Lemma nth_insert_ne {A} (l : list A) i j x d :
  i <> j -> nth j (<[i := x]> l) d = nth j l d.
Proof. intros H. by rewrite !nth_lookup, list_lookup_insert_ne. Qed.

(** Copying an all-zero frame leaves the maximum at zero and zeroes every
    bin that is read. *)
Lemma readFrame_silent raw (idxs : list nat) spec :
  (forall i, In i idxs -> nth i raw 0%N = 0%N) ->
  let r := fold_left (readStep raw) idxs (spec, 0%Q) in
  r.2 = 0%Q /\ forall j, In j idxs -> nth j r.1 0%Q = 0%Q.
Proof.
  induction idxs as [|i idxs IH] using rev_ind; intros Hz; simpl.
  - split; [done|]. intros j [].
  - rewrite fold_left_app. simpl.
    destruct IH as [IH1 IH2]; [intros j Hj; apply Hz, in_or_app; by left|].
    destruct (fold_left (readStep raw) idxs (spec, 0%Q)) as [sp mx].
    simpl in *. subst mx.
    assert (rawAt raw i = 0%Q) as ->.
    { unfold rawAt. rewrite Hz; [done|]. apply in_or_app. right. by left. }
    split; [done|]. intros j Hj.
    destruct (decide (i = j)) as [<-|Hne]; [apply nth_insert_default|].
    rewrite nth_insert_ne by done. apply IH2.
    apply in_app_or in Hj as [Hj|[Hj|[]]]; [done|congruence].
Qed.

Section NoiseFloor.
Context {M : JSMath}.

Lemma loop_noiseFloor cfg d raw :
  running d = true -> paused d = false ->
  let sm := readFrame cfg (spectrum d) raw in
  noiseFloor (loop cfg d raw).1 =
    updateNoiseFloor (noiseFloor d) (floorSample cfg sm.1 sm.2) /\
  map u_threshold (updates (loop cfg d raw).2) =
    [thresholdOf (noiseFloor (loop cfg d raw).1)].
Proof.
  intros Hr Hp. unfold loop. rewrite Hr, Hp. simpl.
  destruct (readFrame _ _ _) as [spec maxE].
  match goal with |- context [chordStage ?a ?b ?c] =>
    pose proof (updates_chordStage a b c) as Hu; destruct (chordStage a b c) end.
  simpl in *. split; [done|].
  unfold updates in *. by rewrite omap_app, Hu.
Qed.



End NoiseFloor.

Lemma silence_silent cfg : binCount cfg <= rawLength -> silentFrame cfg silence.
Proof.
  intros Hlen. split; [unfold silence; by rewrite length_replicate|].
  intros i _. unfold silence. rewrite nth_lookup.
  destruct (replicate rawLength 0%N !! i) eqn:E; [|done].
  by apply lookup_replicate in E as [-> _].
Qed.

Section NoiseFloorDecay.
Context {M : JSMath}.



End NoiseFloorDecay.



(** ** The harmonic sieve *)

Lemma fold_pickStep scores used (idxs : list nat) acc :
  fold_left (pickStep scores used) idxs acc =
  fold_left better
    (map (fun i => (i, nth i scores 0%Q))
       (List.filter (fun i => negb (nth i used false)) idxs)) acc.
Proof.
  revert acc. induction idxs as [|i idxs IH]; intros acc; simpl; [done|].
  rewrite IH. unfold pickStep.
  destruct (nth i used false); simpl; [done|]. reflexivity.
Qed.

Lemma pickBest_better scores used :
  pickBest scores used =
  (fold_left better (unusedScores scores used) (None, (3 # 10)%Q)).1.
Proof. unfold pickBest. by rewrite fold_pickStep. Qed.

Lemma unusedScores_elem scores used i s :
  (i, s) ∈ unusedScores scores used <->
  i < length scores /\ nth i used false = false /\ s = nth i scores 0%Q.
Proof.
  unfold unusedScores. rewrite list_elem_of_In, in_map_iff. split.
  - intros (j & [= -> ->] & Hj). apply filter_In in Hj as [Hj Hu].
    apply in_seq in Hj. apply negb_true_iff in Hu. split; [lia|done].
  - intros (Hi & Hu & ->). exists i. split; [done|].
    apply filter_In. split; [apply in_seq; lia|]. by rewrite Hu.
Qed.

(** A pick is an unused peak whose score is above 0.3. *)
Lemma pickBest_Some scores used bi :
  pickBest scores used = Some bi ->
  bi < length scores /\ nth bi used false = false.
Proof.
  rewrite pickBest_better. intros (k & s & Hk & _)%fold_better_Some.
  apply list_elem_of_lookup_2, unusedScores_elem in Hk. tauto.
Qed.

Lemma pickBest_all_used scores used :
  (forall i, i < length scores -> nth i used false = true) ->
  pickBest scores used = None.
Proof.
  intros Hall. rewrite pickBest_better. apply fold_better_None.
  intros [i s] (Hi & Hu & _)%unusedScores_elem. rewrite Hall in Hu; done.
Qed.

Lemma lookup_map_seq {A} (f : nat -> A) n i :
  i < n -> map f (seq 0 n) !! i = Some (f i).
Proof.
  intros Hi. change (map f (seq 0 n)) with (f <$> seq 0 n).
  by rewrite list_lookup_fmap, lookup_seq_lt.
Qed.

(** With nothing used, the pick is the first peak of greatest score. *)
Lemma pickBest_first_max scores b :
  b < length scores ->
  (3 # 10 < nth b scores 0)%Q ->
  (forall j, j < length scores -> (nth j scores 0 <= nth b scores 0)%Q) ->
  (forall j, j < b -> (nth j scores 0 < nth b scores 0)%Q) ->
  pickBest scores (replicate (length scores) false) = Some b.
Proof.
  intros Hb Hgt Hmax Hfirst. rewrite pickBest_better. apply fold_better_Some.
  assert (unusedScores scores (replicate (length scores) false) =
          map (fun i => (i, nth i scores 0%Q)) (seq 0 (length scores))) as ->.
  { unfold unusedScores. f_equal. apply forallb_filter_id.
    apply forallb_forall. intros i Hi%in_seq.
    rewrite nth_lookup, lookup_replicate_2 by lia. done. }
  exists b, (nth b scores 0%Q). split; [|split; [done|split]].
  - by apply (lookup_map_seq (fun i => (i, nth i scores 0%Q))).
  - intros j c Hj Hc. rewrite lookup_map_seq in Hc by lia.
    injection Hc as <-. by apply Hfirst.
  - intros c Hc. apply list_elem_of_In, in_map_iff in Hc as (j & <- & Hj).
    apply in_seq in Hj. apply Hmax. lia.
Qed.

(** *** Marking *)

Lemma nth_insert_true (used : list bool) i j :
  nth j used false = true -> nth j (<[i := true]> used) false = true.
Proof.
  intros H. destruct (decide (i = j)) as [->|Hne].
  - rewrite nth_lookup, list_lookup_insert_eq; [done|].
    destruct (decide (j < length used)); [done|].
    rewrite nth_overflow in H by lia. done.
  - by rewrite nth_insert_ne.
Qed.

Lemma markStep_fold peakMidis exp (idxs : list nat) used :
  let r := fold_left
             (fun u i => if near (nth i peakMidis 0%Q) exp then <[i := true]> u else u)
             idxs used in
  length r = length used /\
  (forall j, nth j used false = true -> nth j r false = true) /\
  (forall j, In j idxs -> j < length used ->
     near (nth j peakMidis 0%Q) exp = true -> nth j r false = true).
Proof.
  revert used. induction idxs as [|i idxs IH]; intros used; simpl.
  - split; [done|]. split; [done|]. intros j [].
  - match goal with |- context [fold_left _ idxs ?u] =>
      destruct (IH u) as (IHl & IHm & IHn) end.
    destruct (near (nth i peakMidis 0%Q) exp) eqn:E.
    + rewrite length_insert in *. split; [done|]. split.
      * intros j Hj. by apply IHm, nth_insert_true.
      * intros j [<-|Hj] Hlt Hn; [|by apply IHn].
        apply IHm. by rewrite nth_lookup, list_lookup_insert_eq.
    + split; [done|]. split; [done|].
      intros j [<-|Hj] Hlt Hn; [congruence|by apply IHn].
Qed.

Lemma markNear_spec peakMidis exp used :
  length (markNear peakMidis exp used) = length used /\
  (forall j, nth j used false = true ->
     nth j (markNear peakMidis exp used) false = true) /\
  (forall j, j < length peakMidis -> j < length used ->
     near (nth j peakMidis 0%Q) exp = true ->
     nth j (markNear peakMidis exp used) false = true).
Proof.
  unfold markNear.
  destruct (markStep_fold peakMidis exp (seq 0 (length peakMidis)) used)
    as (Hl & Hm & Hn).
  split; [done|]. split; [done|]. intros j Hj. apply Hn, in_seq. lia.
Qed.

Section Marking.
Context {M : JSMath}.

Lemma markHarmonics_fold peakMidis fm (ns : list nat) used :
  let r := fold_left (fun u n => markNear peakMidis (harmonicOf fm n) u) ns used in
  length r = length used /\
  (forall j, nth j used false = true -> nth j r false = true) /\
  (forall j n, In n ns -> j < length peakMidis -> j < length used ->
     near (nth j peakMidis 0%Q) (harmonicOf fm n) = true -> nth j r false = true).
Proof.
  revert used. induction ns as [|n ns IH]; intros used; simpl.
  - split; [done|]. split; [done|]. intros j n [].
  - destruct (markNear_spec peakMidis (harmonicOf fm n) used) as (Hl & Hm & Hn).
    destruct (IH (markNear peakMidis (harmonicOf fm n) used)) as (IHl & IHm & IHn).
    split; [congruence|]. split; [auto|].
    intros j n' [<-|Hn'] Hj Hu Hnear.
    + by apply IHm, Hn.
    + apply (IHn j n'); try done. by rewrite Hl.
Qed.

(** After a selection the mask has grown: it keeps what was used and adds
    every peak near a harmonic of the selected MIDI value. *)
Lemma markHarmonics_spec cfg peakMidis fm used :
  length (markHarmonics cfg peakMidis fm used) = length used /\
  (forall j, nth j used false = true ->
     nth j (markHarmonics cfg peakMidis fm used) false = true) /\
  (forall j n, In n (orders cfg) -> j < length peakMidis -> j < length used ->
     near (nth j peakMidis 0%Q) (harmonicOf fm n) = true ->
     nth j (markHarmonics cfg peakMidis fm used) false = true).
Proof. apply markHarmonics_fold. Qed.

End Marking.

(** *** Scores *)

Lemma maxScore_fold (l : list Q) (a : Q) :
  let r := fold_left (fun maxS x => if JS.gtb x maxS then x else maxS) l a in
  (a <= r)%Q /\ (forall x, In x l -> (x <= r)%Q) /\ (r = a \/ In r l).
Proof.
  revert a. induction l as [|y l IH]; intros a; simpl.
  - split; [lra|]. split; [intros x []|by left].
  - destruct (IH (if JS.gtb y a then y else a)) as (IH1 & IH2 & IH3).
    destruct (JS.gtb y a) eqn:E; [apply gtb_lt in E|apply gtb_le in E].
    + split; [lra|]. split; [|destruct IH3 as [->|?]; auto].
      intros x [<-|Hx]; [done|by apply IH2].
    + split; [done|]. split; [|tauto].
      intros x [<-|Hx]; [lra|by apply IH2].
Qed.

(** When peak [b] has the greatest raw score, and that is positive, its
    normalised score is 1 and the order of the scores is kept. *)
Lemma normalise_max (raw : list Q) b :
  b < length raw ->
  (0 < nth b raw 0)%Q ->
  (forall j, j < length raw -> (nth j raw 0 <= nth b raw 0)%Q) ->
  length (normalise raw) = length raw /\
  (forall j, j < length raw ->
     (nth j (normalise raw) 0 == nth j raw 0 / nth b raw 0)%Q).
Proof.
  intros Hb Hpos Hmax. unfold normalise, maxScore.
  destruct (maxScore_fold raw 0%Q) as (H0 & Hge & Hin).
  set (maxS := fold_left _ raw 0%Q) in *.
  assert (maxS == nth b raw 0)%Q as Hm.
  { assert (nth b raw 0 <= maxS)%Q by (apply Hge, nth_In; lia).
    destruct Hin as [Hz|Hin]; [rewrite Hz in *; lra|].
    apply (In_nth _ _ 0%Q) in Hin as (j & Hj & Hnth).
    specialize (Hmax j Hj). rewrite Hnth in Hmax. lra. }
  assert (JS.gtb maxS 0 = true) as -> by (apply gtb_lt; lra).
  split; [apply length_map|]. intros j Hj.
  rewrite (nth_indep _ 0%Q (0 / maxS)%Q) by (rewrite length_map; lia).
  rewrite (map_nth (fun x => x / maxS)%Q raw 0%Q j). by rewrite Hm.
Qed.

Lemma nth_map_seq {A} (f : nat -> A) n j d : j < n -> nth j (map f (seq 0 n)) d = f j.
Proof.
  intros Hj. rewrite nth_lookup, lookup_map_seq by done. done.
Qed.

Lemma near_refl (x : Q) : near x x = true.
Proof.
  apply ltb_lt. assert (x - x == 0)%Q as -> by ring. reflexivity.
Qed.

Lemma Qdiv_le_r (x y c : Q) : (0 < c)%Q -> (x <= y)%Q -> (x / c <= y / c)%Q.
Proof.
  intros Hc Hxy. unfold Qdiv. apply Qmult_le_r; [by apply Qinv_lt_0_compat|done].
Qed.

Lemma Qdiv_lt_r (x y c : Q) : (0 < c)%Q -> (x < y)%Q -> (x / c < y / c)%Q.
Proof.
  intros Hc Hxy. unfold Qdiv. apply Qmult_lt_r; [by apply Qinv_lt_0_compat|done].
Qed.

Section SieveProps.
Context {M : JSMath}.

Lemma rawScores_length cfg pm pe : length (rawScores cfg pm pe) = length pm.
Proof. unfold rawScores. by rewrite length_map, length_seq. Qed.

(** The fundamentals added by the selection loop come from peaks that
    were not used, and none lies near a harmonic of one selected before. *)
Lemma selectLoop_overtones cfg pm sc n used f :
  length used = length pm -> length sc = length pm ->
  maxFundamentals cfg <= length (fd_midis f) ->
  let r := selectLoop cfg pm sc n used f in
  exists sel : list nat,
    fd_count r = fd_count f + length sel /\
    take (fd_count r) (fd_midis r) =
      take (fd_count f) (fd_midis f) ++ map (fun i => nth i pm 0%Q) sel /\
    Forall (fun i => i < length pm /\ nth i used false = false) sel /\
    noOvertones cfg (map (fun i => nth i pm 0%Q) sel).
Proof.
  intros Hu Hsc. revert used f Hu. induction n as [|n IH]; intros used f Hu Hbuf; simpl.
  - exists []. simpl. rewrite app_nil_r. split; [lia|]. split; [done|].
    split; [constructor|done].
  - destruct (Nat.ltb_spec (fd_count f) (maxFundamentals cfg)) as [Hlt|Hge];
      [|exists []; simpl; rewrite app_nil_r; split; [lia|];
        split; [done|]; split; [constructor|done]].
    destruct (pickBest sc used) as [bi|] eqn:Epick;
      [|exists []; simpl; rewrite app_nil_r; split; [lia|];
        split; [done|]; split; [constructor|done]].
    apply pickBest_Some in Epick as [Hbl Hbi].
    set (fm := nth bi pm 0%Q).
    destruct (markHarmonics_spec cfg pm fm (<[bi := true]> used))
      as (Hlen & Hmono & Hmark).
    rewrite length_insert in Hlen, Hmark.
    match goal with |- context [selectLoop _ _ _ n ?u ?g] =>
      destruct (IH u g) as (sel & Hc & Ht & Hsel & Hno) end.
    { congruence. }
    { simpl. by rewrite length_insert. }
    simpl in Hc, Ht.
    exists (bi :: sel). simpl. split; [lia|]. split; [|split].
    + rewrite Ht. erewrite take_S_r by (apply list_lookup_insert_eq; lia).
      rewrite take_insert_ge by lia. by rewrite <- app_assoc.
    + constructor; [split; [lia|done]|].
      eapply Forall_impl; [exact Hsel|]. intros i [Hi Hui]. split; [done|].
      destruct (nth i used false) eqn:E; [|done].
      rewrite Hmono in Hui; [done|]. by apply nth_insert_true.
    + split; [|done]. intros g k Hg Hk.
      apply in_map_iff in Hg as (i & <- & Hi).
      rewrite Forall_forall in Hsel. apply list_elem_of_In in Hi.
      destruct (Hsel i Hi) as [Hil Hiu].
      destruct (near (nth i pm 0%Q) (harmonicOf fm k)) eqn:E; [|done].
      rewrite (Hmark i k) in Hiu; try done. lia.
Qed.

(** When peak [b] has the greatest raw score, the first among equals, and
    every other peak lies near one of its harmonics, the sieve selects
    peak [b] and nothing else. *)
Lemma sieve_single cfg pm pe buf b :
  let raw := rawScores cfg pm pe in
  b < length pm ->
  (0 < nth b raw 0)%Q ->
  (forall j, j < length pm -> (nth j raw 0 <= nth b raw 0)%Q) ->
  (forall j, j < b -> (nth j raw 0 < nth b raw 0)%Q) ->
  (forall j, j < length pm -> j <> b ->
     exists n, In n (orders cfg) /\
       near (nth j pm 0%Q) (harmonicOf (nth b pm 0%Q) n) = true) ->
  0 < maxFundamentals cfg ->
  sieve cfg pm pe buf =
    {| fd_midis := <[0 := nth b pm 0%Q]> buf; fd_count := 1 |}.
Proof.
  intros raw Hb Hpos Hmax Hfirst Hnear HmaxF.
  pose proof (rawScores_length cfg pm pe) as Hrl. fold raw in Hrl.
  destruct (normalise_max raw b) as (Hnl & Hn); [lia|done|..].
  { intros j Hj. apply Hmax. lia. }
  unfold sieve. fold raw. set (sc := normalise raw) in *.
  assert (nth b sc 0 == 1)%Q as Hb1.
  { rewrite Hn by lia. field. lra. }
  assert (pickBest sc (replicate (length pm) false) = Some b) as Hpick.
  { replace (length pm) with (length sc) by lia. apply pickBest_first_max.
    - lia.
    - rewrite Hb1. reflexivity.
    - intros j Hj. rewrite !Hn by lia. apply Qdiv_le_r; [done|]. apply Hmax. lia.
    - intros j Hj. rewrite !Hn by lia. apply Qdiv_lt_r; [done|]. by apply Hfirst. }
  set (fm := nth b pm 0%Q).
  set (used1 := markHarmonics cfg pm fm (<[b := true]> (replicate (length pm) false))).
  assert (pickBest sc used1 = None) as Hnone.
  { apply pickBest_all_used. intros i Hi.
    destruct (markHarmonics_spec cfg pm fm (<[b := true]> (replicate (length pm) false)))
      as (_ & Hmono & Hmark).
    rewrite length_insert, length_replicate in Hmark.
    destruct (decide (i = b)) as [->|Hne].
    - apply Hmono. rewrite nth_lookup, list_lookup_insert_eq; [done|].
      by rewrite length_replicate.
    - destruct (Hnear i ltac:(lia) Hne) as (n & Hn1 & Hn2).
      apply (Hmark i n); try done; lia. }
  destruct (maxFundamentals cfg) as [|k] eqn:Ek; [lia|].
  cbn [selectLoop fd_count fd_midis]. rewrite Ek.
  destruct (Nat.ltb_spec 0 (S k)); [|lia].
  rewrite Hpick. fold fm. fold used1.
  destruct k as [|k]; [done|]. cbn [selectLoop fd_count fd_midis]. rewrite Ek.
  destruct (Nat.ltb_spec 1 (S (S k))); [|done]. by rewrite Hnone.
Qed.

End SieveProps.

Lemma Qred_map_eq (l1 l2 : list Q) :
  map Qred l1 = map Qred l2 -> Forall2 Qeq l1 l2.
Proof.
  revert l2. induction l1 as [|x l1 IH]; intros [|y l2] H; try discriminate.
  - constructor.
  - injection H as Hxy H. constructor; [by apply Qred_eq_iff|by apply IH].
Qed.

Lemma normalise_length (l : list Q) : length (normalise l) = length l.
Proof. unfold normalise. destruct (JS.gtb _ _); [apply length_map|done]. Qed.

Section SieveClaim.
Context {M : JSMath}.

(** C3 (as amended). For peaks that are a fundamental with MIDI value in
    [24, 96] and its exact second, third and fourth harmonics, the sieve
    selects exactly one fundamental, the base peak, provided the base
    peak's harmonic-support score is positive and no other peak's score
    exceeds it.  For any peaks, no selected fundamental lies within 0.5
    semitones of a harmonic position (orders 2 to [numHarmonics]) of a
    fundamental selected before it: such peaks are marked used at the
    selection and never selected afterwards. *)
Theorem sieve_single_fundamental (cfg : Config) :
  4 <= numHarmonics cfg -> 0 < maxFundamentals cfg ->
  (forall (m : Q) (energies buf : list Q),
     let raw := rawScores cfg (harmonicSeries m) energies in
     (24 <= m)%Q -> (m <= 96)%Q ->
     length buf = maxFundamentals cfg ->
     (0 < nth 0 raw 0)%Q ->
     (forall j, j < 4 -> (nth j raw 0 <= nth 0 raw 0)%Q) ->
     let f := sieve cfg (harmonicSeries m) energies buf in
     fd_count f = 1 /\ take (fd_count f) (fd_midis f) = [m]) /\
  (forall peakMidis peakEnergies buf,
     length buf = maxFundamentals cfg ->
     let f := sieve cfg peakMidis peakEnergies buf in
     noOvertones cfg (take (fd_count f) (fd_midis f))).
Proof.
  intros HnH HmF. split.
  - intros m energies buf raw _ _ Hbuf Hpos Hmax f.
    unfold f. rewrite (sieve_single cfg (harmonicSeries m) energies buf 0).
    + simpl. split; [done|]. destruct buf; [simpl in Hbuf; lia|done].
    + simpl. lia.
    + exact Hpos.
    + exact Hmax.
    + intros j Hj. lia.
    + intros j Hj Hne. simpl in Hj. exists (S j). split.
      * apply in_seq. lia.
      * destruct j as [|[|[|[|j]]]]; try lia; apply near_refl.
    + exact HmF.
  - intros pm pe buf Hbuf f.
    destruct (selectLoop_overtones cfg pm (normalise (rawScores cfg pm pe))
                (maxFundamentals cfg) (replicate (length pm) false)
                {| fd_midis := buf; fd_count := 0 |}) as (sel & _ & Ht & _ & Hno).
    + apply length_replicate.
    + by rewrite normalise_length, rawScores_length.
    + simpl. lia.
    + fold (sieve cfg pm pe buf) in Ht. fold f in Ht. by rewrite Ht.
Qed.

End SieveClaim.

Lemma sieve_single_fundamental_witness :
  let cfg := mkConfig defaultOptions in
  let f := sieve (M := FixedMath.math) cfg (harmonicSeries (M := FixedMath.math) 48)
             [100; 50; 30; 20]%Q (replicate 8 0%Q) in
  fd_count f = 1 /\ take (fd_count f) (fd_midis f) = [48%Q].
Proof.
  intros cfg.
  apply (proj1 (sieve_single_fundamental (M := FixedMath.math) cfg
                  ltac:(simpl; lia) ltac:(simpl; lia))).
  - discriminate.
  - discriminate.
  - reflexivity.
  - vm_compute. reflexivity.
  - intros j Hj. destruct j as [|[|[|[|j]]]]; [vm_compute; discriminate..|lia].
Defined.

(** C3 fails as stated: in [harmonicFrame] the peaks are at bins 50, 100,
    150 and 200, the base with its exact second, third and fourth
    harmonics, the base lies in [24, 96], and the frame yields two
    fundamentals, the second harmonic first and the base after it; the
    sieve does the same on the MIDI values of a harmonic series. *)
Lemma sieve_two_fundamentals :
  let cfg := mkConfig defaultOptions in
  let d := (loop (M := FixedMath.math) cfg (initDetector cfg hz48k) harmonicFrame).1 in
  let f := sieve (M := FixedMath.math) cfg (harmonicSeries (M := FixedMath.math) 48)
             [10; 200; 10; 10]%Q (replicate 8 0%Q) in
  (peakCount d = 4 /\
   Forall2 Qeq (take 4 (peakBins d)) [50; 100; 150; 200]%Q /\
   take 4 (peakEnergies d) = [10; 200; 10; 10]%Q /\
   (24 <= binToMidi (M := FixedMath.math) 50 hz48k <= 96)%Q /\
   fundCount d = 2 /\
   Forall2 Qeq (take 2 (fundMidis d))
     [binToMidi (M := FixedMath.math) 100 hz48k;
      binToMidi (M := FixedMath.math) 50 hz48k]) /\
  (fd_count f = 2 /\
   Forall2 Qeq (take 2 (fd_midis f)) [harmonicOf (M := FixedMath.math) 48 2; 48%Q]).
Proof.
  intros cfg d f.
  assert (peakCount d = 4 /\
          map Qred (take 4 (peakBins d)) = map Qred [50; 100; 150; 200]%Q /\
          take 4 (peakEnergies d) = [10; 200; 10; 10]%Q /\
          fundCount d = 2 /\
          map Qred (take 2 (fundMidis d)) =
            map Qred [binToMidi (M := FixedMath.math) 100 hz48k;
                      binToMidi (M := FixedMath.math) 50 hz48k])
    as (H1 & H2 & H3 & H4 & H5) by (vm_compute; repeat split).
  assert (Qle_bool 24 (binToMidi (M := FixedMath.math) 50 hz48k)
          && Qle_bool (binToMidi (M := FixedMath.math) 50 hz48k) 96 = true)
    as [H6 H7]%andb_true_iff by (vm_compute; reflexivity).
  apply Qle_bool_iff in H6, H7.
  assert (fd_count f = 2 /\
          map Qred (take 2 (fd_midis f)) =
            map Qred [harmonicOf (M := FixedMath.math) 48 2; 48%Q])
    as (H8 & H9) by (vm_compute; repeat split).
  auto 10 using Qred_map_eq.
Qed.


(** * Part IV: further properties *)

(** ** Note names *)

Lemma uint_numeric d : numeric (NilEmpty.string_of_uint d) = true.
Proof. induction d; simpl; auto. Qed.

Lemma showZ_numeric a : numeric (showZ a) = true.
Proof.
  unfold showZ. destruct (Z.to_int a); simpl; apply uint_numeric.
Qed.

Lemma noteAt_mod (m : Z) :
  (0 <= m)%Z -> exists name, noteAt (JS.rem m 12) = Some name /\
    NOTE_NAMES !! Z.to_nat (m mod 12) = Some name.
Proof.
  intros Hm. unfold JS.rem. rewrite Z.rem_mod_nonneg by lia.
  pose proof (Z.mod_pos_bound m 12 ltac:(lia)) as Hb.
  unfold noteAt. destruct (Z.ltb_spec (m mod 12) 0); [lia|].
  assert (Z.to_nat (m mod 12) < length NOTE_NAMES) as Hlt by (simpl; lia).
  apply lookup_lt_is_Some_2 in Hlt as [name Hname]. eauto.
Qed.

Lemma midiToNote_cases (midi : Q) :
  ((JS.round midi < 0)%Z ->
     forall w, midiToNote midi w = Some EmptyString) /\
  ((0 <= JS.round midi)%Z ->
     exists name,
       NOTE_NAMES !! Z.to_nat (JS.round midi mod 12) = Some name /\
       noteAt (midiToPitchClass midi) = Some name /\
       midiToNote midi false = Some name /\
       midiToNote midi true =
         Some (name ++ showZ (JS.round midi / 12 - 1))%string).
Proof.
  unfold midiToNote, midiToPitchClass. split; intros Hm.
  - intros w. destruct (Z.ltb_spec (JS.round midi) 0); [done|lia].
  - destruct (Z.ltb_spec (JS.round midi) 0); [lia|].
    destruct (noteAt_mod (JS.round midi) Hm) as (name & Hn & Hl).
    exists name. rewrite Hn. done.
Qed.

(** X1. [midiToNote] returns the empty string when the MIDI value rounds
    below zero; when it rounds to an integer from 0 to below [2^53], it
    finds a name, the one at index [round(midi) mod 12], which is also the
    name of [midiToPitchClass(midi)], and with the octave it appends
    [floor(round(midi) / 12) - 1]. *)
Theorem midiToNote_spec (midi : Q) :
  ((JS.round midi < 0)%Z ->
     forall w, midiToNote midi w = Some EmptyString) /\
  ((0 <= JS.round midi < 2 ^ 53)%Z ->
     exists name,
       NOTE_NAMES !! Z.to_nat (JS.round midi mod 12) = Some name /\
       noteAt (midiToPitchClass midi) = Some name /\
       midiToNote midi false = Some name /\
       midiToNote midi true =
         Some (name ++ showZ (JS.round midi / 12 - 1))%string).
Proof.
  destruct (midiToNote_cases midi) as [Hneg Hpos].
  split; [exact Hneg|]. intros [Hm _]. exact (Hpos Hm).
Qed.

Lemma midiToNote_spec_witness :
  midiToNote 69 true = Some "A4"%string /\
  midiToNote (- (3)) true = Some EmptyString.
Proof.
  split.
  - destruct (proj2 (midiToNote_spec 69)
               ltac:(split; [vm_compute; discriminate|vm_compute; reflexivity]))
      as (name & Hn & _ & _ & ->).
    vm_compute in Hn. injection Hn as <-. reflexivity.
  - apply (proj1 (midiToNote_spec (- (3))) ltac:(vm_compute; reflexivity)).
Defined.

Lemma name_octave_split (r1 r2 : nat) (n1 n2 s1 s2 : string) :
  NOTE_NAMES !! r1 = Some n1 -> NOTE_NAMES !! r2 = Some n2 ->
  numeric s1 = true -> numeric s2 = true ->
  s1 <> EmptyString -> s2 <> EmptyString ->
  (n1 ++ s1)%string = (n2 ++ s2)%string -> r1 = r2 /\ s1 = s2.
Proof.
  intros H1 H2 Hs1 Hs2 He1 He2 H.
  destruct s1 as [|c1 t1]; [done|]. destruct s2 as [|c2 t2]; [done|].
  simpl in Hs1, Hs2.
  apply andb_true_iff in Hs1 as [Hc1 _]. apply andb_true_iff in Hs2 as [Hc2 _].
  assert (r1 < 12) as Hr1 by (apply lookup_lt_Some in H1; exact H1).
  assert (r2 < 12) as Hr2 by (apply lookup_lt_Some in H2; exact H2).
  destruct r1 as [|[|[|[|[|[|[|[|[|[|[|[|r1]]]]]]]]]]]]; try lia;
    simpl in H1; injection H1 as <-;
    (destruct r2 as [|[|[|[|[|[|[|[|[|[|[|[|r2]]]]]]]]]]]]; try lia;
     simpl in H2; injection H2 as <-);
    simpl in H; injection H; intros; subst; try discriminate; done.
Qed.

(** X2. With the octave, the name determines the rounded MIDI value: two
    MIDI values that do not round below zero and have the same name with
    octave round to the same integer. *)
Theorem midiToNote_octave_inj (m1 m2 : Q) :
  (0 <= JS.round m1)%Z -> (0 <= JS.round m2)%Z ->
  midiToNote m1 true = midiToNote m2 true -> JS.round m1 = JS.round m2.
Proof.
  intros H1 H2 H.
  destruct (proj2 (midiToNote_cases m1) H1) as (n1 & Hn1 & _ & _ & E1).
  destruct (proj2 (midiToNote_cases m2) H2) as (n2 & Hn2 & _ & _ & E2).
  rewrite E1, E2 in H. injection H as H.
  apply (name_octave_split _ _ _ _ _ _ Hn1 Hn2) in H as [Hr Ho];
    try apply showZ_numeric; try apply showZ_nonempty.
  apply showZ_inj in Ho.
  pose proof (Z.mod_pos_bound (JS.round m1) 12 ltac:(lia)).
  pose proof (Z.mod_pos_bound (JS.round m2) 12 ltac:(lia)).
  apply (f_equal Z.of_nat) in Hr. rewrite !Z2Nat.id in Hr by lia.
  rewrite (Z.div_mod (JS.round m1) 12), (Z.div_mod (JS.round m2) 12) by lia.
  lia.
Qed.

Lemma midiToNote_octave_inj_witness : JS.round (601 # 10) = JS.round (599 # 10).
Proof.
  apply midiToNote_octave_inj;
    [vm_compute; discriminate | vm_compute; discriminate | vm_compute; reflexivity].
Defined.

(** ** Colours *)

Lemma hueOf_cases (pc : Z) :
  (0 <= pc <= 11)%Z -> hueOf pc = ((420 - 30 * pc) mod 360)%Z /\
  (hueOf pc = 420 - 30 * pc \/ hueOf pc = 60 - 30 * pc)%Z /\
  (0 <= hueOf pc < 360)%Z.
Proof.
  intros Hpc. unfold hueOf, JS.rem. rewrite Z.rem_mod_nonneg by lia.
  replace (360 - pc * 30 + 60)%Z with (420 - 30 * pc)%Z by lia.
  pose proof (Z.mod_pos_bound (420 - 30 * pc) 360 ltac:(lia)) as Hb.
  split; [done|]. split; [|done].
  destruct (Z.le_gt_cases 360 (420 - 30 * pc)) as [Hge|Hlt].
  - right. rewrite <- (Z.mod_unique_pos (420 - 30 * pc) 360 1 (60 - 30 * pc)); lia.
  - left. apply Z.mod_small. lia.
Qed.

(** X3. For a pitch class in [0, 11] the hue is [(420 - 30 pc) mod 360], a
    value in [0, 360); distinct pitch classes get distinct hues, and so
    distinct colour strings for the same saturation, lightness and alpha. *)
Theorem pitchClassToColor_inj (pc1 pc2 : Z) (s l a : option Z) :
  (0 <= pc1 <= 11)%Z -> (0 <= pc2 <= 11)%Z ->
  (0 <= hueOf pc1 < 360)%Z /\
  hueOf pc1 = ((420 - 30 * pc1) mod 360)%Z /\
  (hueOf pc1 = hueOf pc2 -> pc1 = pc2) /\
  (pitchClassToColor pc1 s l a = pitchClassToColor pc2 s l a -> pc1 = pc2).
Proof.
  intros H1 H2.
  destruct (hueOf_cases pc1 H1) as (Hm1 & Hc1 & Hb1).
  destruct (hueOf_cases pc2 H2) as (Hm2 & Hc2 & Hb2).
  assert (hueOf pc1 = hueOf pc2 -> pc1 = pc2) as Hinj by lia.
  split; [done|]. split; [done|]. split; [done|].
  unfold pitchClassToColor. intros H.
  change ("hsla(" ++ ?x)%string with (String "h" (String "s" (String "l"
    (String "a" (String "(" x))))) in H.
  injection H as H.
  apply comma_split in H as [H _]; try apply showZ_noComma.
  apply Hinj. by apply showZ_inj.
Qed.

Lemma pitchClassToColor_inj_witness :
  hueOf 2 = 0%Z /\ pitchClassToColor 0 None None None = "hsla(60,80%,50%,1)"%string.
Proof.
  destruct (pitchClassToColor_inj 2 0 None None None ltac:(lia) ltac:(lia))
    as (_ & -> & _).
  split; reflexivity.
Defined.

(** ** Pause and stop *)

Section ControlProps.
Context {M : JSMath}.

Lemma loop_idle cfg d raw :
  running d = false \/ paused d = true -> loop cfg d raw = (d, []).
Proof. unfold loop. intros [-> | ->]; [done|]. by rewrite orb_true_r. Qed.

(** X4. A detector that is stopped or paused ignores every frame: its
    state is unchanged and no callback is called. *)
Theorem idle_ignores_frames (cfg : Config) (d : Detector) (frames : list (list N)) :
  running d = false \/ paused d = true -> run cfg d frames = (d, []).
Proof.
  intros Hidle. induction frames as [|raw rest IH]; simpl; [done|].
  by rewrite loop_idle, IH.
Qed.

Lemma withPaused_stop d b b' :
  withPaused (withPaused (stop d) b) b' = withPaused (stop d) b'.
Proof. reflexivity. Qed.

(** X5. [stop] is final as long as [start] is not called again: whatever
    frames arrive and however often [togglePause] or [stop] is called
    afterwards, no callback is called and nothing but the paused flag
    changes. *)
Theorem stop_is_final (cfg : Config) (d : Detector) (actions : list Action) :
  (runActions cfg (stop d) actions).2 = [] /\
  exists b, (runActions cfg (stop d) actions).1 = withPaused (stop d) b.
Proof.
  assert (forall b, (runActions cfg (withPaused (stop d) b) actions).2 = [] /\
            exists b', (runActions cfg (withPaused (stop d) b) actions).1 =
                       withPaused (stop d) b') as Hgen.
  { induction actions as [|a rest IH]; intros b; simpl; [eauto|].
    assert (exists b1, act cfg (withPaused (stop d) b) a = (withPaused (stop d) b1, []))
      as [b1 ->].
    { destruct a as [raw|raw|]; simpl.
      - exists b. apply loop_idle. by left.
      - unfold togglePause. simpl. rewrite andb_false_r. simpl. eauto.
      - exists b. reflexivity. }
    destruct (IH b1) as [He Hd]. destruct (runActions _ _ rest). simpl in *.
    by subst. }
  specialize (Hgen (paused d)).
  replace (withPaused (stop d) (paused d)) with (stop d) in Hgen by (by destruct d).
  exact Hgen.
Qed.

(** X6. [togglePause] returns the new paused flag, the negation of the old
    one; pausing calls nothing and changes only the flag; resuming a running
    detector processes the current frame at once; two calls restore the
    flag. *)
Theorem togglePause_spec (cfg : Config) (d : Detector) (raw raw' : list N) :
  let r := togglePause cfg d raw in
  r.2 = negb (paused d) /\
  paused r.1.1 = negb (paused d) /\
  (paused d = false -> r.1 = (withPaused d true, [])) /\
  (paused d = true -> running d = true -> r.1 = loop cfg (withPaused d false) raw) /\
  paused (togglePause cfg r.1.1 raw').1.1 = paused d.
Proof.
  assert (forall d0 raw0,
            (togglePause cfg d0 raw0).2 = negb (paused d0) /\
            paused (togglePause cfg d0 raw0).1.1 = negb (paused d0)) as Hflag.
  { intros d0 raw0. unfold togglePause. cbn [paused running withPaused].
    destruct (negb (negb (paused d0)) && running d0); [|done].
    pose proof (loop_flags cfg (withPaused d0 (negb (paused d0))) raw0) as [_ Hp].
    destruct (loop _ _ _) as [d2 ev]. simpl in *. by rewrite Hp. }
  intros r. destruct (Hflag d raw) as [H1 H2].
  split; [done|]. split; [done|]. split; [|split].
  - intros Hp. unfold r, togglePause. by rewrite Hp.
  - intros Hp Hr. unfold r, togglePause. cbn [paused running withPaused].
    rewrite Hp, Hr. simpl. by destruct (loop _ _ _).
  - destruct (Hflag r.1.1 raw') as [_ ->]. fold r in H2. rewrite H2. apply negb_involutive.
Qed.

End ControlProps.

Lemma idle_ignores_frames_witness :
  let cfg := mkConfig defaultOptions in
  let d := withPaused (initDetector cfg hz48k) true in
  run (M := FixedMath.math) cfg d [triadFrame; harmonicFrame] = (d, []).
Proof.
  intros cfg d. apply idle_ignores_frames. right. reflexivity.
Defined.

Lemma togglePause_spec_witness :
  let cfg := mkConfig defaultOptions in
  let d := initDetector cfg hz48k in
  (togglePause (M := FixedMath.math) cfg d silence).1 = (withPaused d true, []).
Proof.
  intros cfg d.
  apply (proj1 (proj2 (proj2 (togglePause_spec (M := FixedMath.math) cfg d silence silence)))).
  reflexivity.
Defined.

(** ** Reading a frame *)

Lemma readFrame_prefix raw spec n :
  n <= length spec ->
  fold_left (readStep raw) (seq 0 n) (spec, 0%Q) =
    (map (rawAt raw) (seq 0 n) ++ drop n spec,
     maxScore (map (rawAt raw) (seq 0 n))).
Proof.
  induction n as [|n IH]; intros Hn.
  - simpl. by rewrite drop_0.
  - rewrite seq_S, fold_left_app, IH by lia. simpl.
    rewrite map_app. unfold maxScore. rewrite fold_left_app. simpl. f_equal.
    destruct (lookup_lt_is_Some_2 spec n ltac:(lia)) as [x Hx].
    rewrite (drop_S _ _ _ Hx).
    rewrite insert_app_r_alt by (rewrite length_map, length_seq; lia).
    rewrite length_map, length_seq, Nat.sub_diag. simpl.
    by rewrite <- app_assoc.
Qed.

Lemma rawAt_nonneg raw i : (0 <= rawAt raw i)%Q.
Proof.
  unfold rawAt. change 0%Q with (inject_Z 0). rewrite <- Zle_Qle. lia.
Qed.

(** X7. Reading a frame of at least [binCount] samples into the spectrum
    buffer leaves exactly the first [binCount] samples there, and the
    maximum found is at least every one of them and is zero or one of
    them. *)
Theorem readFrame_spec (cfg : Config) (spec : list Q) (raw : list N) :
  length spec = binCount cfg -> binCount cfg <= length raw ->
  let r := readFrame cfg spec raw in
  r.1 = map (rawAt raw) (seq 0 (binCount cfg)) /\
  (forall i, i < binCount cfg -> (rawAt raw i <= r.2)%Q) /\
  (r.2 = 0%Q \/ exists i, i < binCount cfg /\ r.2 = rawAt raw i).
Proof.
  intros Hs _ r. unfold r, readFrame. rewrite readFrame_prefix by lia. simpl.
  rewrite <- Hs, drop_all, app_nil_r. split; [done|].
  destruct (maxScore_fold (map (rawAt raw) (seq 0 (length spec))) 0%Q)
    as (_ & Hge & Hin).
  fold (maxScore (map (rawAt raw) (seq 0 (length spec)))) in Hge, Hin.
  split.
  - intros i Hi. apply Hge, in_map, in_seq. lia.
  - destruct Hin as [->|Hin]; [by left|]. right.
    apply in_map_iff in Hin as (i & Hi & Hin). apply in_seq in Hin.
    exists i. split; [lia|done].
Qed.

Lemma readFrame_spec_witness :
  let cfg := mkConfig {| opt_fftSize := None; opt_binCount := Some 4;
                         opt_stabilityFrames := None |} in
  (readFrame cfg [9; 9; 9; 9]%Q [3; 7; 2; 5; 8]%N).1 = [3; 7; 2; 5]%Q.
Proof.
  intros cfg.
  apply (readFrame_spec cfg [9; 9; 9; 9]%Q [3; 7; 2; 5; 8]%N);
    [reflexivity | simpl; lia].
Defined.

(** ** Selection in the sieve *)

Lemma pickBest_Some_score scores used bi :
  pickBest scores used = Some bi ->
  bi < length scores /\ nth bi used false = false /\ (3 # 10 < nth bi scores 0)%Q.
Proof.
  rewrite pickBest_better. intros (k & s & Hk & Hs & _)%fold_better_Some.
  apply list_elem_of_lookup_2, unusedScores_elem in Hk as (? & ? & ->). done.
Qed.

Lemma normalise_zero (raw : list Q) i :
  i < length raw -> nth i raw 0%Q = 0%Q -> (nth i (normalise raw) 0 == 0)%Q.
Proof.
  intros Hi Hz. unfold normalise. destruct (JS.gtb _ _) eqn:E.
  - apply gtb_lt in E.
    rewrite (nth_indep _ 0%Q (0 / maxScore raw)%Q) by (rewrite length_map; lia).
    rewrite (map_nth (fun x => x / maxScore raw)%Q raw 0%Q i), Hz.
    field. lra.
  - by rewrite Hz.
Qed.

Section Selection.
Context {M : JSMath}.

Lemma rawScore_eligible cfg pm pe i :
  rawScore cfg pm pe i <> 0%Q -> (24 <= nth i pm 0 <= 96)%Q.
Proof.
  unfold rawScore. destruct (JS.ltb _ _ || JS.gtb _ _) eqn:E; [done|].
  intros _. apply orb_false_elim in E as [E1 E2].
  apply ltb_ge in E1. apply gtb_le in E2. done.
Qed.

(** The selection loop adds distinct, unused peaks whose score is above
    0.3, and never counts past [maxFundamentals]. *)
Lemma selectLoop_selection cfg pm sc n used f :
  length used = length pm -> length sc = length pm ->
  maxFundamentals cfg <= length (fd_midis f) ->
  let r := selectLoop cfg pm sc n used f in
  exists sel : list nat,
    fd_count r = fd_count f + length sel /\
    take (fd_count r) (fd_midis r) =
      take (fd_count f) (fd_midis f) ++ map (fun i => nth i pm 0%Q) sel /\
    length (fd_midis r) = length (fd_midis f) /\
    NoDup sel /\
    Forall (fun i => i < length pm /\ nth i used false = false /\
                     (3 # 10 < nth i sc 0)%Q) sel /\
    fd_count f + length sel <= Nat.max (fd_count f) (maxFundamentals cfg).
Proof.
  intros Hu Hsc. revert used f Hu.
  induction n as [|n IH]; intros used f Hu Hbuf; simpl.
  - exists []. simpl. rewrite app_nil_r.
    repeat split; try done; try lia; constructor.
  - destruct (Nat.ltb_spec (fd_count f) (maxFundamentals cfg)) as [Hlt|Hge];
      [|exists []; simpl; rewrite app_nil_r;
        repeat split; try done; try lia; constructor].
    destruct (pickBest sc used) as [bi|] eqn:Epick;
      [|exists []; simpl; rewrite app_nil_r;
        repeat split; try done; try lia; constructor].
    apply pickBest_Some_score in Epick as (Hbl & Hbi & Hbs).
    set (fm := nth bi pm 0%Q).
    destruct (markHarmonics_spec cfg pm fm (<[bi := true]> used))
      as (Hlen & Hmono & _).
    rewrite length_insert in Hlen.
    match goal with |- context [selectLoop _ _ _ n ?u ?g] =>
      destruct (IH u g) as (sel & Hc & Ht & Hl & Hnd & Hsel & Hmax) end.
    { congruence. }
    { simpl. by rewrite length_insert. }
    simpl in Hc, Ht, Hl, Hmax. rewrite length_insert in Hl.
    exists (bi :: sel). simpl.
    split; [lia|]. split; [|split; [done|split; [|split]]].
    + rewrite Ht. erewrite take_S_r by (apply list_lookup_insert_eq; lia).
      rewrite take_insert_ge by lia. by rewrite <- app_assoc.
    + constructor; [|done]. intros Hin.
      rewrite Forall_forall in Hsel. destruct (Hsel bi Hin) as (_ & Hfalse & _).
      rewrite Hmono in Hfalse; [done|].
      rewrite nth_lookup, list_lookup_insert_eq; [done|lia].
    + constructor; [split; [lia|done]|].
      eapply Forall_impl; [exact Hsel|]. intros i (Hi & Hui & Hs).
      split; [done|]. split; [|done].
      destruct (nth i used false) eqn:E; [|done].
      rewrite Hmono in Hui; [done|]. by apply nth_insert_true.
    + lia.
Qed.

Lemma sieve_selected (cfg : Config) (peakMidis peakEnergies buf : list Q) :
  length buf = maxFundamentals cfg ->
  let f := sieve cfg peakMidis peakEnergies buf in
  fd_count f <= maxFundamentals cfg /\
  fd_count f <= length peakMidis /\
  length (fd_midis f) = length buf /\
  exists sel : list nat,
    NoDup sel /\
    take (fd_count f) (fd_midis f) = map (fun i => nth i peakMidis 0%Q) sel /\
    Forall (fun i => i < length peakMidis /\ (24 <= nth i peakMidis 0 <= 96)%Q) sel.
Proof.
  intros Hbuf f.
  destruct (selectLoop_selection cfg peakMidis
              (normalise (rawScores cfg peakMidis peakEnergies))
              (maxFundamentals cfg) (replicate (length peakMidis) false)
              {| fd_midis := buf; fd_count := 0 |})
    as (sel & Hc & Ht & Hl & Hnd & Hsel & Hmax).
  { apply length_replicate. }
  { by rewrite normalise_length, rawScores_length. }
  { simpl. lia. }
  fold (sieve cfg peakMidis peakEnergies buf) in Hc, Ht, Hl. fold f in Hc, Ht, Hl.
  simpl in Hc, Ht, Hl, Hmax.
  assert (Forall (fun i => i < length peakMidis /\
                           (24 <= nth i peakMidis 0 <= 96)%Q) sel) as Hrange.
  { eapply Forall_impl; [exact Hsel|]. intros i (Hi & _ & Hs).
    split; [done|]. apply (rawScore_eligible cfg peakMidis peakEnergies).
    intros Hz.
    assert (nth i (rawScores cfg peakMidis peakEnergies) 0%Q = 0%Q) as Hraw.
    { unfold rawScores. by rewrite nth_map_seq. }
    apply normalise_zero in Hraw; [lra|]. by rewrite rawScores_length. }
  assert (length sel <= length (seq 0 (length peakMidis))) as Hle.
  { apply NoDup_incl_length; [by apply NoDup_ListNoDup|].
    intros i Hi. apply in_seq. rewrite Forall_forall in Hrange.
    apply list_elem_of_In in Hi. destruct (Hrange i Hi). lia. }
  rewrite length_seq in Hle.
  split; [lia|]. split; [lia|]. split; [done|eauto].
Qed.

(** X8. The sieve reports at most [maxFundamentals] fundamentals, each the
    MIDI value of a different peak, and every one of them lies in
    [24, 96]; the buffer keeps its length. *)
Theorem sieve_fundamentals (cfg : Config) (peakMidis peakEnergies buf : list Q) :
  length buf = maxFundamentals cfg ->
  let f := sieve cfg peakMidis peakEnergies buf in
  fd_count f <= maxFundamentals cfg /\
  fd_count f <= length peakMidis /\
  length (fd_midis f) = length buf /\
  exists sel : list nat,
    NoDup sel /\
    take (fd_count f) (fd_midis f) = map (fun i => nth i peakMidis 0%Q) sel /\
    Forall (fun i => i < length peakMidis /\ (24 <= nth i peakMidis 0 <= 96)%Q) sel.
Proof. exact (sieve_selected cfg peakMidis peakEnergies buf). Qed.

End Selection.

Lemma sieve_fundamentals_witness :
  let cfg := mkConfig defaultOptions in
  let f := sieve (M := FixedMath.math) cfg [20; 48; 60; 100]%Q [9; 9; 9; 9]%Q
             (replicate 8 0%Q) in
  fd_count f <= 8 /\ fd_count f <= 4.
Proof.
  intros cfg f.
  destruct (sieve_fundamentals (M := FixedMath.math) cfg [20; 48; 60; 100]%Q
              [9; 9; 9; 9]%Q (replicate 8 0%Q) ltac:(reflexivity))
    as (H1 & H2 & _).
  split; [exact H1|exact H2].
Defined.

(** ** One frame, stage by stage *)

Lemma peakScan_lengths spec threshold maxP n i p :
  let r := peakScan spec threshold maxP n i p in
  length (pk_bins r) = length (pk_bins p) /\
  length (pk_energies r) = length (pk_energies p) /\
  (pk_count p <= maxP -> pk_count r <= maxP).
Proof.
  revert i p. induction n as [|n IH]; intros i p; simpl; [done|].
  destruct (Nat.ltb_spec (pk_count p) maxP) as [Hlt|Hge]; [|done].
  destruct (IH (S i) (peakStep spec threshold i p)) as (Hb & He & Hc).
  unfold peakStep in *. destruct (isPeak spec threshold i); simpl in *.
  - rewrite length_insert in Hb, He. split; [done|]. split; [done|].
    intros _. apply Hc. lia.
  - done.
Qed.

Lemma readFrame_length cfg spec raw :
  length (readFrame cfg spec raw).1 = length spec.
Proof.
  unfold readFrame. generalize (seq 0 (binCount cfg)) as idxs.
  intros idxs. generalize 0%Q as maxE. revert spec.
  induction idxs as [|i idxs IH]; intros spec maxE; simpl; [done|].
  by rewrite IH, length_insert.
Qed.

Section Stages.
Context {M : JSMath}.

(** What a running, unpaused detector does with a frame, in the order of
    the source. *)
Lemma loop_stages cfg d raw :
  running d = true -> paused d = false ->
  let sm := readFrame cfg (spectrum d) raw in
  let nf := updateNoiseFloor (noiseFloor d) (floorSample cfg sm.1 sm.2) in
  let pk := findPeaks cfg sm.1 (thresholdOf nf) (peakBins d) (peakEnergies d) in
  let fd := findFundamentals cfg (hzPerBin d) pk (fundMidis d) in
  let pcs := pitchClassesOf fd in
  let hist := pushHistory (stabilityFrames cfg) (history d) (joinNums pcs) in
  let st := isStable (stabilityFrames cfg) hist in
  let cs := chordStage st pcs (lastChord d) in
  loop cfg d raw =
    ({| hzPerBin := hzPerBin d; spectrum := sm.1; noiseFloor := nf;
        peakBins := pk_bins pk; peakEnergies := pk_energies pk;
        fundMidis := fd_midis fd; peakCount := pk_count pk;
        fundCount := fd_count fd; history := hist; stable := st;
        lastChord := cs.1; running := true; paused := false |},
     cs.2 ++
     [OnUpdate {| u_spectrum := sm.1; u_peakBins := pk_bins pk;
                  u_peakEnergies := pk_energies pk; u_peakCount := pk_count pk;
                  u_fundMidis := fd_midis fd; u_fundCount := fd_count fd;
                  u_pitchClasses := pcs; u_stable := st; u_chord := cs.1;
                  u_maxEnergy := sm.2; u_threshold := thresholdOf nf |}]).
Proof.
  intros Hr Hp. unfold loop. rewrite Hr, Hp. simpl.
  destruct (readFrame cfg (spectrum d) raw) as [spec maxE]. simpl.
  by destruct (chordStage _ _ _).
Qed.

Lemma findFundamentals_spec cfg hz pk buf :
  length buf = maxFundamentals cfg -> pk_count pk <= length (pk_bins pk) ->
  let f := findFundamentals cfg hz pk buf in
  fd_count f <= maxFundamentals cfg /\
  fd_count f <= pk_count pk /\
  length (fd_midis f) = length buf /\
  Forall (fun m => (24 <= m <= 96)%Q) (take (fd_count f) (fd_midis f)).
Proof.
  intros Hbuf Hpk f. unfold f, findFundamentals.
  destruct (Nat.ltb_spec 0 (pk_count pk)); [|simpl; repeat split; try lia; constructor].
  match goal with |- context [sieve cfg ?pm ?pe buf] =>
    destruct (sieve_selected cfg pm pe buf Hbuf)
      as (H1 & H2 & H3 & sel & _ & Ht & Hsel) end.
  rewrite length_map, length_take in H2.
  split; [done|]. split; [lia|]. split; [done|].
  rewrite Ht. apply Forall_forall. intros m Hm.
  apply list_elem_of_In, in_map_iff in Hm as (i & <- & Hi).
  rewrite Forall_forall in Hsel. apply list_elem_of_In in Hi.
  by destruct (Hsel i Hi).
Qed.

Lemma loop_wf cfg d raw : wfDetector cfg d -> wfDetector cfg (loop cfg d raw).1.
Proof.
  intros Hwf. destruct (running d) eqn:Hr; [|by rewrite loop_idle by (by left)].
  destruct (paused d) eqn:Hp; [by rewrite loop_idle by (by right)|].
  rewrite (loop_stages cfg d raw Hr Hp).
  destruct Hwf as (Hs & Hb & He & Hf & _).
  unfold wfDetector. cbn [fst spectrum peakBins peakEnergies fundMidis peakCount fundCount].
  match goal with |- context [findPeaks cfg ?sp ?th ?b ?e] =>
    pose proof (peakScan_lengths sp th (maxPeaks cfg) (binCount cfg - 1 - 1) 1
                  {| pk_bins := b; pk_energies := e; pk_count := 0 |}) as (Hpb & Hpe & Hpc);
    fold (findPeaks cfg sp th b e) in Hpb, Hpe, Hpc; set (pk := findPeaks cfg sp th b e) in * end.
  simpl in Hpb, Hpe, Hpc.
  destruct (findFundamentals_spec cfg (hzPerBin d) pk (fundMidis d) Hf)
    as (Hf1 & Hf2 & Hf3 & _); [lia|].
  rewrite readFrame_length.
  repeat split; try lia; congruence.
Qed.

End Stages.

Lemma midiToPitchClass_range (m : Q) :
  (24 <= m)%Q -> (0 <= midiToPitchClass m <= 11)%Z.
Proof.
  intros Hm. unfold midiToPitchClass, JS.rem.
  pose proof (round_nonneg m ltac:(lra)).
  rewrite Z.rem_mod_nonneg by lia.
  pose proof (Z.mod_pos_bound (JS.round m) 12 ltac:(lia)). lia.
Qed.

Lemma initDetector_wf cfg hz : wfDetector cfg (initDetector cfg hz).
Proof.
  unfold wfDetector, initDetector. simpl.
  rewrite !length_replicate. repeat split; lia.
Qed.

Section Frames.
Context {M : JSMath}.

(** X9. From the initial state, whatever frames arrive and whenever
    [togglePause] and [stop] are called, the reused buffers keep their
    capacities ([binCount], [maxPeaks], [maxFundamentals]) and the counts
    stay within them, with no more fundamentals than peaks. *)
Theorem detector_buffers (cfg : Config) (hz : Q) (actions : list Action) :
  wfDetector cfg (runActions cfg (initDetector cfg hz) actions).1.
Proof.
  assert (forall d, wfDetector cfg d -> wfDetector cfg (runActions cfg d actions).1)
    as Hgen.
  { induction actions as [|a rest IH]; intros d Hwf; simpl; [done|].
    assert (wfDetector cfg (act cfg d a).1) as Hwf1.
    { destruct a as [raw|raw|]; simpl.
      - by apply loop_wf.
      - unfold togglePause.
        assert (wfDetector cfg (withPaused d (negb (paused d)))) as Hwp by exact Hwf.
        destruct (negb _ && _); [|done].
        pose proof (loop_wf cfg _ raw Hwp) as Hl.
        by destruct (loop _ _ _).
      - exact Hwf. }
    destruct (act cfg d a) as [d1 e1]. specialize (IH d1 Hwf1).
    by destruct (runActions cfg d1 rest). }
  apply Hgen, initDetector_wf.
Qed.

(** X10. A frame processed from a state with well-sized buffers reports
    fundamentals whose MIDI values all lie in [24, 96], and pitch classes
    that are exactly the classes of those fundamentals: integers in
    [0, 11], strictly ascending, no more of them than fundamentals. *)
Theorem frame_pitch_classes (cfg : Config) (d : Detector) (raw : list N) :
  running d = true -> paused d = false -> wfDetector cfg d ->
  exists u,
    updates (loop cfg d raw).2 = [u] /\
    let funds := take (u_fundCount u) (u_fundMidis u) in
    Forall (fun m => (24 <= m <= 96)%Q) funds /\
    (forall pc, In pc (u_pitchClasses u) <->
       exists m, In m funds /\ pc = midiToPitchClass m) /\
    Forall (fun pc => (0 <= pc <= 11)%Z) (u_pitchClasses u) /\
    StronglySorted Z.lt (u_pitchClasses u) /\
    length (u_pitchClasses u) <= u_fundCount u.
Proof.
  intros Hr Hp Hwf. rewrite (loop_stages cfg d raw Hr Hp). cbn [fst snd].
  eexists. split.
  { unfold updates. rewrite omap_app, (updates_chordStage _ _ _ : omap _ _ = []).
    reflexivity. }
  cbn [u_fundCount u_fundMidis u_pitchClasses].
  destruct Hwf as (_ & Hb & _ & Hf & _).
  match goal with |- context [findFundamentals cfg ?hz ?pk ?buf] =>
    destruct (findFundamentals_spec cfg hz pk buf Hf)
      as (Hf1 & _ & Hf3 & Hrange); [|set (fd := findFundamentals cfg hz pk buf) in *] end.
  { match goal with |- context [findPeaks cfg ?sp ?th ?b ?e] =>
      pose proof (peakScan_lengths sp th (maxPeaks cfg) (binCount cfg - 1 - 1) 1
                    {| pk_bins := b; pk_energies := e; pk_count := 0 |}) as (Hpb & _ & Hpc);
      fold (findPeaks cfg sp th b e) in Hpb, Hpc end.
    simpl in Hpb, Hpc. lia. }
  assert (forall pc, In pc (pitchClassesOf fd) <->
            exists m, In m (take (fd_count fd) (fd_midis fd)) /\ pc = midiToPitchClass m)
    as Hpcs.
  { intros pc. unfold pitchClassesOf. rewrite canon_In, in_map_iff.
    split; intros (m & H1 & H2); exists m; by split. }
  split; [done|]. split; [done|]. split; [|split].
  - apply Forall_forall. intros pc Hpc.
    apply list_elem_of_In, Hpcs in Hpc as (m & Hm & ->).
    rewrite Forall_forall in Hrange. apply list_elem_of_In in Hm.
    apply midiToPitchClass_range. by destruct (Hrange m Hm).
  - apply canon_sorted.
  - unfold pitchClassesOf. etransitivity; [apply canon_length|].
    rewrite length_map, length_take. lia.
Qed.

(** X11. A running, unpaused detector calls [onUpdate] exactly once per
    frame, as the last call, after at most one [onChord]; the update
    carries the new state, and its chord is the one just passed to
    [onChord] when there was such a call. *)
Theorem frame_events (cfg : Config) (d : Detector) (raw : list N) :
  running d = true -> paused d = false ->
  let d' := (loop cfg d raw).1 in
  exists u,
    ((loop cfg d raw).2 = [OnUpdate u] \/
     exists c, (loop cfg d raw).2 = [OnChord c; OnUpdate u] /\ u_chord u = Some c) /\
    u_spectrum u = spectrum d' /\
    u_peakBins u = peakBins d' /\ u_peakEnergies u = peakEnergies d' /\
    u_peakCount u = peakCount d' /\
    u_fundMidis u = fundMidis d' /\ u_fundCount u = fundCount d' /\
    u_stable u = stable d' /\ u_chord u = lastChord d' /\
    u_threshold u = thresholdOf (noiseFloor d').
Proof.
  intros Hr Hp. rewrite (loop_stages cfg d raw Hr Hp). cbn [fst snd].
  match goal with |- context [OnUpdate ?U] => exists U end.
  split; [|repeat split].
  match goal with |- context [chordStage ?a ?b ?c] =>
    destruct (chordStage_cases a b c) as [[-> _]|(ch & -> & -> & _)] end.
  - by left.
  - right. by exists ch.
Qed.

End Frames.

Lemma frame_pitch_classes_witness :
  let cfg := mkConfig quickOptions in
  exists u,
    updates (loop (M := FixedMath.math) cfg (initDetector cfg hz48k) triadFrame).2 = [u] /\
    Forall (fun pc => (0 <= pc <= 11)%Z) (u_pitchClasses u).
Proof.
  intros cfg.
  destruct (frame_pitch_classes (M := FixedMath.math) cfg (initDetector cfg hz48k)
              triadFrame eq_refl eq_refl) as (u & Hu & _ & _ & Hpc & _).
  - apply initDetector_wf.
  - exists u. split; [exact Hu|exact Hpc].
Defined.

Lemma frame_events_witness :
  let cfg := mkConfig quickOptions in
  exists u, updates (loop (M := FixedMath.math) cfg (initDetector cfg hz48k) silence).2 = [u].
Proof.
  intros cfg.
  destruct (frame_events (M := FixedMath.math) cfg (initDetector cfg hz48k) silence
              eq_refl eq_refl) as (u & [->|(c & -> & _)] & _); exists u; reflexivity.
Defined.

(** ** The shape of the peaks *)

Lemma peakOffset_at_peak (spec : list Q) (threshold : Q) (i : nat) :
  IsPeak spec threshold i ->
  let cur := nth i spec 0%Q in
  let prev := nth (i - 1) spec 0%Q in
  let next := nth (i + 1) spec 0%Q in
  let D := (2 * (2 * cur - prev - next))%Q in
  (- (1 # 2) < peakOffset spec i < 1 # 2)%Q /\
  ((1 # 10000 < D)%Q -> (peakOffset spec i == (next - prev) / D)%Q) /\
  ((D <= 1 # 10000)%Q -> peakOffset spec i = 0%Q) /\
  ((prev <= next)%Q -> (0 <= peakOffset spec i)%Q) /\
  ((next <= prev)%Q -> (peakOffset spec i <= 0)%Q).
Proof.
  intros (_ & Hp & Hn) cur prev next D. fold cur prev next in Hp, Hn.
  assert (0 < D)%Q as HD by (unfold D; lra).
  unfold peakOffset. fold cur prev next.
  set (d := (2 * (prev - 2 * cur + next))%Q).
  assert (Qabs d == D)%Q as Habs.
  { rewrite Qabs_neg by (unfold d; lra). unfold d, D. ring. }
  set (v := ((prev - next) / d)%Q).
  assert (v == (next - prev) / D)%Q as Hv.
  { unfold v, d, D. field. lra. }
  assert (- (1 # 2) < v < 1 # 2)%Q as [Hlo Hhi].
  { rewrite Hv. split.
    - apply Qlt_shift_div_l; [done|]. unfold D. lra.
    - apply Qlt_shift_div_r; [done|]. unfold D. lra. }
  assert (JS.max (- (1 # 2)) (JS.min (1 # 2) v) = v) as Hclamp.
  { unfold JS.max, JS.min.
    rewrite (proj2 (ltb_lt v (1 # 2)) Hhi). by rewrite (proj2 (ltb_lt _ v) Hlo). }
  destruct (JS.gtb (Qabs d) (1 # 10000)) eqn:E;
    [apply gtb_lt in E|apply gtb_le in E]; rewrite Habs in E.
  - rewrite Hclamp. split; [done|]. split; [done|]. split; [lra|].
    rewrite Hv. split; intros H.
    + apply Qle_shift_div_l; [done|]. lra.
    + apply Qle_shift_div_r; [done|]. lra.
  - split; [lra|]. split; [lra|]. split; [done|]. lra.
Qed.



Lemma IsPeak_not_next spec threshold i :
  IsPeak spec threshold i -> ~ IsPeak spec threshold (S i).
Proof.
  intros (_ & _ & Hn) (_ & Hp & _).
  replace (S i - 1) with i in Hp by lia. replace (i + 1) with (S i) in Hn by lia.
  lra.
Qed.

Lemma filter_seq_gapped (P : nat -> Prop) `{forall i, Decision (P i)} a n :
  (forall i, P i -> ~ P (S i)) ->
  StronglySorted (fun i j => i + 2 <= j) (filter P (seq a n)).
Proof.
  intros Hadj. revert a. induction n as [|n IH]; intros a; simpl; [constructor|].
  rewrite filter_cons. destruct (decide (P a)) as [Ha|Ha]; [|apply IH].
  constructor; [apply IH|]. apply Forall_forall. intros j Hj.
  apply list_elem_of_filter in Hj as [Hj Hin]. apply elem_of_seq in Hin.
  destruct (decide (j = S a)) as [->|]; [|lia]. by apply Hadj in Ha.
Qed.

Lemma StronglySorted_lookup {A} (R : A -> A -> Prop) l k k' x y :
  StronglySorted R l -> k < k' -> l !! k = Some x -> l !! k' = Some y -> R x y.
Proof.
  intros Hs. revert k k'. induction Hs as [|z l Hs IH Hz]; intros k k' Hk Hx Hy.
  - by rewrite lookup_nil in Hx.
  - destruct k' as [|k']; [lia|]. simpl in Hy. destruct k as [|k]; simpl in Hx.
    + injection Hx as <-. rewrite Forall_forall in Hz.
      apply Hz. by eapply list_elem_of_lookup_2.
    + apply (IH k k'); [lia|done..].
Qed.

Lemma lookup_map_Some {A B} (f : A -> B) l k b :
  map f l !! k = Some b -> exists a, l !! k = Some a /\ b = f a.
Proof.
  change (map f l) with (f <$> l). rewrite list_lookup_fmap.
  destruct (l !! k) as [a|]; simpl; [|done]. intros [= <-]. eauto.
Qed.

Lemma inject_nat_le (n m : nat) :
  n <= m -> (inject_Z (Z.of_nat n) <= inject_Z (Z.of_nat m))%Q.
Proof. intros H. rewrite <- Zle_Qle. lia. Qed.

(** The bins the scan reports: interior peaks, at least two bins apart. *)
Lemma peakIndices_spec spec threshold binCount maxP :
  let idx := take maxP (filter (IsPeak spec threshold) (seq 1 (binCount - 1 - 1))) in
  StronglySorted (fun i j => i + 2 <= j) idx /\
  Forall (fun i => 1 <= i /\ i + 2 <= binCount /\ IsPeak spec threshold i) idx.
Proof.
  intros idx. split.
  - pose proof (filter_seq_gapped (IsPeak spec threshold) 1 (binCount - 1 - 1)
                  (IsPeak_not_next spec threshold)) as Hs.
    rewrite <- (take_drop maxP (filter _ _)) in Hs.
    by apply StronglySorted_app_1_l in Hs.
  - apply Forall_forall. intros i Hi. apply elem_of_take in Hi as (k & Hk & _).
    apply list_elem_of_lookup_2, list_elem_of_filter in Hk as [Hp Hin].
    apply elem_of_seq in Hin. split; [lia|]. split; [lia|done].
Qed.

(** X13. The peaks reported by the extractor lie more than one bin apart,
    in ascending order; each position is within half a bin of an interior
    bin, so it is above 0.5 and below [binCount - 1.5]; each energy is above
    the threshold; and there are at most [maxPeaks] of them. *)
Theorem peaks_separated (cfg : Config) (spec : list Q) (threshold : Q)
    (bins energies : list Q) :
  length bins = maxPeaks cfg -> length energies = maxPeaks cfg ->
  let p := findPeaks cfg spec threshold bins energies in
  let B := take (pk_count p) (pk_bins p) in
  let E := take (pk_count p) (pk_energies p) in
  pk_count p <= maxPeaks cfg /\
  Forall (fun e => (threshold < e)%Q) E /\
  Forall (fun b => (1 # 2 < b)%Q /\
                   (b < inject_Z (Z.of_nat (binCount cfg)) - (3 # 2))%Q) B /\
  (forall k k' b b', k < k' -> B !! k = Some b -> B !! k' = Some b' ->
     (b + 1 < b')%Q).
Proof.
  intros Hb He p B E.
  destruct (peakScan_spec spec threshold (maxPeaks cfg) (binCount cfg - 1 - 1) 1
              {| pk_bins := bins; pk_energies := energies; pk_count := 0 |}
              ltac:(simpl; lia) Hb He) as (H1 & H2 & H3).
  fold (findPeaks cfg spec threshold bins energies) in H1, H2, H3. fold p in H1, H2, H3.
  cbn [pk_count pk_bins pk_energies take app] in H1, H2, H3.
  rewrite Nat.sub_0_r in H1, H2, H3.
  destruct (peakIndices_spec spec threshold (binCount cfg) (maxPeaks cfg))
    as [Hgap Hin].
  set (idx := take (maxPeaks cfg) _) in *.
  fold B in H2. fold E in H3.
  assert (forall i, i ∈ idx ->
            (- (1 # 2) < peakOffset spec i < 1 # 2)%Q) as Hoff.
  { intros i Hi. rewrite Forall_forall in Hin. destruct (Hin i Hi) as (_ & _ & Hp).
    apply (peakOffset_at_peak spec threshold i Hp). }
  split; [|split; [|split]].
  - rewrite H1. unfold idx. rewrite length_take. lia.
  - rewrite H3. apply Forall_forall. intros e He'.
    apply list_elem_of_In, in_map_iff in He' as (i & <- & Hi).
    apply list_elem_of_In in Hi. rewrite Forall_forall in Hin.
    by destruct (Hin i Hi) as (_ & _ & Hp & _).
  - rewrite H2. apply Forall_forall. intros b Hb'.
    apply list_elem_of_In, in_map_iff in Hb' as (i & <- & Hi).
    apply list_elem_of_In in Hi. rewrite Forall_forall in Hin.
    destruct (Hin i Hi) as (Hi1 & Hi2 & _). specialize (Hoff i Hi).
    pose proof (inject_nat_le 1 i Hi1) as Hq1.
    pose proof (inject_nat_le (i + 2) (binCount cfg) Hi2) as Hq2.
    rewrite Nat2Z.inj_add, inject_Z_plus in Hq2.
    change (inject_Z (Z.of_nat 1)) with 1%Q in Hq1.
    change (inject_Z (Z.of_nat 2)) with 2%Q in Hq2. lra.
  - intros k k' b b' Hk Hbk Hbk'. rewrite H2 in Hbk, Hbk'.
    apply lookup_map_Some in Hbk as (i & Hi & ->).
    apply lookup_map_Some in Hbk' as (j & Hj & ->).
    pose proof (StronglySorted_lookup _ _ _ _ _ _ Hgap Hk Hi Hj) as Hij.
    simpl in Hij. apply inject_nat_le in Hij.
    rewrite Nat2Z.inj_add, inject_Z_plus in Hij.
    change (inject_Z (Z.of_nat 2)) with 2%Q in Hij.
    pose proof (Hoff i (list_elem_of_lookup_2 _ _ _ Hi)).
    pose proof (Hoff j (list_elem_of_lookup_2 _ _ _ Hj)). lra.
Qed.

Lemma peaks_separated_witness :
  let cfg := mkConfig {| opt_fftSize := None; opt_binCount := Some 8;
                         opt_stabilityFrames := None |} in
  let p := findPeaks cfg [0; 1; 5; 2; 0; 3; 9; 4]%Q (1 # 2)
             (replicate 64 0%Q) (replicate 64 0%Q) in
  Forall (fun e => (1 # 2 < e)%Q) (take (pk_count p) (pk_energies p)).
Proof.
  intros cfg p.
  apply (peaks_separated cfg [0; 1; 5; 2; 0; 3; 9; 4]%Q (1 # 2)
           (replicate 64 0%Q) (replicate 64 0%Q) ltac:(reflexivity) ltac:(reflexivity)).
Defined.

(** ** Invariants along the life of a detector *)

Section Invariants.
Context {M : JSMath}.
Variables (cfg : Config) (P : Detector -> Prop) (F : list N -> Prop)
  (E : Event -> Prop).
Hypothesis P_paused : forall d b, P d -> P (withPaused d b).
Hypothesis P_stop : forall d, P d -> P (stop d).
Hypothesis P_loop : forall d raw,
  running d = true -> paused d = false -> P d -> F raw ->
  P (loop cfg d raw).1 /\ Forall E (loop cfg d raw).2.

Lemma loop_inv d raw :
  P d -> F raw -> P (loop cfg d raw).1 /\ Forall E (loop cfg d raw).2.
Proof using P_loop.
  intros Hd Hraw. destruct (running d) eqn:Hr.
  - destruct (paused d) eqn:Hp; [|by apply P_loop].
    rewrite loop_idle by (by right). by split.
  - rewrite loop_idle by (by left). by split.
Qed.

Lemma act_inv d a :
  P d -> match frameOf a with Some raw => F raw | None => True end ->
  P (act cfg d a).1 /\ Forall E (act cfg d a).2.
Proof using P_paused P_stop P_loop.
  intros Hd Ha. destruct a as [raw|raw|]; simpl in *.
  - by apply loop_inv.
  - unfold togglePause.
    pose proof (P_paused d (negb (paused d)) Hd) as Hd1.
    destruct (negb _ && _); [|by split].
    pose proof (loop_inv _ raw Hd1 Ha) as Hl.
    by destruct (loop _ _ _).
  - split; [by apply P_stop|constructor].
Qed.

Lemma runActions_inv actions d :
  P d -> framesSatisfy F actions ->
  P (runActions cfg d actions).1 /\ Forall E (runActions cfg d actions).2.
Proof using P_paused P_stop P_loop.
  revert d. induction actions as [|a rest IH]; intros d Hd Hact; simpl.
  - by split.
  - apply Forall_cons in Hact as [Ha Hrest].
    pose proof (act_inv d a Hd Ha) as [Hd1 He1].
    destruct (act cfg d a) as [d1 e1]. simpl in Hd1, He1.
    pose proof (IH d1 Hd1 Hrest) as [Hd2 He2].
    destruct (runActions cfg d1 rest) as [d2 e2]. simpl in *.
    split; [done|]. by apply Forall_app.
Qed.

End Invariants.

(** ** The noise floor and the threshold *)

Lemma rawAt_byte raw i :
  Forall (fun x => (x <= 255)%N) raw -> (rawAt raw i <= 255)%Q.
Proof.
  intros Hraw. unfold rawAt. change 255%Q with (inject_Z 255).
  rewrite <- Zle_Qle. destruct (lt_dec i (length raw)) as [Hi|Hi].
  - rewrite Forall_forall in Hraw.
    specialize (Hraw (nth i raw 0%N) ltac:(apply list_elem_of_In, nth_In; lia)).
    simpl in Hraw. lia.
  - rewrite nth_overflow by lia. lia.
Qed.

Lemma readStep_max_bounds raw (idxs : list nat) (spec : list Q) (maxE : Q) :
  Forall (fun x => (x <= 255)%N) raw -> (0 <= maxE <= 255)%Q ->
  (0 <= (fold_left (readStep raw) idxs (spec, maxE)).2 <= 255)%Q.
Proof.
  intros Hraw. revert spec maxE.
  induction idxs as [|i idxs IH]; intros spec maxE Hm; [done|].
  simpl. apply IH. pose proof (rawAt_byte raw i Hraw).
  destruct (JS.gtb _ _) eqn:Eg; [apply gtb_lt in Eg; lra|done].
Qed.

Lemma readFrame_max_bounds cfg spec raw :
  Forall (fun x => (x <= 255)%N) raw ->
  (0 <= (readFrame cfg spec raw).2 <= 255)%Q.
Proof. intros Hraw. apply readStep_max_bounds; [done|lra]. Qed.

Lemma readFrame_nonneg cfg spec raw i :
  length spec = binCount cfg ->
  (0 <= nth i (readFrame cfg spec raw).1 0)%Q.
Proof.
  intros Hlen. unfold readFrame. rewrite readFrame_prefix by lia.
  rewrite <- Hlen, drop_all, app_nil_r. simpl.
  destruct (lt_dec i (length spec)) as [Hi|Hi].
  - rewrite nth_map_seq by lia. apply rawAt_nonneg.
  - rewrite nth_overflow; [lra|]. rewrite length_map, length_seq. lia.
Qed.

Lemma floorSample_bounds spec maxE (idxs : list nat) (acc : Q * nat) :
  (forall i, 0 <= nth i spec 0)%Q ->
  (0 <= acc.1 <= inject_Z (Z.of_nat acc.2) * (maxE * (3 # 10)))%Q ->
  let r := fold_left (floorStep spec maxE) idxs acc in
  (0 <= r.1 <= inject_Z (Z.of_nat r.2) * (maxE * (3 # 10)))%Q.
Proof.
  intros Hspec. revert acc. induction idxs as [|i idxs IH]; intros acc Hacc; [done|].
  simpl. apply IH. unfold floorStep. destruct acc as [sum cnt]. simpl in *.
  destruct (JS.ltb _ _) eqn:El; [|done]. apply ltb_lt in El. simpl.
  rewrite Nat2Z.inj_succ, <- Z.add_1_r, inject_Z_plus.
  change (inject_Z 1) with 1%Q. specialize (Hspec i). lra.
Qed.

Lemma floorEstimate_bounds (sc : Q * nat) (b : Q) :
  (0 <= b)%Q -> (0 <= sc.1 <= inject_Z (Z.of_nat sc.2) * b)%Q ->
  (0 <= floorEstimate sc <= b)%Q.
Proof.
  intros Hb Hsc. unfold floorEstimate. destruct sc as [sum [|n]]; simpl in *; [lra|].
  assert (0 < inject_Z (Z.pos (Pos.of_succ_nat n)))%Q as Hpos.
  { change 0%Q with (inject_Z 0). rewrite <- Zlt_Qlt. lia. }
  split.
  - apply Qle_shift_div_l; [done|lra].
  - apply Qle_shift_div_r; [done|lra].
Qed.

Lemma thresholdOf_small (nf : Q) : (nf * 3 < 255)%Q -> thresholdOf nf = (nf * 3)%Q.
Proof.
  intros H. unfold thresholdOf, JS.min.
  destruct (JS.ltb _ _) eqn:El; [done|]. apply ltb_ge in El. lra.
Qed.

Section Floor.
Context {M : JSMath}.

Lemma loop_floorBounded cfg d raw :
  running d = true -> paused d = false ->
  wfDetector cfg d /\ floorBounded d -> byteFrame cfg raw ->
  (wfDetector cfg (loop cfg d raw).1 /\ floorBounded (loop cfg d raw).1) /\
  Forall (fun e => match updateOf e with
                   | Some u => (0 <= u_threshold u <= 459 # 2)%Q
                   | None => True
                   end) (loop cfg d raw).2.
Proof.
  intros Hr Hp [Hwf Hnf] [_ Hraw].
  destruct (loop_noiseFloor cfg d raw Hr Hp) as [Hnf' Hth].
  assert (floorBounded (loop cfg d raw).1) as Hb.
  { unfold floorBounded in *. rewrite Hnf'. unfold updateNoiseFloor.
    pose proof (readFrame_max_bounds cfg (spectrum d) raw Hraw) as Hmax.
    set (sm := readFrame cfg (spectrum d) raw) in *.
    assert (0 <= floorEstimate (floorSample cfg sm.1 sm.2) <= sm.2 * (3 # 10))%Q
      as Hest.
    { apply floorEstimate_bounds; [lra|]. apply floorSample_bounds.
      - intros i. apply readFrame_nonneg. apply Hwf.
      - cbn [fst snd]. change (inject_Z (Z.of_nat 0)) with 0%Q. lra. }
    lra. }
  split; [split; [by apply loop_wf|done]|].
  apply Forall_forall. intros e He.
  destruct (updateOf e) as [u|] eqn:Eu; [|done].
  assert (In (u_threshold u) (map u_threshold (updates (loop cfg d raw).2))) as Hin.
  { apply in_map. unfold updates. apply list_elem_of_In, list_elem_of_omap.
    exists e. by split. }
  rewrite Hth in Hin. destruct Hin as [<-|[]].
  unfold floorBounded in Hb. rewrite thresholdOf_small by lra. lra.
Qed.

(** X14. Fed with frames of byte samples, a detector's noise floor never
    leaves [0, 76.5], so the threshold passed to [onUpdate] is always three
    times the noise floor, at most 229.5: the cap at 255 is never reached.
    This holds from the initial state through any sequence of frames,
    [togglePause] and [stop]. *)
Theorem threshold_below_cap (cfg : Config) (hz : Q) (actions : list Action) :
  framesSatisfy (byteFrame cfg) actions ->
  let r := runActions cfg (initDetector cfg hz) actions in
  (0 <= noiseFloor r.1 <= 153 # 2)%Q /\
  thresholdOf (noiseFloor r.1) = (noiseFloor r.1 * 3)%Q /\
  Forall (fun u => (0 <= u_threshold u <= 459 # 2)%Q) (updates r.2).
Proof.
  intros Hact r.
  destruct (runActions_inv cfg (fun d => wfDetector cfg d /\ floorBounded d)
              (byteFrame cfg)
              (fun e => match updateOf e with
                        | Some u => (0 <= u_threshold u <= 459 # 2)%Q
                        | None => True
                        end))
    with (actions := actions) (d := initDetector cfg hz) as [[_ Hb] He].
  - intros d b Hd. exact Hd.
  - intros d Hd. exact Hd.
  - apply loop_floorBounded.
  - split; [apply initDetector_wf|]. unfold floorBounded. simpl. lra.
  - exact Hact.
  - fold r in Hb, He. unfold floorBounded in Hb.
    split; [done|]. split; [apply thresholdOf_small; lra|].
    apply Forall_forall. intros u Hu. unfold updates in Hu.
    apply list_elem_of_omap in Hu as (e & He' & Heu).
    rewrite Forall_forall in He. specialize (He e He'). by rewrite Heu in He.
Qed.

End Floor.

Lemma threshold_below_cap_witness :
  let cfg := mkConfig {| opt_fftSize := None; opt_binCount := Some 8;
                         opt_stabilityFrames := None |} in
  let r := runActions (M := FixedMath.math) cfg (initDetector cfg hz48k)
             [Frame [0; 1; 5; 2; 0; 3; 255; 4]%N; Stop] in
  (0 <= noiseFloor r.1 <= 153 # 2)%Q.
Proof.
  intros cfg r.
  apply (threshold_below_cap (M := FixedMath.math) cfg hz48k
           [Frame [0; 1; 5; 2; 0; 3; 255; 4]%N; Stop]).
  repeat constructor; vm_compute; discriminate.
Defined.

(** ** Chords in every transposition *)

Lemma Chord_eqb_eq (a b : Chord) : Chord_eqb a b = true -> a = b.
Proof.
  destruct a as [r1 p1 n1 a1 f1], b as [r2 p2 n2 a2 f2]. unfold Chord_eqb. simpl.
  rewrite !andb_true_iff. intros ((((Hr & Hp) & Hn) & Ha) & Hf).
  apply Z.eqb_eq in Hp. apply String.eqb_eq in Hn, Ha, Hf. subst.
  f_equal. destruct r1 as [x|], r2 as [y|]; simpl in Hr; try discriminate.
  - apply String.eqb_eq in Hr. by subst.
  - reflexivity.
Qed.

(** *** Scores by table *)

Lemma scoreTable_eq :
  scoreTable =
  map (fun len => map (fun m => map (fun n => scoreOf m len n) (seq 0 13)) (seq 0 6))
    (seq 0 6).
Proof. vm_compute. reflexivity. Qed.

Lemma tableScore_scoreOf (m len n : nat) :
  m <= 5 -> len <= 5 -> n <= 12 -> tableScore m len n = scoreOf m len n.
Proof.
  intros Hm Hlen Hn. unfold tableScore. rewrite scoreTable_eq.
  rewrite (nth_map_seq _ 6 len) by lia.
  rewrite (nth_map_seq _ 6 m) by lia.
  apply nth_map_seq. lia.
Qed.

(** The rounding of [Double] is that of the machine's binary64
    arithmetic on every score of the catalog: for templates of one to five
    intervals and up to twelve intervals above the root. *)
Lemma scoreOf_binary64 (m len n : nat) :
  1 <= len <= 5 -> m <= len -> m <= n <= 12 ->
  exists q, floatQ (scoreBinary64 m len n) = Some q /\ (q == scoreOf m len n)%Q.
Proof.
  intros Hlen Hm Hn.
  assert (forallb (fun len => forallb (fun m => forallb (fun n =>
            negb (m <=? len) || negb (m <=? n)
            || match floatQ (scoreBinary64 m len n) with
               | Some q => Qeq_bool q (scoreOf m len n)
               | None => false
               end) (seq 0 13)) (seq 0 6)) (seq 1 5) = true) as Hall
    by (vm_compute; reflexivity).
  rewrite forallb_forall in Hall. specialize (Hall len ltac:(apply in_seq; lia)).
  rewrite forallb_forall in Hall. specialize (Hall m ltac:(apply in_seq; lia)).
  rewrite forallb_forall in Hall. specialize (Hall n ltac:(apply in_seq; lia)).
  destruct (Nat.leb_spec m len); [|lia]. destruct (Nat.leb_spec m n); [|lia].
  simpl in Hall. destruct (floatQ (scoreBinary64 m len n)) as [q|]; [|discriminate].
  exists q. split; [reflexivity|]. apply Qeq_bool_iff, Hall.
Qed.

Lemma dropIndex_length {A} (i : nat) (l : list A) : length (JS.dropIndex i l) <= length l.
Proof.
  revert i. induction l as [|x l IH]; intros i; simpl; [destruct i; simpl; lia|].
  destruct i as [|i]; simpl; [lia|]. specialize (IH i). lia.
Qed.

Lemma intervalsOf_length (pcs : list Z) (i : nat) :
  length (intervalsOf pcs i) <= length pcs.
Proof.
  unfold intervalsOf. rewrite (Permutation_length (sortNum_perm _)).
  etransitivity; [apply filter_length_le|]. rewrite length_map. apply dropIndex_length.
Qed.

Lemma CHORDS_short (e : string * string * list Z) : In e CHORDS -> length e.2 <= 5.
Proof.
  assert (forallb (fun e : string * string * list Z => length e.2 <=? 5) CHORDS = true)
    as Hall by (vm_compute; reflexivity).
  rewrite forallb_forall in Hall. intros He. apply Nat.leb_le. exact (Hall e He).
Qed.

Lemma candidates_table (pcs : list Z) :
  length pcs <= 12 -> candidates pcs = candidatesT pcs.
Proof.
  intros Hlen. unfold candidates, candidatesT. apply flat_map_ext. intros i.
  apply map_ext_in. intros e He. unfold candidate. f_equal.
  change (chordScore e.2 (intervalsOf pcs i))
    with (scoreOf (matchCount e.2 (intervalsOf pcs i)) (length e.2)
            (length (intervalsOf pcs i))).
  pose proof (CHORDS_short e He) as Hs.
  pose proof (intervalsOf_length pcs i) as Hi.
  assert (matchCount e.2 (intervalsOf pcs i) <= length e.2) as Hm
    by apply filter_length_le.
  symmetry. apply tableScore_scoreOf; lia.
Qed.

Lemma matchChord_table (l : list Z) :
  length l <= 12 -> matchChord (Some l) = matchChordT l.
Proof.
  intros Hlen. rewrite matchChord_canon. unfold matchChordT.
  pose proof (canon_length l). rewrite candidates_table by lia. reflexivity.
Qed.

Lemma namedAs_spec notes c :
  length notes <= 12 -> namedAs notes c = true -> matchChord (Some notes) = Some c.
Proof.
  intros Hlen. rewrite (matchChord_table notes Hlen).
  unfold namedAs. destruct (matchChordT notes) as [c'|]; [|discriminate].
  intros H. f_equal. exact (Chord_eqb_eq _ _ H).
Qed.

(** X15. Fifteen of the catalog's chord types are named correctly on every
    root: the notes of a major, minor, diminished, power, maj7, 7, m(maj7),
    aug7, add9, madd9, 9, m9, maj9, 11 or 13 chord on root [r], for each of
    the twelve roots, give that chord with root [r].  The other eight types
    share their notes with a chord on another root. *)
Theorem chords_recognised (r : Z) (e : string * string * list Z) :
  (0 <= r < 12)%Z -> In e CHORDS -> ~ In e.1.1 sharedSets ->
  matchChord (Some (chordNotes r e.2)) = Some (chordAt r e.1.1 e.1.2).
Proof.
  intros Hr He Hns. apply namedAs_spec.
  { pose proof (CHORDS_short e He). unfold chordNotes. simpl. rewrite length_map. lia. }
  change (recognised e r = true).
  assert (forallb (fun e : string * string * list Z =>
            existsb (String.eqb e.1.1) sharedSets
            || forallb (fun k => recognised e (Z.of_nat k)) (seq 0 12)) CHORDS = true)
    as Hall by (vm_compute; reflexivity).
  rewrite forallb_forall in Hall. specialize (Hall e He).
  apply orb_true_iff in Hall as [Hs|Hall].
  - exfalso. apply Hns. apply existsb_exists in Hs as (x & Hx & Heq).
    apply String.eqb_eq in Heq. rewrite Heq. exact Hx.
  - rewrite forallb_forall in Hall. specialize (Hall (Z.to_nat r)).
    rewrite Z2Nat.id in Hall by lia. apply Hall. apply in_seq. lia.
Qed.

Lemma chords_recognised_witness :
  matchChord (Some (chordNotes 9 [3; 7]%Z)) =
    Some (mkChord (Some "A"%string) 9 "Minor" "m" "Am").
Proof.
  apply (chords_recognised 9 ("Minor", "m", [3; 7]%Z)%string); [lia| |].
  - right. left. reflexivity.
  - intros H. simpl in H. repeat (destruct H as [H|H]; [discriminate|]). exact H.
Defined.

(** X16. The eight chord types that share their notes with another chord
    are named by the reading with the lowest root: an augmented triad on
    [r] is reported on root [r mod 4] and a dim7 on [r mod 3]; sus4 on
    roots 7 to 11 is reported as the sus2 a fifth below, and sus2 on roots
    5 to 11 as the sus4 a fourth below; m7 and ø7 on roots 9 to 11 are
    reported as the 6 and m6 chords on their thirds, and 6 and m6 on roots
    3 to 11 as the m7 and ø7 chords a minor third below. *)
Theorem shared_sets_lowest_root (r : Z) :
  (0 <= r < 12)%Z ->
  matchChord (Some (chordNotes r [4; 8]%Z)) = Some (chordAt (r mod 4) "Aug" "aug") /\
  matchChord (Some (chordNotes r [3; 6; 9]%Z)) =
    Some (chordAt (r mod 3) "dim7" "dim7") /\
  matchChord (Some (chordNotes r [5; 7]%Z)) =
    Some (if (r <? 7)%Z then chordAt r "Sus4" "sus4"
          else chordAt (r - 7) "Sus2" "sus2") /\
  matchChord (Some (chordNotes r [2; 7]%Z)) =
    Some (if (r <? 5)%Z then chordAt r "Sus2" "sus2"
          else chordAt (r - 5) "Sus4" "sus4") /\
  matchChord (Some (chordNotes r [3; 7; 10]%Z)) =
    Some (if (r <? 9)%Z then chordAt r "m7" "m7" else chordAt (r - 9) "6" "6") /\
  matchChord (Some (chordNotes r [4; 7; 9]%Z)) =
    Some (if (r <? 3)%Z then chordAt r "6" "6" else chordAt (r - 3) "m7" "m7") /\
  matchChord (Some (chordNotes r [3; 6; 10]%Z)) =
    Some (if (r <? 9)%Z then chordAt r "ø7" "ø7" else chordAt (r - 9) "m6" "m6") /\
  matchChord (Some (chordNotes r [3; 7; 9]%Z)) =
    Some (if (r <? 3)%Z then chordAt r "m6" "m6" else chordAt (r - 3) "ø7" "ø7").
Proof.
  intros Hr.
  assert (forallb (fun k =>
            let r := Z.of_nat k in
            namedAs (chordNotes r [4; 8]%Z) (chordAt (r mod 4) "Aug" "aug")
            && namedAs (chordNotes r [3; 6; 9]%Z) (chordAt (r mod 3) "dim7" "dim7")
            && namedAs (chordNotes r [5; 7]%Z)
                 (if (r <? 7)%Z then chordAt r "Sus4" "sus4"
                  else chordAt (r - 7) "Sus2" "sus2")
            && namedAs (chordNotes r [2; 7]%Z)
                 (if (r <? 5)%Z then chordAt r "Sus2" "sus2"
                  else chordAt (r - 5) "Sus4" "sus4")
            && namedAs (chordNotes r [3; 7; 10]%Z)
                 (if (r <? 9)%Z then chordAt r "m7" "m7" else chordAt (r - 9) "6" "6")
            && namedAs (chordNotes r [4; 7; 9]%Z)
                 (if (r <? 3)%Z then chordAt r "6" "6" else chordAt (r - 3) "m7" "m7")
            && namedAs (chordNotes r [3; 6; 10]%Z)
                 (if (r <? 9)%Z then chordAt r "ø7" "ø7" else chordAt (r - 9) "m6" "m6")
            && namedAs (chordNotes r [3; 7; 9]%Z)
                 (if (r <? 3)%Z then chordAt r "m6" "m6" else chordAt (r - 3) "ø7" "ø7"))
          (seq 0 12) = true) as Hall by (vm_compute; reflexivity).
  rewrite forallb_forall in Hall. specialize (Hall (Z.to_nat r)).
  cbv zeta in Hall. rewrite Z2Nat.id in Hall by lia.
  specialize (Hall ltac:(apply in_seq; lia)).
  rewrite !andb_true_iff in Hall.
  destruct Hall as (((((((H1 & H2) & H3) & H4) & H5) & H6) & H7) & H8).
  repeat split; (apply namedAs_spec; [simpl; lia|assumption]).
Qed.

Lemma shared_sets_lowest_root_witness :
  matchChord (Some (chordNotes 9 [3; 7; 10]%Z)) =
    Some (mkChord (Some "C"%string) 0 "6" "6" "C6").
Proof.
  apply (shared_sets_lowest_root 9). lia.
Defined.

(** ** What a match says about the input *)

Lemma includes_In ivs t : JS.includes ivs t = true -> In t ivs.
Proof.
  unfold JS.includes. rewrite existsb_exists. intros (x & Hx & Heq).
  apply Z.eqb_eq in Heq. by subst.
Qed.

Lemma matchCount_le template intervals :
  List.NoDup template ->
  matchCount template intervals <= length template /\
  matchCount template intervals <= length intervals.
Proof.
  intros Hnd. unfold matchCount. split; [apply filter_length_le|].
  apply List.NoDup_incl_length; [by apply List.NoDup_filter|].
  intros t Ht. apply filter_In in Ht as [_ Ht]. by apply includes_In.
Qed.

Lemma CHORDS_templates (e : string * string * list Z) :
  In e CHORDS -> List.NoDup e.2 /\ 0 < length e.2.
Proof.
  assert (forallb (fun e : string * string * list Z =>
            (if List.list_eq_dec Z.eq_dec (nodup Z.eq_dec e.2) e.2 then true else false)
            && (0 <? length e.2)) CHORDS = true) as Hall by (vm_compute; reflexivity).
  rewrite forallb_forall in Hall. intros He. specialize (Hall e He).
  apply andb_true_iff in Hall as [Hnd Hlen]. apply Nat.ltb_lt in Hlen.
  split; [|exact Hlen].
  destruct (List.list_eq_dec _ _ _) as [Heq|]; [|discriminate].
  rewrite <- Heq. apply List.NoDup_nodup.
Qed.

Lemma chordScore_above_half template intervals :
  List.NoDup template -> 0 < length template ->
  (1 # 2 < chordScore template intervals)%Q ->
  length template < 2 * matchCount template intervals /\
  length intervals < matchCount template intervals + 5.
Proof.
  intros Hnd Hlen. unfold chordScore, Double.sub, Double.div, Double.mul.
  destruct (matchCount_le template intervals Hnd) as [Hm1 Hm2].
  set (m := matchCount template intervals) in *.
  set (n := length intervals) in *. set (k := length template) in *.
  set (a := Double.round (inject_Z (Z.of_nat m) / inject_Z (Z.of_nat k))).
  set (b := Double.round (inject_Z (Z.of_nat n - Z.of_nat m) * Double.tenth)).
  intros Hs.
  assert (0 < inject_Z (Z.of_nat k))%Q as Hk.
  { change 0%Q with (inject_Z 0). rewrite <- Zlt_Qlt. lia. }
  assert (0 <= inject_Z (Z.of_nat n - Z.of_nat m))%Q as Hpen.
  { change 0%Q with (inject_Z 0). rewrite <- Zle_Qle. lia. }
  pose proof tenth_above as Ht.
  assert (a <= 1)%Q as Ha.
  { rewrite <- round_one. apply round_mono.
    apply Qle_shift_div_r; [exact Hk|]. rewrite Qmult_1_l, <- Zle_Qle. lia. }
  assert (0 <= b)%Q as Hb.
  { rewrite <- round_zero. apply round_mono. nra. }
  assert (forall x, (x <= 1 # 2)%Q -> (Double.round x <= 1 # 2)%Q) as Hhalf.
  { intros x Hx. rewrite <- round_half. by apply round_mono. }
  split.
  - destruct (le_lt_dec (2 * m) k) as [Hle|]; [|done]. exfalso.
    assert (a <= 1 # 2)%Q.
    { apply Hhalf. apply Qle_shift_div_r; [exact Hk|].
      assert (inject_Z (2 * Z.of_nat m) <= inject_Z (Z.of_nat k))%Q as H2
        by (rewrite <- Zle_Qle; lia).
      rewrite inject_Z_mult in H2. change (inject_Z 2) with 2%Q in H2. lra. }
    specialize (Hhalf (a - b)%Q ltac:(lra)). lra.
  - destruct (le_lt_dec (m + 5) n) as [Hle|]; [|done]. exfalso.
    assert (inject_Z 5 <= inject_Z (Z.of_nat n - Z.of_nat m))%Q as H5
      by (rewrite <- Zle_Qle; lia).
    change (inject_Z 5) with 5%Q in H5.
    assert (1 # 2 <= b)%Q.
    { rewrite <- round_half. apply round_mono. nra. }
    specialize (Hhalf (a - b)%Q ltac:(lra)). lra.
Qed.

Lemma matchChord_parts (l : list Z) (c : Chord) :
  matchChord (Some l) = Some c ->
  In (rootPc c) l /\
  root c = noteAt (rootPc c) /\
  full c = (strOf (root c) ++ abbrev c)%string /\
  exists i e,
    i < length (canon l) /\ nth i (canon l) 0%Z = rootPc c /\
    In e CHORDS /\ name c = e.1.1 /\ abbrev c = e.1.2 /\
    length e.2 < 2 * matchCount e.2 (intervalsOf (canon l) i) /\
    length (intervalsOf (canon l) i) < matchCount e.2 (intervalsOf (canon l) i) + 5.
Proof.
  rewrite matchChord_canon.
  destruct (Nat.ltb_spec (length (canon l)) 2) as [|_]; [discriminate|].
  intros Hc. apply fold_better_Some in Hc as (k & s & Hk & Hs & _).
  apply list_elem_of_lookup_2, list_elem_of_In in Hk.
  unfold candidates in Hk. apply in_flat_map in Hk as (i & Hi & Hk).
  apply in_seq in Hi. apply in_map_iff in Hk as (e & Heq & He).
  unfold candidate in Heq. injection Heq as <- <-.
  destruct (CHORDS_templates e He) as [Hnd Hlen].
  destruct (chordScore_above_half _ _ Hnd Hlen Hs) as [Hhalf Hextra].
  cbn [rootPc root full abbrev name chordAt].
  split; [|split; [reflexivity|split; [reflexivity|]]].
  - apply canon_In, nth_In. lia.
  - exists i, e. repeat split; first [lia | assumption | reflexivity].
Qed.

(** X17. A chord returned by [matchChord] is rooted on one of the input
    pitch classes and named after a catalog entry: its [root] is the note
    name of [rootPc], its [full] name is that root followed by the entry's
    abbreviation, more than half of the entry's intervals are present above
    the root, and the intervals above the root outnumber the entry's
    intervals found among them by fewer than five. *)
Theorem matchChord_result (l : list Z) (c : Chord) :
  matchChord (Some l) = Some c ->
  In (rootPc c) l /\
  root c = noteAt (rootPc c) /\
  full c = (strOf (root c) ++ abbrev c)%string /\
  exists i e,
    i < length (canon l) /\ nth i (canon l) 0%Z = rootPc c /\
    In e CHORDS /\ name c = e.1.1 /\ abbrev c = e.1.2 /\
    length e.2 < 2 * matchCount e.2 (intervalsOf (canon l) i) /\
    length (intervalsOf (canon l) i) < matchCount e.2 (intervalsOf (canon l) i) + 5.
Proof. exact (matchChord_parts l c). Qed.

Lemma matchChord_result_witness :
  In (rootPc C_major) [0; 4; 7]%Z.
Proof.
  apply (matchChord_result [0; 4; 7]%Z C_major). vm_compute. reflexivity.
Defined.

(** ** The stability window *)

(** X18. The key under which a frame's pitch classes enter the history,
    the numbers joined by commas, determines them: two lists of integers
    have the same key exactly when they are the same list, so comparing
    keys compares the pitch-class sets themselves. *)
Theorem history_key_exact (a b : list Z) : joinNums a = joinNums b <-> a = b.
Proof. split; [apply joinNums_inj|by intros ->]. Qed.

Section Window.
Context {M : JSMath}.

Lemma loop_windowInv cfg d raw :
  running d = true -> paused d = false ->
  windowInv cfg d -> True ->
  windowInv cfg (loop cfg d raw).1 /\ Forall (fun _ => True) (loop cfg d raw).2.
Proof.
  intros Hr Hp [Hlen _] _. split; [|by apply Forall_forall].
  destruct (loop_history cfg d raw Hr Hp) as (pcs & _ & Hh & Hs).
  unfold windowInv. rewrite Hs, Hh, pushHistory_take by done.
  assert (length (take (stabilityFrames cfg) (joinNums pcs :: history d))
          <= stabilityFrames cfg) as Hle by (rewrite length_take; lia).
  split; [done|]. intros Hst. apply isStable_true in Hst as [Hn Hall].
  split; [lia|done].
Qed.

(** X19. From the initial state, through any frames and calls of
    [togglePause] and [stop], the history never holds more than
    [stabilityFrames] keys, and whenever the stable flag is set the history
    is full and all its keys are equal. *)
Theorem window_invariant (cfg : Config) (hz : Q) (actions : list Action) :
  let d := (runActions cfg (initDetector cfg hz) actions).1 in
  length (history d) <= stabilityFrames cfg /\
  (stable d = true ->
     length (history d) = stabilityFrames cfg /\
     forall k, In k (history d) -> Some k = head (history d)).
Proof.
  intros d.
  apply (runActions_inv cfg (windowInv cfg) (fun _ => True) (fun _ => True)).
  - intros d0 b Hd. exact Hd.
  - intros d0 Hd. exact Hd.
  - apply loop_windowInv.
  - split; [simpl; lia|discriminate].
  - apply Forall_forall. intros a _. by destruct a.
Qed.

(** ** The chord carried by the updates *)

Lemma chordsTrack_app prev es1 es2 :
  chordsTrack prev (es1 ++ es2) <->
  chordsTrack prev es1 /\ chordsTrack (chordAfter prev es1) es2.
Proof.
  revert prev. induction es1 as [|e es1 IH]; intros prev; simpl; [tauto|].
  destruct e as [c|u]; rewrite IH; unfold chordAfter; simpl; tauto.
Qed.

Lemma chordAfter_app prev es1 es2 :
  chordAfter prev (es1 ++ es2) = chordAfter (chordAfter prev es1) es2.
Proof. unfold chordAfter. apply fold_left_app. Qed.

Lemma loop_chordsTrack cfg d raw :
  chordsTrack (lastChord d) (loop cfg d raw).2 /\
  lastChord (loop cfg d raw).1 = chordAfter (lastChord d) (loop cfg d raw).2.
Proof.
  destruct (running d) eqn:Hr; [|by rewrite loop_idle by (by left)].
  destruct (paused d) eqn:Hp; [by rewrite loop_idle by (by right)|].
  rewrite (loop_stages cfg d raw Hr Hp). cbn [fst snd lastChord].
  match goal with |- context [chordStage ?a ?b ?c] =>
    destruct (chordStage_cases a b c) as [[-> ->]|(ch & -> & -> & _)] end;
    simpl; unfold chordAfter; simpl; tauto.
Qed.

Lemma act_chordsTrack cfg d a :
  chordsTrack (lastChord d) (act cfg d a).2 /\
  lastChord (act cfg d a).1 = chordAfter (lastChord d) (act cfg d a).2.
Proof.
  destruct a as [raw|raw|]; simpl.
  - apply loop_chordsTrack.
  - unfold togglePause. destruct (negb _ && _); [|by split].
    pose proof (loop_chordsTrack cfg (withPaused d (negb (paused d))) raw) as Hl.
    by destruct (loop _ _ _).
  - by split.
Qed.

Lemma runActions_chordsTrack cfg d actions :
  chordsTrack (lastChord d) (runActions cfg d actions).2 /\
  lastChord (runActions cfg d actions).1 =
    chordAfter (lastChord d) (runActions cfg d actions).2.
Proof.
  revert d. induction actions as [|a rest IH]; intros d; simpl; [by split|].
  pose proof (act_chordsTrack cfg d a) as [Ha1 Ha2].
  destruct (act cfg d a) as [d1 e1]. simpl in Ha1, Ha2.
  pose proof (IH d1) as [Hr1 Hr2].
  destruct (runActions cfg d1 rest) as [d2 e2]. simpl in *.
  rewrite chordsTrack_app, chordAfter_app, <- Ha2. by split.
Qed.

Lemma chordsTrack_held prev es :
  prev <> None -> chordsTrack prev es ->
  Forall (fun u => u_chord u <> None) (updates es).
Proof.
  revert prev. induction es as [|e es IH]; intros prev Hp Ht; [constructor|].
  destruct e as [c|u]; simpl in *.
  - by apply (IH (Some c)).
  - destruct Ht as [Hu Ht]. constructor; [by rewrite Hu|by apply (IH prev)].
Qed.

(** X20. Through any frames and calls of [togglePause] and [stop], every
    update carries the chord most recently passed to [onChord], or the
    chord retained at the start when none has been passed yet, and the
    detector ends retaining the chord passed last.  A reported chord is
    thus never cleared: once one is retained, every later update has one. *)
Theorem update_chord_tracks (cfg : Config) (d : Detector) (actions : list Action) :
  let r := runActions cfg d actions in
  chordsTrack (lastChord d) r.2 /\
  lastChord r.1 = chordAfter (lastChord d) r.2 /\
  (lastChord d <> None ->
     lastChord r.1 <> None /\ Forall (fun u => u_chord u <> None) (updates r.2)).
Proof.
  intros r. destruct (runActions_chordsTrack cfg d actions) as [Ht Hl].
  fold r in Ht, Hl. split; [done|]. split; [done|]. intros Hd.
  split; [|by apply (chordsTrack_held (lastChord d))].
  rewrite Hl. clear Ht Hl. revert Hd. generalize (lastChord d) as prev.
  unfold chordAfter. induction r.2 as [|e es IH]; intros prev Hp; simpl; [done|].
  apply IH. by destruct e.
Qed.

End Window.

Lemma update_chord_tracks_witness :
  let cfg := mkConfig quickOptions in
  let r := runActions (M := FixedMath.math) cfg (heldDetector cfg C_major)
             [Frame silence; Stop] in
  lastChord r.1 <> None /\ Forall (fun u => u_chord u <> None) (updates r.2).
Proof.
  intros cfg r.
  apply (update_chord_tracks (M := FixedMath.math) cfg (heldDetector cfg C_major)
           [Frame silence; Stop]).
  discriminate.
Defined.

(** ** Configuration *)

(** X21. For options that are absent or natural numbers, the configuration
    has positive [fftSize], [binCount] and [stabilityFrames]: an option
    given as 0 is replaced by its default (16384, 500, 4) like an absent
    one, and any other value is taken as given; [maxPeaks],
    [maxFundamentals] and [numHarmonics] are fixed at 64, 8 and 6. *)
Theorem config_defaults (opts : Options) :
  let cfg := mkConfig opts in
  let pick (o : option nat) (d : nat) :=
    match o with Some n => if (n =? 0)%nat then d else n | None => d end in
  fftSize cfg = pick (opt_fftSize opts) 16384 /\
  binCount cfg = pick (opt_binCount opts) 500 /\
  stabilityFrames cfg = pick (opt_stabilityFrames opts) 4 /\
  0 < fftSize cfg /\ 0 < binCount cfg /\ 0 < stabilityFrames cfg /\
  maxPeaks cfg = 64 /\ maxFundamentals cfg = 8 /\ numHarmonics cfg = 6.
Proof.
  intros cfg pick.
  assert (forall o d, 0 < d -> orDefault o d = pick o d /\ 0 < orDefault o d) as H.
  { intros [[|n]|] d Hd; simpl; split; lia. }
  destruct (H (opt_fftSize opts) 16384) as [H1 H1'];
    [apply Nat.ltb_lt; vm_compute; reflexivity|].
  destruct (H (opt_binCount opts) 500 ltac:(lia)) as [H2 H2'].
  destruct (H (opt_stabilityFrames opts) 4 ltac:(lia)) as [H3 H3'].
  unfold cfg, mkConfig. cbn [fftSize binCount stabilityFrames maxPeaks
                             maxFundamentals numHarmonics].
  repeat split; assumption || reflexivity.
Qed.

(** ** Octaves *)

(** X22. Two MIDI values whose roundings are an octave (12) apart, the
    lower not below zero and the higher below [2^53], have the same pitch
    class and the same note name, and the octave number in the name of the
    higher is one more. *)
Theorem octave_shift (lower higher : Q) :
  (0 <= JS.round lower)%Z ->
  JS.round higher = (JS.round lower + 12)%Z ->
  (JS.round higher < 2 ^ 53)%Z ->
  midiToPitchClass higher = midiToPitchClass lower /\
  midiToNote higher false = midiToNote lower false /\
  exists name,
    midiToNote lower true = Some (name ++ showZ (JS.round lower / 12 - 1))%string /\
    midiToNote higher true = Some (name ++ showZ (JS.round lower / 12))%string.
Proof.
  intros Hm Hoct _.
  assert (JS.rem (JS.round lower + 12) 12 = JS.rem (JS.round lower) 12) as Hrem.
  { unfold JS.rem. rewrite !Z.rem_mod_nonneg by lia.
    replace (JS.round lower + 12)%Z with (JS.round lower + 1 * 12)%Z by lia.
    apply Z_mod_plus_full. }
  assert ((JS.round lower + 12) / 12 - 1 = JS.round lower / 12)%Z as Hdiv.
  { replace (JS.round lower + 12)%Z with (JS.round lower + 1 * 12)%Z by lia.
    rewrite Z.div_add by lia. lia. }
  unfold midiToPitchClass, midiToNote. rewrite Hoct, Hrem, Hdiv.
  destruct (Z.ltb_spec (JS.round lower + 12) 0); [lia|].
  destruct (Z.ltb_spec (JS.round lower) 0); [lia|].
  split; [reflexivity|]. split; [reflexivity|].
  exists (strOf (noteAt (JS.rem (JS.round lower) 12))). by split.
Qed.

Lemma octave_shift_witness :
  midiToNote 72 false = midiToNote 60 false.
Proof.
  apply (octave_shift 60 72); [vm_compute; discriminate|reflexivity|reflexivity].
Defined.

(** ** Silence *)

Lemma filter_none {A} (P : A -> Prop) `{forall x, Decision (P x)} (l : list A) :
  (forall x, x ∈ l -> ~ P x) -> filter P l = [].
Proof.
  induction l as [|x l IH]; intros Hl; [done|].
  rewrite filter_cons_False by (apply Hl; left).
  apply IH. intros y Hy. apply Hl. by right.
Qed.

Lemma thresholdOf_nonneg (nf : Q) : (0 <= nf)%Q -> (0 <= thresholdOf nf)%Q.
Proof.
  intros H. unfold thresholdOf, JS.min. destruct (JS.ltb _ _); lra.
Qed.

Lemma findPeaks_none cfg spec threshold bins energies :
  length bins = maxPeaks cfg -> length energies = maxPeaks cfg ->
  (0 <= threshold)%Q ->
  (forall i, i < binCount cfg -> nth i spec 0%Q = 0%Q) ->
  pk_count (findPeaks cfg spec threshold bins energies) = 0.
Proof.
  intros Hb He Hth Hz.
  destruct (peakScan_spec spec threshold (maxPeaks cfg) (binCount cfg - 1 - 1) 1
              {| pk_bins := bins; pk_energies := energies; pk_count := 0 |}
              ltac:(simpl; lia) Hb He) as (H1 & _).
  fold (findPeaks cfg spec threshold bins energies) in H1. rewrite H1.
  rewrite filter_none; [by rewrite take_nil|].
  intros i Hi (Hp & _). apply elem_of_seq in Hi.
  rewrite Hz in Hp by lia. lra.
Qed.

Section Silence.
Context {M : JSMath}.

(** X23. A silent frame, all zero over the bins read, leaves a running
    detector whose noise floor is not negative with nothing to report: the
    single call is [onUpdate], with maximum energy 0, no peaks, no
    fundamentals and no pitch classes; [onChord] is not called and the
    retained chord stays as it was. *)
Theorem silent_frame_quiet (cfg : Config) (d : Detector) (raw : list N) :
  running d = true -> paused d = false -> wfDetector cfg d ->
  (0 <= noiseFloor d)%Q -> silentFrame cfg raw ->
  exists u,
    (loop cfg d raw).2 = [OnUpdate u] /\
    u_maxEnergy u = 0%Q /\ u_peakCount u = 0 /\ u_fundCount u = 0 /\
    u_pitchClasses u = [] /\ u_chord u = lastChord d /\
    lastChord (loop cfg d raw).1 = lastChord d.
Proof.
  intros Hr Hp Hwf Hnf [Hlen Hz].
  rewrite (loop_stages cfg d raw Hr Hp). cbn [fst snd lastChord].
  destruct Hwf as (Hs & Hb & He & Hf & _).
  destruct (readFrame_silent raw (seq 0 (binCount cfg)) (spectrum d)) as [Hmax Hspec].
  { intros i Hi. apply in_seq in Hi. apply Hz. lia. }
  fold (readFrame cfg (spectrum d) raw) in Hmax, Hspec.
  set (sm := readFrame cfg (spectrum d) raw) in *.
  set (nf := updateNoiseFloor (noiseFloor d) (floorSample cfg sm.1 sm.2)).
  assert (0 <= nf)%Q as Hnf'.
  { unfold nf, updateNoiseFloor.
    assert (0 <= floorEstimate (floorSample cfg sm.1 sm.2) <= sm.2 * (3 # 10))%Q.
    { apply floorEstimate_bounds; [rewrite Hmax; lra|]. apply floorSample_bounds.
      - intros i. apply readFrame_nonneg. exact Hs.
      - cbn [fst snd]. change (inject_Z (Z.of_nat 0)) with 0%Q. rewrite Hmax. lra. }
    lra. }
  assert (pk_count (findPeaks cfg sm.1 (thresholdOf nf) (peakBins d) (peakEnergies d)) = 0)
    as Hpk.
  { apply findPeaks_none; [done|done|by apply thresholdOf_nonneg|].
    intros i Hi. apply Hspec, in_seq. lia. }
  set (pk := findPeaks cfg sm.1 (thresholdOf nf) (peakBins d) (peakEnergies d)) in *.
  assert (findFundamentals cfg (hzPerBin d) pk (fundMidis d) =
          {| fd_midis := fundMidis d; fd_count := 0 |}) as Hfd.
  { unfold findFundamentals. by rewrite Hpk. }
  rewrite Hfd. unfold pitchClassesOf. cbn [fd_count fd_midis take map].
  change (canon []) with (@nil Z).
  assert (forall st lastc, chordStage st [] lastc = (lastc, [])) as Hcs.
  { intros st lastc. unfold chordStage. by destruct st. }
  rewrite Hcs. cbn [fst snd app].
  eexists. split; [reflexivity|].
  cbn [u_maxEnergy u_peakCount u_fundCount u_pitchClasses u_chord].
  by repeat split.
Qed.

End Silence.

Lemma silent_frame_quiet_witness :
  let cfg := mkConfig quickOptions in
  exists u,
    (loop (M := FixedMath.math) cfg (initDetector cfg hz48k) silence).2 = [OnUpdate u] /\
    u_maxEnergy u = 0%Q /\ u_peakCount u = 0 /\ u_fundCount u = 0 /\
    u_pitchClasses u = [] /\ u_chord u = None /\
    lastChord (loop (M := FixedMath.math) cfg (initDetector cfg hz48k) silence).1 = None.
Proof.
  intros cfg.
  apply (silent_frame_quiet (M := FixedMath.math) cfg (initDetector cfg hz48k) silence
           eq_refl eq_refl (initDetector_wf cfg hz48k)).
  - simpl. lra.
  - apply silence_silent, Nat.leb_le. vm_compute. reflexivity.
Defined.

(** ** The first fundamental *)


Section FirstFundamental.
Context {M : JSMath}.




End FirstFundamental.


(** ** The names of the reported chords *)

Lemma matchChord_named (l : list Z) (c : Chord) :
  Forall (fun pc => (0 <= pc <= 11)%Z) l ->
  matchChord (Some l) = Some c ->
  (0 <= rootPc c <= 11)%Z /\
  exists n, root c = Some n /\ NOTE_NAMES !! Z.to_nat (rootPc c) = Some n /\
            full c = (n ++ abbrev c)%string.
Proof.
  intros Hl Hc. destruct (matchChord_parts l c Hc) as (Hin & Hroot & Hfull & _).
  rewrite Forall_forall in Hl. apply list_elem_of_In, Hl in Hin.
  split; [exact Hin|]. unfold noteAt in Hroot.
  destruct (Z.ltb_spec (rootPc c) 0); [lia|].
  assert (Z.to_nat (rootPc c) < length NOTE_NAMES) as Hlt by (simpl; lia).
  apply lookup_lt_is_Some_2 in Hlt as [n Hn].
  exists n. rewrite Hfull, Hroot, Hn. repeat split; reflexivity.
Qed.

Section Names.
Context {M : JSMath}.

Lemma loop_onChord_named cfg d raw :
  running d = true -> paused d = false ->
  wfDetector cfg d -> True ->
  wfDetector cfg (loop cfg d raw).1 /\
  Forall (fun e => match chordOf e with
                   | Some c =>
                       (0 <= rootPc c <= 11)%Z /\
                       exists n, root c = Some n /\
                         NOTE_NAMES !! Z.to_nat (rootPc c) = Some n /\
                         full c = (n ++ abbrev c)%string
                   | None => True
                   end) (loop cfg d raw).2.
Proof.
  intros Hr Hp Hwf _. split; [by apply loop_wf|].
  rewrite (loop_stages cfg d raw Hr Hp). cbn [fst snd].
  destruct Hwf as (_ & Hb & _ & Hf & _).
  match goal with |- context [findFundamentals cfg ?hz ?pk ?buf] =>
    destruct (findFundamentals_spec cfg hz pk buf Hf)
      as (_ & _ & _ & Hrange); [|set (fd := findFundamentals cfg hz pk buf) in *] end.
  { match goal with |- context [findPeaks cfg ?sp ?th ?b ?e] =>
      pose proof (peakScan_lengths sp th (maxPeaks cfg) (binCount cfg - 1 - 1) 1
                    {| pk_bins := b; pk_energies := e; pk_count := 0 |}) as (Hpb & _ & Hpc);
      fold (findPeaks cfg sp th b e) in Hpb, Hpc end.
    simpl in Hpb, Hpc. lia. }
  assert (Forall (fun pc => (0 <= pc <= 11)%Z) (pitchClassesOf fd)) as Hpcs.
  { apply Forall_forall. intros pc Hpc. unfold pitchClassesOf in Hpc.
    apply list_elem_of_In, canon_In, in_map_iff in Hpc as (m & <- & Hm).
    rewrite Forall_forall in Hrange. apply list_elem_of_In in Hm.
    apply midiToPitchClass_range. by destruct (Hrange m Hm). }
  apply Forall_app. split; [|by repeat constructor].
  match goal with |- context [chordStage ?a ?b ?c] =>
    destruct (chordStage_cases a b c) as [[-> _]|(ch & -> & _ & _ & _ & Hm & _)] end.
  - constructor.
  - constructor; [|constructor]. simpl. by apply (matchChord_named (pitchClassesOf fd)).
Qed.

(** X25. Every chord a detector passes to [onChord], from the initial
    state through any frames and calls of [togglePause] and [stop], is
    rooted on a pitch class from 0 to 11 and carries that class's note
    name: the root is never undefined, and the full name is the note name
    followed by the abbreviation. *)
Theorem onChord_named (cfg : Config) (hz : Q) (actions : list Action) :
  Forall (fun c =>
            (0 <= rootPc c <= 11)%Z /\
            exists n, root c = Some n /\
              NOTE_NAMES !! Z.to_nat (rootPc c) = Some n /\
              full c = (n ++ abbrev c)%string)
    (emitted (runActions cfg (initDetector cfg hz) actions).2).
Proof.
  destruct (runActions_inv cfg (wfDetector cfg) (fun _ => True)
              (fun e => match chordOf e with
                        | Some c =>
                            (0 <= rootPc c <= 11)%Z /\
                            exists n, root c = Some n /\
                              NOTE_NAMES !! Z.to_nat (rootPc c) = Some n /\
                              full c = (n ++ abbrev c)%string
                        | None => True
                        end))
    with (actions := actions) (d := initDetector cfg hz) as [_ He].
  - intros d b Hd. exact Hd.
  - intros d Hd. exact Hd.
  - apply loop_onChord_named.
  - apply initDetector_wf.
  - apply Forall_forall. intros a _. by destruct a.
  - apply Forall_forall. intros c Hc. unfold emitted in Hc.
    apply list_elem_of_omap in Hc as (e & He' & Hec).
    rewrite Forall_forall in He. specialize (He e He'). by rewrite Hec in He.
Qed.

End Names.
